(** * SeqHREWordGlobalAttention

    A shallow embedding of [onmt/modules/seq_hre_word_global_attention.py]:
    the construction of the module, the score function, the masked
    normalization, the hierarchical rescaling by the utterance-level
    alignment, and the assembly of the context vector, in single-step and
    multi-step mode.

    Numbers.  A tensor entry is an [fval]: a real number or one of the three
    IEEE special values.  Arithmetic on finite entries is exact (rounding,
    overflow, underflow and the sign of zero are not represented: [exp] of a
    finite number is never 0, and two different weights stay different after
    a multiplication); every operation with an infinity or a NaN follows
    IEEE 754, which is what the masking by [-float('inf')] and the
    renormalization by a possibly zero sum rely on.  Where rounding decides
    a property, the computation is given a second time on binary32 numbers
    ([Binary32]).

    Tensors.  A tensor of rank n is a nested list of depth n.  A size is read
    from the first element along each axis, so an axis behind an empty axis
    reads as 0; statements about sizes are made for tensors whose leading
    axes are not empty, where the reading is that of [Tensor.size()].

    Errors.  Every Python exception is a value of [error]; a computation that
    may raise returns a [result]. *)

From Stdlib Require Import String.
From Stdlib Require Import Reals Lra Lia List ZArith Bool Permutation Sorted.
From Stdlib Require SpecFloat.
Import ListNotations.

(* ================================================================= *)
(** ** Numbers *)

Module Fval.

Open Scope R_scope.

Inductive fval : Type :=
| Fin (r : R)
| PInf
| NInf
| NaN.

Inductive sign : Type := Neg | Zero | Pos.

Definition Rsign (r : R) : sign :=
  match total_order_T r 0 with
  | inleft (left _) => Neg
  | inleft (right _) => Zero
  | inright _ => Pos
  end.

(** The infinity of a given sign; [inf * 0] and [0 / 0] are NaN. *)
Definition inf_of (s : sign) : fval :=
  match s with Neg => NInf | Zero => NaN | Pos => PInf end.

Definition fneg (a : fval) : fval :=
  match a with
  | Fin x => Fin (- x)
  | PInf => NInf
  | NInf => PInf
  | NaN => NaN
  end.

Definition fadd (a b : fval) : fval :=
  match a, b with
  | NaN, _ | _, NaN => NaN
  | Fin x, Fin y => Fin (x + y)
  | PInf, NInf | NInf, PInf => NaN
  | PInf, _ | _, PInf => PInf
  | NInf, _ | _, NInf => NInf
  end.

Definition fsub (a b : fval) : fval := fadd a (fneg b).

Definition fmul (a b : fval) : fval :=
  match a, b with
  | NaN, _ | _, NaN => NaN
  | Fin x, Fin y => Fin (x * y)
  | Fin x, PInf | PInf, Fin x => inf_of (Rsign x)
  | Fin x, NInf | NInf, Fin x => inf_of (Rsign (- x))
  | PInf, PInf | NInf, NInf => PInf
  | PInf, NInf | NInf, PInf => NInf
  end.

Definition fdiv (a b : fval) : fval :=
  match a, b with
  | NaN, _ | _, NaN => NaN
  | Fin x, Fin y =>
      if Req_dec_T y 0 then inf_of (Rsign x) else Fin (x / y)
  | Fin _, PInf | Fin _, NInf => Fin 0
  | PInf, Fin y => if Rlt_dec y 0 then NInf else PInf
  | NInf, Fin y => if Rlt_dec y 0 then PInf else NInf
  | PInf, PInf | PInf, NInf | NInf, PInf | NInf, NInf => NaN
  end.

Definition fexp (a : fval) : fval :=
  match a with
  | Fin x => Fin (exp x)
  | PInf => PInf
  | NInf => Fin 0
  | NaN => NaN
  end.

Definition ftanh (a : fval) : fval :=
  match a with
  | Fin x => Fin (tanh x)
  | PInf => Fin 1
  | NInf => Fin (-1)
  | NaN => NaN
  end.

(** [a > b]; false as soon as one side is NaN. *)
Definition fgtb (a b : fval) : bool :=
  match a, b with
  | NaN, _ | _, NaN => false
  | Fin x, Fin y => if Rlt_dec y x then true else false
  | PInf, PInf | NInf, NInf => false
  | PInf, _ | _, NInf => true
  | _, PInf | NInf, _ => false
  end.

(** [torch.max] of two entries: a NaN wins. *)
Definition fmax (a b : fval) : fval :=
  match a, b with
  | NaN, _ | _, NaN => NaN
  | _, _ => if fgtb b a then b else a
  end.

(** [torch.clamp(x, min=0)]. *)
Definition clamp0 (a : fval) : fval :=
  match a with
  | NaN => NaN
  | _ => if fgtb (Fin 0) a then Fin 0 else a
  end.

(** The order [torch.sort] uses: NaN is the greatest element. *)
Definition sort_geb (a b : fval) : bool :=
  match a, b with
  | NaN, _ => true
  | _, NaN => false
  | _, _ => negb (fgtb b a)
  end.

Definition is_finite (a : fval) : bool :=
  match a with Fin _ => true | _ => false end.

Definition is_nan (a : fval) : bool :=
  match a with NaN => true | _ => false end.


End Fval.
Export Fval.

(* ================================================================= *)
(** ** Exceptions *)

Inductive error : Type :=
| AeqError (args : list nat)
    (** the AssertionError of [aeq], carrying the compared values *)
| AssertionError (msg : string)
| AttributeError (msg : string)
| TypeError (msg : string)
| RuntimeError (msg : string).

Inductive result (A : Type) : Type :=
| Ok (a : A)
| Err (e : error).

Arguments Ok {A} a.
Arguments Err {A} e.

Definition bind {A B} (r : result A) (k : A -> result B) : result B :=
  match r with
  | Ok a => k a
  | Err e => Err e
  end.

Declare Scope result_scope.
Delimit Scope result_scope with result.
Notation "x <- r ;; k" := (bind r (fun x => k))
  (at level 61, r at next level, right associativity) : result_scope.
Notation "' p <- r ;; k" := (bind r (fun p => k))
  (at level 61, p pattern, r at next level, right associativity) : result_scope.
Notation "r ;;; k" := (bind r (fun _ => k))
  (at level 61, right associativity) : result_scope.
Open Scope result_scope.

Definition is_ok {A} (r : result A) : bool :=
  match r with Ok _ => true | Err _ => false end.

Fixpoint mapM {A B} (f : A -> result B) (l : list A) : result (list B) :=
  match l with
  | [] => Ok []
  | a :: l' => b <- f a ;; bs <- mapM f l' ;; Ok (b :: bs)
  end.

(** Both lists are walked in step; the callers compare the lengths first. *)
Fixpoint zipM {A B C} (f : A -> B -> result C) (la : list A) (lb : list B)
  : result (list C) :=
  match la, lb with
  | a :: la', b :: lb' => c <- f a b ;; cs <- zipM f la' lb' ;; Ok (c :: cs)
  | _, _ => Ok []
  end.

Definition zip_with {A B C} (f : A -> B -> C) (la : list A) (lb : list B)
  : list C :=
  map (fun p => f (fst p) (snd p)) (combine la lb).

(* ================================================================= *)
(** ** Tensors *)

Definition vec := list fval.
Definition mat := list vec.
Definition tensor3 := list mat.

(** A tensor of rank 2 or 3: the two shapes [forward] accepts for the query
    and for the utterance alignment, and the two it returns. *)
Inductive tensor23 : Type :=
| T2 (m : mat)
| T3 (t : tensor3).

Definition size2 {A} (m : list (list A)) : nat * nat :=
  (length m, length (hd [] m)).

Definition size3 {A} (t : list (list (list A))) : nat * nat * nat :=
  (length t, length (hd [] t), length (hd [] (hd [] t))).

(** [t.unsqueeze(1)] on a rank 2 tensor. *)
Definition unsqueeze1 {A} (m : list A) : list (list A) :=
  map (fun v => [v]) m.

(** [t.squeeze(1)] on a tensor whose axis 1 has size 1. *)
Definition squeeze1 {A} (t : list (list (list A))) : list (list A) :=
  map (fun m => hd [] m) t.

(** [t.transpose(0, 1)] on a tensor whose axis 1 has size [n]. *)
Definition transpose01 {A} (n : nat) (t : list (list (list A)))
  : list (list (list A)) :=
  map (fun j => map (fun m => nth j m []) t) (seq 0 n).

Definition fsum (l : vec) : fval := fold_right fadd (Fin 0) l.

Definition fdot (x y : vec) : fval := fsum (zip_with fmul x y).

Definition vadd (x y : vec) : vec := zip_with fadd x y.

(** [torch.bmm(a, b.transpose(1, 2))]: entry (b, i, j) is the dot product of
    row i of [a] and row j of [b]. *)
Definition bmm_nt (a b : tensor3) : tensor3 :=
  zip_with (fun ab bb => map (fun q => map (fun s => fdot q s) bb) ab) a b.

(** [torch.bmm(a, b)] where the rows of [b] have [d] entries: entry
    (b, i, k) is the sum over j of a(b, i, j) * b(b, j, k). *)
Definition weighted_row (d : nat) (w : vec) (m : mat) : vec :=
  map (fun k => fsum (zip_with (fun wj v => fmul wj (nth k v (Fin 0))) w m))
      (seq 0 d).

Definition bmm (d : nat) (a b : tensor3) : tensor3 :=
  zip_with (fun ab bb => map (fun w => weighted_row d w bb) ab) a b.

(** [nn.Linear]: [weight] has one row per output feature. *)
Record Linear : Type := {
  weight : mat;
  bias : option vec
}.

Definition linear (L : Linear) (x : vec) : vec :=
  let y := map (fun w => fdot x w) (weight L) in
  match bias L with
  | None => y
  | Some b => vadd y b
  end.

(* ================================================================= *)
(** ** Collaborators from [onmt.utils.misc] *)

(** Modelled from the spec: [aeq] of [onmt.utils.misc] is imported but its
    source is not part of the module; section 6 describes it as the
    shape-equality assertion which, given two or more integers, fails loudly
    if they differ and reports the actual values. *)
Definition aeq (args : list nat) : result unit :=
  match args with
  | [] => Ok tt
  | first :: rest =>
      if forallb (Nat.eqb first) rest then Ok tt else Err (AeqError args)
  end.

(** Modelled from the spec: [sequence_mask] of [onmt.utils.misc] is imported
    but its source is not part of the module; section 6 describes it as the
    mask builder which, given a lengths vector and a maximum length, returns
    the boolean matrix whose entry (b, i) is true iff i < lengths[b]. *)
Definition sequence_mask (lengths : list Z) (max_len : nat) : list (list bool) :=
  map (fun len => map (fun i => (Z.of_nat i <? len)%Z) (seq 0 max_len)) lengths.

(* ================================================================= *)
(** ** The module and its parameters *)

(** [attn_type] together with the layers [__init__] creates for it. *)
Inductive attn_type : Type :=
| Dot
| General (linear_in : Linear)
| Mlp (linear_context linear_query v : Linear).

Inductive attn_func : Type :=
| Softmax
| Sparsemax.

(** [linear_out] is present iff [output_attn_h]; [linear_cover] is present
    iff the module was built with [coverage=True]. *)
Record SeqHREWordGlobalAttention : Type := {
  dim : nat;
  seqHRE_attn_rescale : bool;
  attn_type_of : attn_type;
  attn_func_of : attn_func;
  linear_out : option Linear;
  linear_cover : option Linear
}.

Definition output_attn_h (self : SeqHREWordGlobalAttention) : bool :=
  match linear_out self with Some _ => true | None => false end.

Definition is_luong (a : attn_type) : bool :=
  match a with Mlp _ _ _ => false | _ => true end.

(** The module [SeqHREWordGlobalAttention(dim)] with the default arguments
    of [__init__]: dot scores, softmax, no output layer, no coverage, no
    rescaling. *)
Definition dot_softmax (dim : nat) : SeqHREWordGlobalAttention :=
  {| dim := dim;
     seqHRE_attn_rescale := false;
     attn_type_of := Dot;
     attn_func_of := Softmax;
     linear_out := None;
     linear_cover := None |}.

(** The same module with another scoring strategy. *)
Definition set_attn_type (a : attn_type) (self : SeqHREWordGlobalAttention)
  : SeqHREWordGlobalAttention :=
  {| dim := dim self;
     seqHRE_attn_rescale := seqHRE_attn_rescale self;
     attn_type_of := a;
     attn_func_of := attn_func_of self;
     linear_out := linear_out self;
     linear_cover := linear_cover self |}.

(** The same module with the rescaling flag set to [b]. *)
Definition set_rescale (b : bool) (self : SeqHREWordGlobalAttention)
  : SeqHREWordGlobalAttention :=
  {| dim := dim self;
     seqHRE_attn_rescale := b;
     attn_type_of := attn_type_of self;
     attn_func_of := attn_func_of self;
     linear_out := linear_out self;
     linear_cover := linear_cover self |}.

(** The weight of [linear_in] set to the identity matrix of size d. *)
Definition identity_matrix (d : nat) : mat :=
  map (fun i => map (fun j => if Nat.eqb i j then Fin 1%R else Fin 0%R)
                    (seq 0 d))
      (seq 0 d).

Definition identity_layer (d : nat) : Linear :=
  {| weight := identity_matrix d; bias := None |}.

(* ================================================================= *)
(** ** __init__ *)

(** The values [nn.Linear] draws when it initializes a layer: one for each
    entry of the weight and one for each entry of the bias. *)
Record drawn : Type := {
  drawn_weight : nat -> nat -> fval;
  drawn_bias : nat -> fval
}.

(** [nn.Linear(in_features, out_features, bias)]: a weight of shape
    (out_features, in_features) and, if asked for, a bias of out_features
    entries. *)
Definition nn_Linear (values : drawn) (in_features out_features : nat)
  (with_bias : bool) : Linear :=
  {| weight := map (fun o => map (fun i => drawn_weight values o i)
                                 (seq 0 in_features))
                   (seq 0 out_features);
     bias := if with_bias
             then Some (map (drawn_bias values) (seq 0 out_features))
             else None |}.

(** [x in l] on strings. *)
Definition mem (x : string) (l : list string) : bool :=
  existsb (String.eqb x) l.

Definition type_msg (attn_type : string) : string :=
  String.append "Please select a valid attention type (got "
                (String.append attn_type ").").

Definition func_msg : string := "Please select a valid attention function.".

(** Lines 71-99.  [draw] gives the initial values of each layer, by the name
    of the attribute it is stored in. *)
Definition __init__ (draw : string -> drawn) (dim : nat) (coverage : bool)
  (attn_type attn_func : string) (output_attn_h seqHRE_attn_rescale : bool)
  : result SeqHREWordGlobalAttention :=
  if negb (mem attn_type ["dot"; "general"; "mlp"]%string)
  then Err (AssertionError (type_msg attn_type))
  else if negb (mem attn_func ["softmax"; "sparsemax"]%string)
  then Err (AssertionError func_msg)
  else
    let layers :=
      if String.eqb attn_type "general"
      then General (nn_Linear (draw "linear_in"%string) dim dim false)
      else if String.eqb attn_type "mlp"
      then Mlp (nn_Linear (draw "linear_context"%string) dim dim false)
               (nn_Linear (draw "linear_query"%string) dim dim true)
               (nn_Linear (draw "v"%string) dim 1 false)
      else Dot in
    let out_bias := String.eqb attn_type "mlp" in
    Ok {| dim := dim;
          seqHRE_attn_rescale := seqHRE_attn_rescale;
          attn_type_of := layers;
          attn_func_of :=
            if String.eqb attn_func "softmax" then Softmax else Sparsemax;
          linear_out :=
            if output_attn_h
            then Some (nn_Linear (draw "linear_out"%string) (dim * 2) dim
                                 out_bias)
            else None;
          linear_cover :=
            if coverage
            then Some (nn_Linear (draw "linear_cover"%string) 1 dim false)
            else None |}.

(* ================================================================= *)
(** ** score *)

(** The [mlp] branch: wq and uh are broadcast against each other, and
    [self.v] maps each tanh(wq + uh) to one output feature; the final [view]
    lays these outputs out along the source axis. *)
Definition mlp_scores (linear_context linear_query v : Linear)
  (h_t h_s : tensor3) : tensor3 :=
  let wq := map (map (linear linear_query)) h_t in
  let uh := map (map (linear linear_context)) h_s in
  zip_with
    (fun wqb uhb =>
       map (fun q => concat (map (fun u => linear v (map ftanh (vadd q u))) uhb))
           wqb)
    wq uh.

Definition score (self : SeqHREWordGlobalAttention) (h_t h_s : tensor3)
  : result tensor3 :=
  let '(src_batch, src_len, src_dim) := size3 h_s in
  let '(tgt_batch, tgt_len, tgt_dim) := size3 h_t in
  aeq [src_batch; tgt_batch] ;;;
  aeq [src_dim; tgt_dim] ;;;
  aeq [dim self; src_dim] ;;;
  match attn_type_of self with
  | Dot => Ok (bmm_nt h_t h_s)
  | General linear_in => Ok (bmm_nt (map (map (linear linear_in)) h_t) h_s)
  | Mlp linear_context linear_query v =>
      Ok (mlp_scores linear_context linear_query v h_t h_s)
  end.

(* ================================================================= *)
(** ** Normalization of a row of scores *)

(** The maximum along an axis; -inf is neutral for [fmax]. *)
Definition row_max (row : vec) : fval := fold_right fmax NInf row.

(** [F.softmax(x, -1)] on one row, as torch computes it: the row is shifted
    by its maximum, exponentiated, and divided by the sum. *)
Definition softmax (row : vec) : vec :=
  let max_val := row_max row in
  let e := map (fun x => fexp (fsub x max_val)) row in
  let s := fsum e in
  map (fun ei => fdiv ei s) e.

Fixpoint insert_desc (x : fval) (l : vec) : vec :=
  match l with
  | [] => [x]
  | y :: l' => if sort_geb x y then x :: l else y :: insert_desc x l'
  end.

(** [torch.sort(input, descending=True)], values only. *)
Definition sort_desc (l : vec) : vec := fold_right insert_desc [] l.

Fixpoint cumsum_from (acc : fval) (l : vec) : vec :=
  match l with
  | [] => []
  | x :: l' => fadd acc x :: cumsum_from (fadd acc x) l'
  end.

Definition cumsum (l : vec) : vec :=
  match l with
  | [] => []
  | x :: l' => x :: cumsum_from x l'
  end.

Definition count_true (l : list bool) : nat := length (filter (fun b => b) l).

(** Modelled from the spec: [sparsemax] of [onmt.modules.sparse_activations]
    is imported but its source is not part of the module; section 4.3
    describes it as the row-wise normalization which can produce exact zeros
    for low-scoring entries.  It is modelled as the sparsemax transformation
    that module is named after: the row is shifted by its maximum and sorted
    in decreasing order, the support is the set of ranks k with
    k * z(k) > z(1) + ... + z(k) - 1, the threshold tau is the shifted
    cumulative sum at the size of the support divided by that size, and every
    entry becomes max(z - tau, 0).  The threshold is read at index
    support_size - 1, which does not exist when the support is empty. *)
Definition threshold_and_support (input : vec) : result (fval * nat) :=
  let input_srt := sort_desc input in
  let input_cumsum := map (fun c => fsub c (Fin 1)) (cumsum input_srt) in
  let rhos := map (fun k => Fin (INR k)) (seq 1 (length input)) in
  let support := zip_with fgtb (zip_with fmul rhos input_srt) input_cumsum in
  let support_size := count_true support in
  match support_size with
  | O => Err (RuntimeError "gather(): index -1 is out of bounds")
  | S k =>
      let tau := nth k input_cumsum NaN in
      Ok (fdiv tau (Fin (INR support_size)), support_size)
  end.

Definition sparsemax (input : vec) : result vec :=
  match input with
  | [] => Err (RuntimeError "max(): reduction over an axis of size 0")
  | _ =>
      let max_val := row_max input in
      let input := map (fun x => fsub x max_val) input in
      '(tau, _) <- threshold_and_support input ;;
      Ok (map (fun x => clamp0 (fsub x tau)) input)
  end.

Definition normalize (f : attn_func) (row : vec) : result vec :=
  match f with
  | Softmax => Ok (softmax row)
  | Sparsemax => sparsemax row
  end.

(* ================================================================= *)
(** ** Broadcasting *)

Definition shape_error : error :=
  RuntimeError "The size of tensor a must match the size of tensor b".

(** An elementwise operation along one axis: sizes agree, or one is 1. *)
Definition bzipM {A B C} (f : A -> B -> result C) (la : list A) (lb : list B)
  : result (list C) :=
  if length la =? length lb then zipM f la lb
  else match la, lb with
       | [a], _ => mapM (f a) lb
       | _, [b] => mapM (fun a => f a b) la
       | _, _ => Err shape_error
       end.

(** [a.eq(b).all()] on two vectors of lengths. *)
Definition eq_all (a b : list Z) : result bool :=
  l <- bzipM (fun x y => Ok (Z.eqb x y)) a b ;;
  Ok (forallb (fun b => b) l).

(* ================================================================= *)
(** ** Masking: lines 201-204 *)

Definition fill_row (row : vec) (mask_row : list bool) : vec :=
  zip_with (fun x (keep : bool) => if keep then x else NInf) row mask_row.

(** [word_align.masked_fill_(~mask, -inf)] with [mask] of shape (L, 1, s):
    the mask is broadcast over the target axis, and over the batch axis when
    L is 1. *)
Definition masked_fill_ (word_align : tensor3) (mask : list (list bool))
  : result tensor3 :=
  if length mask =? length word_align then
    Ok (zip_with (fun m mask_row => map (fun r => fill_row r mask_row) m)
                 word_align mask)
  else match mask with
       | [mask_row] =>
           Ok (map (fun m => map (fun r => fill_row r mask_row) m) word_align)
       | _ => Err shape_error
       end.

Definition size_last (t : tensor3) : nat := snd (size3 t).

(** Lines 201-211: mask by the lengths, then normalize each row. *)
Definition masked_normalize (f : attn_func) (memory_lengths : list Z)
  (word_align : tensor3) : result tensor3 :=
  let mask := sequence_mask memory_lengths (size_last word_align) in
  word_align <- masked_fill_ word_align mask ;;
  mapM (mapM (normalize f)) word_align.

(* ================================================================= *)
(** ** Hierarchical rescaling: lines 213-229 *)

Definition word_utr := (list (list Z) * list Z)%type.

(** [input.gather(-1, index)] on one row. *)
Definition gather_last (input : vec) (index : list Z) : result vec :=
  mapM (fun i =>
          if ((0 <=? i) && (i <? Z.of_nat (length input)))%Z
          then Ok (nth (Z.to_nat i) input NaN)
          else Err (RuntimeError "index out of range in gather"))
       index.

(** [utr_align_vectors.gather(dim=-1, index=word_utr_ids)] with the ids
    expanded over the target axis; the index may have fewer batch entries
    than the input but not more. *)
Definition expand_utr (utr_align_vectors : tensor3)
  (word_utr_ids : list (list Z)) : result tensor3 :=
  if length word_utr_ids <=? length utr_align_vectors then
    zipM (fun u ids => mapM (fun ut => gather_last ut ids) u)
         utr_align_vectors word_utr_ids
  else Err (RuntimeError "Size does not match at dimension 0 in gather").

(** Lines 227-229 on one row: reweight, then divide by the new sum. *)
Definition norm_term (row : vec) : fval := fsum row.

Definition renormalize (row : vec) : vec :=
  let n := norm_term row in
  map (fun x => fdiv x n) row.

Definition reweight (align expand : tensor3) : result tensor3 :=
  bzipM (bzipM (bzipM (fun a e => Ok (fmul a e)))) align expand.

Definition lengths_msg : string :=
  "The src lengths in src_word_utr_ids should be the same as the memory_lengths".

Definition hre_rescale (memory_lengths : list Z)
  (utr_align_vectors : tensor3) (src_word_utr_ids : option word_utr)
  (align_vectors : tensor3) : result tensor3 :=
  match src_word_utr_ids with
  | None => Err (TypeError "cannot unpack non-iterable NoneType object")
  | Some (word_utr_ids, memory_lengths_) =>
      same <- eq_all memory_lengths memory_lengths_ ;;
      if (same : bool) then
        expand_utr_align_vectors <- expand_utr utr_align_vectors word_utr_ids ;;
        align_vectors <- reweight align_vectors expand_utr_align_vectors ;;
        Ok (map (map renormalize) align_vectors)
      else Err (AssertionError lengths_msg)
  end.

(* ================================================================= *)
(** ** Lines 227-229 in single precision

    The tensors of the module are [torch.float32].  The exact arithmetic of
    [fval] does not show what rounding does to the reweighting, so the row
    computation of lines 227-229 is given a second time, on IEEE 754
    binary32 numbers with the operations of [SpecFloat] (24 bits of
    precision, round to nearest, ties to even). *)

Module Binary32.










End Binary32.

(* ================================================================= *)
(** ** forward *)

Definition utr_positions := (list (list (list Z)) * list Z)%type.

Definition outputs := (tensor23 * option tensor23 * tensor23)%type.

(** Lines 175-190: the size checks and the two assertions.  The utterance
    alignment was dereferenced on line 172 already, so the first assertion
    cannot fail here. *)
Definition check_inputs (self : SeqHREWordGlobalAttention)
  (source memory_bank : tensor3) (memory_lengths : option (list Z))
  (coverage : option mat) (utr_align_vectors : tensor3)
  : result (list Z) :=
  let self_dim := dim self in
  let '(batch, source_l, dim) := size3 memory_bank in
  let '(batch_, target_l, dim_) := size3 source in
  let '(batch__, target_l_, s_sum) := size3 utr_align_vectors in
  aeq [batch; batch_; batch__] ;;;
  aeq [dim; dim_] ;;;
  aeq [self_dim; dim] ;;;
  aeq [target_l; target_l_] ;;;
  match memory_lengths with
  | None =>
      Err (AssertionError "The lengths for the word memory bank are required.")
  | Some lengths =>
      match coverage with
      | None => Ok lengths
      | Some cov =>
          let '(batch_, source_l_) := size2 cov in
          aeq [batch; batch_] ;;;
          aeq [source_l; source_l_] ;;;
          Ok lengths
      end
  end.

(** The number of output features of a layer. *)
Definition out_features (L : Linear) : nat :=
  match bias L with
  | None => length (weight L)
  | Some b => Nat.min (length (weight L)) (length b)
  end.

(** Lines 193-194: the coverage projected into the feature space and laid
    out like [memory_bank]. *)
Definition project_coverage (layer : Linear) (cov : mat) : tensor3 :=
  map (map (linear layer)) (map (map (fun x => [x])) cov).

Definition tensor_add (a b : tensor3) : tensor3 :=
  zip_with (zip_with vadd) a b.

Definition tensor_tanh (a : tensor3) : tensor3 := map (map (map ftanh)) a.

(** Lines 192-195.  The first component is the caller's buffer after the
    in-place [+=]; the second is the tensor the local name [memory_bank] is
    bound to afterwards. *)
Definition inject_coverage (self : SeqHREWordGlobalAttention)
  (memory_bank : tensor3) (coverage : option mat)
  : result (tensor3 * tensor3) :=
  match coverage with
  | None => Ok (memory_bank, memory_bank)
  | Some cov =>
      match linear_cover self with
      | None =>
          Err (AttributeError
                 "'SeqHREWordGlobalAttention' object has no attribute 'linear_cover'")
      | Some layer =>
          let updated := tensor_add memory_bank (project_coverage layer cov) in
          Ok (updated, tensor_tanh updated)
      end
  end.

(** Lines 236-243. *)
Definition attn_output (self : SeqHREWordGlobalAttention)
  (c source : tensor3) : option tensor3 :=
  match linear_out self with
  | None => None
  | Some layer =>
      let concat_c := zip_with (zip_with (@app fval)) c source in
      let attn_h := map (map (linear layer)) concat_c in
      Some (if is_luong (attn_type_of self)
            then map (map (map ftanh)) attn_h
            else attn_h)
  end.

(** Lines 245-258. *)
Definition finish_one_step (batch source_l dim : nat)
  (c : tensor3) (attn_h : option tensor3) (align_vectors : tensor3)
  : result outputs :=
  let c := squeeze1 c in
  let '(batch_, dim_) := size2 c in
  let attn_h := option_map (@squeeze1 fval) attn_h in
  let '(batch_, dim_) :=
    match attn_h with Some h => size2 h | None => (batch_, dim_) end in
  let align_vectors := squeeze1 align_vectors in
  aeq [batch; batch_] ;;;
  aeq [dim; dim_] ;;;
  let '(batch_, source_l_) := size2 align_vectors in
  aeq [batch; batch_] ;;;
  aeq [source_l; source_l_] ;;;
  Ok (T2 c, option_map T2 attn_h, T2 align_vectors).

(** Lines 260-274. *)
Definition finish_multi_step (batch source_l dim target_l : nat)
  (c : tensor3) (attn_h : option tensor3) (align_vectors : tensor3)
  : result outputs :=
  let c := transpose01 target_l c in
  let '(target_l_, batch_, dim_) := size3 c in
  let attn_h := option_map (transpose01 target_l) attn_h in
  let '(target_l_, batch_, dim_) :=
    match attn_h with Some h => size3 h | None => (target_l_, batch_, dim_) end in
  let align_vectors := transpose01 target_l align_vectors in
  aeq [target_l; target_l_] ;;;
  aeq [batch; batch_] ;;;
  aeq [dim; dim_] ;;;
  let '(target_l_, batch_, source_l_) := size3 align_vectors in
  aeq [target_l; target_l_] ;;;
  aeq [batch; batch_] ;;;
  aeq [source_l; source_l_] ;;;
  Ok (T3 c, option_map T3 attn_h, T3 align_vectors).

(** Lines 199-229: the attention distribution, batch-major. *)
Definition attention (self : SeqHREWordGlobalAttention)
  (source memory_bank : tensor3) (memory_lengths : list Z)
  (utr_align_vectors : tensor3) (src_word_utr_ids : option word_utr)
  : result tensor3 :=
  word_align <- score self source memory_bank ;;
  align_vectors <- masked_normalize (attn_func_of self) memory_lengths word_align ;;
  if seqHRE_attn_rescale self
  then hre_rescale memory_lengths utr_align_vectors src_word_utr_ids align_vectors
  else Ok align_vectors.

(** Lines 199-274, on the sizes read on lines 175-177. *)
Definition attend (self : SeqHREWordGlobalAttention) (one_step : bool)
  (sizes : nat * nat * nat * nat)
  (source memory_bank : tensor3) (memory_lengths : list Z)
  (utr_align_vectors : tensor3) (src_word_utr_ids : option word_utr)
  : result outputs :=
  let '(batch, source_l, dim, target_l) := sizes in
  align_vectors <- attention self source memory_bank memory_lengths
                             utr_align_vectors src_word_utr_ids ;;
  let c := bmm dim align_vectors memory_bank in
  let attn_h := attn_output self c source in
  if one_step
  then finish_one_step batch source_l dim c attn_h align_vectors
  else finish_multi_step batch source_l dim target_l c attn_h align_vectors.

(** Lines 166-173: a rank 2 query, or alignment, gets a target axis of
    size 1. *)
Definition promote (t : tensor23) : tensor3 :=
  match t with
  | T2 m => unsqueeze1 m
  | T3 t3 => t3
  end.

Definition is_one_step (source : tensor23) : bool :=
  match source with
  | T2 _ => true
  | T3 _ => false
  end.

(** The sizes read on lines 175-176: batch, source_l, dim and target_l. *)
Definition sizes_of (source memory_bank : tensor3) : nat * nat * nat * nat :=
  (length memory_bank, length (hd [] memory_bank),
   length (hd [] (hd [] memory_bank)), length (hd [] source)).

(** [forward] returns the final content of the caller's [memory_bank]
    buffer together with what the call returns or raises. *)
Definition forward (self : SeqHREWordGlobalAttention)
  (source : tensor23) (memory_bank : tensor3)
  (memory_lengths : option (list Z)) (coverage : option mat)
  (utr_align_vectors : option tensor23)
  (utr_position_tuple : option utr_positions)
  (src_word_utr_ids : option word_utr)
  : tensor3 * result outputs :=
  let one_step := is_one_step source in
  let source := promote source in
  match utr_align_vectors with
  | None =>
      (memory_bank,
       Err (AttributeError "'NoneType' object has no attribute 'dim'"))
  | Some u =>
      let utr_align_vectors := promote u in
      let '(batch, source_l, dim) := size3 memory_bank in
      let '(_, target_l, _) := size3 source in
      match check_inputs self source memory_bank memory_lengths coverage
                         utr_align_vectors with
      | Err e => (memory_bank, Err e)
      | Ok lengths =>
          match inject_coverage self memory_bank coverage with
          | Err e => (memory_bank, Err e)
          | Ok (buffer, memory_bank) =>
              (buffer,
               attend self one_step (batch, source_l, dim, target_l)
                      source memory_bank lengths utr_align_vectors
                      src_word_utr_ids)
          end
      end
  end.

Definition map_result {A B} (f : A -> B) (r : result A) : result B :=
  match r with
  | Ok a => Ok (f a)
  | Err e => Err e
  end.

(** A rank 2 output seen as a rank 3 output with one target step: the same
    entries in the same order under a leading axis of size 1. *)
Definition add_step_axis (t : tensor23) : tensor23 :=
  match t with
  | T2 m => T3 [m]
  | T3 t3 => T3 t3
  end.

Definition add_step_axes (o : outputs) : outputs :=
  let '(c, attn_h, align_vectors) := o in
  (add_step_axis c, option_map add_step_axis attn_h,
   add_step_axis align_vectors).

(** The attention distribution as the mode returns it: squeezed in
    single-step mode, step-major in multi-step mode. *)
Definition returned_align (one_step : bool) (target_l : nat)
  (align_vectors : tensor3) : tensor23 :=
  if one_step
  then T2 (squeeze1 align_vectors)
  else T3 (transpose01 target_l align_vectors).

(* ================================================================= *)
(** ** Vocabulary of the statements *)


(** The scores of a row at the positions before [len] are finite. *)
Definition finite_prefix (len : Z) (row : vec) : Prop :=
  forall i x, (i < Z.to_nat len)%nat ->
              nth_error row i = Some x -> is_finite x = true.

(** The row of a batch-major tensor at batch index [b] and target step [t]. *)
Definition row_at {A} (x : list (list A)) (b t : nat) : option A :=
  match nth_error x b with
  | Some m => nth_error m t
  | None => None
  end.


(** The entry [x[b][j][k]] of a tensor of rank 3. *)
Definition entry3 (x : tensor3) (b j k : nat) : option fval :=
  match row_at x b j with
  | Some r => nth_error r k
  | None => None
  end.

(** A tensor of shape (b, t, s). *)
Definition shape3 (b t s : nat) (x : tensor3) : Prop :=
  length x = b
  /\ Forall (fun m => length m = t /\ Forall (fun r => length r = s) m) x.

(** A tensor of shape (b, s). *)
Definition shape2 {A} (b s : nat) (x : list (list A)) : Prop :=
  length x = b /\ Forall (fun r => length r = s) x.

(** A returned tensor of the given sizes. *)
Definition has_shape (sizes : list nat) (x : tensor23) : Prop :=
  match x, sizes with
  | T2 m, [b; s] => shape2 b s m
  | T3 t, [a; b; s] => shape3 a b s t
  | _, _ => False
  end.

(** An entry which is NaN or a number of [-c, c]. *)
Definition bounded_by (c : R) (x : fval) : Prop :=
  x = NaN \/ exists y, x = Fin y /\ (- c <= y <= c)%R.

(** The entries of a returned tensor. *)
Definition entries (x : tensor23) : list fval :=
  match x with
  | T2 m => concat m
  | T3 t => concat (concat t)
  end.

(** Lines 201-211 with softmax on scores whose rows have [s] entries. *)
Definition masked_softmax (s : nat) (lens : list Z) (w : tensor3) : tensor3 :=
  map (map softmax)
      (zip_with
         (fun m len =>
            map (fun r =>
                   fill_row r (map (fun i => (Z.of_nat i <? len)%Z) (seq 0 s)))
                m)
         w lens).

(** Target step [t] of a batch-major tensor: [x[:, t]]. *)
Definition step {A} (t : nat) (x : list (list (list A))) : list (list A) :=
  map (fun m => nth t m []) x.

(** Target step [t] kept as a target axis of size 1: [x[:, t:t+1]]. *)
Definition select_step {A} (t : nat) (x : list (list (list A)))
  : list (list (list A)) :=
  map (fun m => [nth t m []]) x.

(** Step [t] of a returned step-major tensor: [x[t]]. *)
Definition at_step (t : nat) (x : tensor23) : tensor23 :=
  match x with
  | T2 m => T2 m
  | T3 x3 => T2 (nth t x3 [])
  end.

Definition outputs_at (t : nat) (o : outputs) : outputs :=
  let '(c, attn_h, align_vectors) := o in
  (at_step t c, option_map (at_step t) attn_h, at_step t align_vectors).

(** Batch element [bi] of a tensor, kept as a batch of size 1:
    [x[bi:bi+1]]. *)
Definition select_batch {A} (bi : nat) (x : list (list A)) : list (list A) :=
  [nth bi x []].

Definition input_of_batch (bi : nat) (x : tensor23) : tensor23 :=
  match x with
  | T2 m => T2 (select_batch bi m)
  | T3 t => T3 (select_batch bi t)
  end.

Definition ids_of_batch (bi : nat) (ids : word_utr) : word_utr :=
  (select_batch bi (fst ids), [nth bi (snd ids) 0%Z]).

(** Batch element [bi] of a returned tensor, whose batch axis is the first
    one in single-step mode and the second one in multi-step mode. *)
Definition batch_of (bi : nat) (x : tensor23) : tensor23 :=
  match x with
  | T2 m => T2 (select_batch bi m)
  | T3 t => T3 (map (select_batch bi) t)
  end.

Definition outputs_of_batch (bi : nat) (o : outputs) : outputs :=
  let '(c, attn_h, align_vectors) := o in
  (batch_of bi c, option_map (batch_of bi) attn_h, batch_of bi align_vectors).

(** Scores computed position by position: entry (b, i, j) is [g] of query i
    and source vector j of batch element b. *)
Definition scores_by (g : vec -> vec -> fval) (qs h_s : tensor3) : tensor3 :=
  zip_with (fun ab mb => map (fun q => map (g q) mb) ab) qs h_s.

(** Two source banks hold the same vector at every position before the
    length of its batch element. *)
Definition agree_on_valid (lens : list Z) (bank1 bank2 : tensor3) : Prop :=
  forall bi len j,
    nth_error lens bi = Some len -> (j < Z.to_nat len)%nat ->
    row_at bank1 bi j = row_at bank2 bi j.

(** The sizes of a returned tensor whose last size is [x]: (batch, x) in
    single-step mode and (tgt_len, batch, x) in multi-step mode. *)
Definition returned_sizes (one_step : bool) (t b x : nat) : list nat :=
  if one_step then [b; x] else [t; b; x].

(** The layers of a module have the numbers of output features [__init__]
    gives them. *)
Definition layers_fit (self : SeqHREWordGlobalAttention) : Prop :=
  match attn_type_of self with
  | Dot => True
  | General linear_in => out_features linear_in = dim self
  | Mlp _ linear_query v => out_features v = 1%nat
  end
  /\ match linear_out self with
     | None => True
     | Some layer => out_features layer = dim self
     end
  /\ match linear_cover self with
     | None => True
     | Some layer => out_features layer = dim self
     end.

(** A unit assignment of shape (b, s) whose ids name one of [n] units. *)
Definition ids_in_range (b s n : nat) (ids : list (list Z)) : Prop :=
  length ids = b
  /\ Forall (fun r => length r = s
                      /\ Forall (fun i => (0 <= i < Z.of_nat n)%Z) r) ids.

(** What lines 222-223 compute when every id is in range: entry (b, t, j) is
    the alignment of step t to the unit of word j. *)
Definition expanded (utr_align_vectors : tensor3) (word_utr_ids : list (list Z))
  : tensor3 :=
  zip_with
    (fun u ids => map (fun ut => map (fun i => nth (Z.to_nat i) ut NaN) ids) u)
    utr_align_vectors word_utr_ids.

(** What lines 227-229 compute on tensors of one shape. *)
Definition rescaled (align_vectors expand : tensor3) : tensor3 :=
  map (map renormalize)
      (zip_with (zip_with (zip_with fmul)) align_vectors expand).

(* ================================================================= *)
(** ** Real-valued counterparts

    What the row operations compute on finite entries, stated on real
    numbers; the properties of the normalizations are proved on these and
    carried over to [softmax] and [sparsemax]. *)

Open Scope R_scope.

Definition Rsum (l : list R) : R := fold_right Rplus 0 l.








Definition Rsoftmax (m : R) (l : list R) : list R :=
  let e := map (fun x => exp (x + - m)) l in
  map (fun ei => ei / Rsum e) e.

Close Scope R_scope.


Open Scope R_scope.

(** A row whose first entries are finite and whose last [k] entries are
    masked. *)
Definition masked (xs : list R) (k : nat) : vec :=
  map Fin xs ++ repeat NInf k.

(** A row of finite weights followed by [k] zero weights. *)
Definition padded (ps : list R) (k : nat) : vec :=
  map Fin ps ++ repeat (Fin 0) k.

Close Scope R_scope.

(** The sum of the absolute values of a weight vector. *)
Definition l1_norm (ws : list R) : R := Rsum (map Rabs ws).

(** The entry (i, j) of the identity matrix, as a real number. *)
Definition delta (i j : nat) : R := if Nat.eqb i j then 1%R else 0%R.

(* ================================================================= *)
(** ** Sample inputs *)

(** The example of the specification: a query of dimension 4 against a
    source of dimension 5. *)
Definition query4 : mat := [[Fin 0; Fin 0; Fin 0; Fin 0]].
Definition bank5 : tensor3 := [[[Fin 0; Fin 0; Fin 0; Fin 0; Fin 0]]].

Definition cover_layer1 : Linear := {| weight := [[Fin 1]]; bias := None |}.

Definition with_coverage1 : SeqHREWordGlobalAttention :=
  {| dim := 1;
     seqHRE_attn_rescale := false;
     attn_type_of := Dot;
     attn_func_of := Softmax;
     linear_out := None;
     linear_cover := Some cover_layer1 |}.

(** [SeqHREWordGlobalAttention(1, output_attn_h=True)] with every weight
    of the output layer set to 1. *)
Definition with_output1 : SeqHREWordGlobalAttention :=
  {| dim := 1;
     seqHRE_attn_rescale := false;
     attn_type_of := Dot;
     attn_func_of := Softmax;
     linear_out := Some {| weight := [[Fin 1; Fin 1]]; bias := None |};
     linear_cover := None |}.

(** [SeqHREWordGlobalAttention(2, attn_type="mlp")] with every weight set
    to 1 and the bias of [linear_query] to 0. *)
Definition mlp2 : SeqHREWordGlobalAttention :=
  {| dim := 2;
     seqHRE_attn_rescale := false;
     attn_type_of :=
       Mlp {| weight := [[Fin 1; Fin 1]; [Fin 1; Fin 1]]; bias := None |}
           {| weight := [[Fin 1; Fin 1]; [Fin 1; Fin 1]];
              bias := Some [Fin 0; Fin 0] |}
           {| weight := [[Fin 1; Fin 1]]; bias := None |};
     attn_func_of := Softmax;
     linear_out := None;
     linear_cover := None |}.

(** Initial values for [__init__]: every weight 1, every bias 0. *)
Definition ones : string -> drawn :=
  fun _ => {| drawn_weight := fun _ _ => Fin 1; drawn_bias := fun _ => Fin 0 |}.

(* ================================================================= *)
(** * Properties *)

Ltac unalias := unfold tensor3, mat, vec in *.

(** ** The result monad and [aeq] *)

Arguments aeq : simpl never.

Lemma bind_ok {A B} (r : result A) (k : A -> result B) (b : B) :
  bind r k = Ok b -> exists a, r = Ok a /\ k a = Ok b.
Proof.
  destruct r as [a|e]; simpl; intros H.
  - exists a. split; [reflexivity | exact H].
  - discriminate.
Qed.

Lemma bind_err {A B} (r : result A) (k : A -> result B) (e : error) :
  r = Err e -> bind r k = Err e.
Proof. intros ->. reflexivity. Qed.

Lemma aeq_pair (a b : nat) :
  aeq [a; b] = if Nat.eqb a b then Ok tt else Err (AeqError [a; b]).
Proof. unfold aeq. cbn. destruct (Nat.eqb a b); reflexivity. Qed.

Lemma aeq_pair_ok (a b : nat) : aeq [a; b] = Ok tt <-> a = b.
Proof.
  rewrite aeq_pair. destruct (Nat.eqb_spec a b); split; intros H;
    congruence.
Qed.

Lemma aeq_refl2 (a : nat) : aeq [a; a] = Ok tt.
Proof. apply aeq_pair_ok. reflexivity. Qed.

Lemma aeq_triple_ok (a b c : nat) :
  aeq [a; b; c] = Ok tt <-> a = b /\ a = c.
Proof.
  unfold aeq. cbn.
  destruct (Nat.eqb_spec a b), (Nat.eqb_spec a c); cbn; split;
    intros H; try discriminate; try tauto; destruct H; contradiction.
Qed.

Lemma aeq_cases (args : list nat) :
  aeq args = Ok tt \/ aeq args = Err (AeqError args).
Proof.
  destruct args as [|a l]; unfold aeq; [now left|].
  destruct (forallb (Nat.eqb a) l); [now left | now right].
Qed.

(** A failed [aeq] reports exactly the values it was given. *)
Lemma aeq_err (args : list nat) (e : error) :
  aeq args = Err e -> e = AeqError args.
Proof.
  destruct (aeq_cases args) as [H|H]; rewrite H; congruence.
Qed.

(** ** The structure of [forward] *)

Lemma forward_unfold :
  forall self source memory_bank memory_lengths coverage u
         utr_position_tuple src_word_utr_ids,
    forward self source memory_bank memory_lengths coverage (Some u)
            utr_position_tuple src_word_utr_ids
    = match check_inputs self (promote source) memory_bank memory_lengths
                         coverage (promote u) with
      | Err e => (memory_bank, Err e)
      | Ok lengths =>
          match inject_coverage self memory_bank coverage with
          | Err e => (memory_bank, Err e)
          | Ok (buffer, bank) =>
              (buffer,
               attend self (is_one_step source)
                      (sizes_of (promote source) memory_bank)
                      (promote source) bank lengths (promote u)
                      src_word_utr_ids)
          end
      end.
Proof. reflexivity. Qed.

Lemma check_inputs_ok :
  forall self source memory_bank memory_lengths coverage utr lengths,
    check_inputs self source memory_bank memory_lengths coverage utr
    = Ok lengths ->
    memory_lengths = Some lengths
    /\ length memory_bank = length source
    /\ length memory_bank = length utr
    /\ length (hd [] (hd [] memory_bank)) = length (hd [] (hd [] source))
    /\ dim self = length (hd [] (hd [] memory_bank))
    /\ length (hd [] source) = length (hd [] utr)
    /\ (forall cov, coverage = Some cov ->
                    length memory_bank = length cov
                    /\ length (hd [] memory_bank) = length (hd [] cov)).
Proof.
  intros self source memory_bank memory_lengths coverage utr lengths H.
  unfold check_inputs, size3 in H.
  apply bind_ok in H. destruct H as ([] & H1 & H).
  apply bind_ok in H. destruct H as ([] & H2 & H).
  apply bind_ok in H. destruct H as ([] & H3 & H).
  apply bind_ok in H. destruct H as ([] & H4 & H).
  apply aeq_triple_ok in H1. destruct H1 as [H1 H1'].
  apply aeq_pair_ok in H2. apply aeq_pair_ok in H3. apply aeq_pair_ok in H4.
  destruct memory_lengths as [lens|]; [|discriminate].
  destruct coverage as [cov|].
  - unfold size2 in H.
    apply bind_ok in H. destruct H as ([] & H5 & H).
    apply bind_ok in H. destruct H as ([] & H6 & H).
    apply aeq_pair_ok in H5. apply aeq_pair_ok in H6.
    injection H as <-. repeat (split; [first [reflexivity|assumption]|]).
    intros cov' Hc. injection Hc as <-. split; assumption.
  - injection H as <-. repeat (split; [first [reflexivity|assumption]|]).
    discriminate.
Qed.

Lemma check_inputs_set_rescale :
  forall b self source memory_bank memory_lengths coverage utr,
    check_inputs (set_rescale b self) source memory_bank memory_lengths
                 coverage utr
    = check_inputs self source memory_bank memory_lengths coverage utr.
Proof. reflexivity. Qed.

Lemma attention_set_rescale_false :
  forall self source memory_bank lengths utr ids,
    attention (set_rescale false self) source memory_bank lengths utr ids
    = (word_align <- score self source memory_bank ;;
       masked_normalize (attn_func_of self) lengths word_align).
Proof.
  intros. unfold attention. simpl.
  change (score (set_rescale false self)) with (score self).
  destruct (score self source memory_bank) as [w|e]; [|reflexivity].
  simpl. destruct (masked_normalize _ _ _); reflexivity.
Qed.

(** What a call that returns has computed: the attention distribution of
    lines 199-229 on the source bank left by the coverage injection, the
    context vectors [bmm] derives from it, and the reshaping of the mode. *)
Lemma forward_returns :
  forall self source memory_bank memory_lengths coverage u
         utr_position_tuple src_word_utr_ids buffer out,
    forward self source memory_bank memory_lengths coverage (Some u)
            utr_position_tuple src_word_utr_ids
    = (buffer, Ok out) ->
    exists lengths bank align_vectors,
      memory_lengths = Some lengths
      /\ inject_coverage self memory_bank coverage = Ok (buffer, bank)
      /\ attention self (promote source) bank lengths (promote u)
                   src_word_utr_ids = Ok align_vectors
      /\ let '(batch, source_l, d, target_l) :=
           sizes_of (promote source) memory_bank in
         let c := bmm d align_vectors bank in
         let attn_h := attn_output self c (promote source) in
         (if is_one_step source
          then finish_one_step batch source_l d c attn_h align_vectors
          else finish_multi_step batch source_l d target_l c attn_h
                                 align_vectors)
         = Ok out.
Proof.
  intros self source memory_bank memory_lengths coverage u pos ids
         buffer out H.
  rewrite forward_unfold in H.
  destruct (check_inputs self (promote source) memory_bank memory_lengths
                         coverage (promote u)) as [lengths|e] eqn:Hc;
    [|discriminate].
  destruct (inject_coverage self memory_bank coverage)
    as [[buffer' bank]|e] eqn:Hi; [|discriminate].
  injection H as <- H.
  unfold attend, sizes_of in *.
  apply bind_ok in H. destruct H as (align_vectors & Ha & H).
  exists lengths, bank, align_vectors.
  split; [exact (proj1 (check_inputs_ok _ _ _ _ _ _ _ Hc))|].
  split; [reflexivity|]. split; [exact Ha | exact H].
Qed.

(** The stages of [attention]. *)
Lemma attention_stages :
  forall self source bank lengths utr ids align_vectors,
    attention self source bank lengths utr ids = Ok align_vectors ->
    exists word_align normalized,
      score self source bank = Ok word_align
      /\ masked_normalize (attn_func_of self) lengths word_align
         = Ok normalized
      /\ (if seqHRE_attn_rescale self
          then hre_rescale lengths utr ids normalized = Ok align_vectors
          else align_vectors = normalized).
Proof.
  intros self source bank lengths utr ids align_vectors H.
  unfold attention in H.
  apply bind_ok in H. destruct H as (word_align & Hs & H).
  apply bind_ok in H. destruct H as (normalized & Hn & H).
  exists word_align, normalized.
  split; [exact Hs|]. split; [exact Hn|].
  destruct (seqHRE_attn_rescale self); [exact H | congruence].
Qed.

Lemma finish_one_step_align :
  forall batch source_l d c attn_h align_vectors c' h' a',
    finish_one_step batch source_l d c attn_h align_vectors
    = Ok (c', h', a') ->
    a' = T2 (squeeze1 align_vectors).
Proof.
  intros batch source_l d c attn_h align_vectors c' h' a' H.
  unfold finish_one_step in H.
  destruct (size2 (squeeze1 c)) as [b1 d1].
  destruct (match option_map (@squeeze1 fval) attn_h with
            | Some h => size2 h
            | None => (b1, d1)
            end) as [b2 d2].
  apply bind_ok in H. destruct H as (? & _ & H).
  apply bind_ok in H. destruct H as (? & _ & H).
  destruct (size2 (squeeze1 align_vectors)) as [b3 s3].
  apply bind_ok in H. destruct H as (? & _ & H).
  apply bind_ok in H. destruct H as (? & _ & H).
  congruence.
Qed.

Lemma finish_multi_step_align :
  forall batch source_l d target_l c attn_h align_vectors c' h' a',
    finish_multi_step batch source_l d target_l c attn_h align_vectors
    = Ok (c', h', a') ->
    a' = T3 (transpose01 target_l align_vectors).
Proof.
  intros batch source_l d target_l c attn_h align_vectors c' h' a' H.
  unfold finish_multi_step in H.
  destruct (size3 (transpose01 target_l c)) as [[t1 b1] d1].
  destruct (match option_map (transpose01 target_l) attn_h with
            | Some h => size3 h
            | None => (t1, b1, d1)
            end) as [[t2 b2] d2].
  apply bind_ok in H. destruct H as (? & _ & H).
  apply bind_ok in H. destruct H as (? & _ & H).
  apply bind_ok in H. destruct H as (? & _ & H).
  destruct (size3 (transpose01 target_l align_vectors)) as [[t3 b3] s3].
  apply bind_ok in H. destruct H as (? & _ & H).
  apply bind_ok in H. destruct H as (? & _ & H).
  apply bind_ok in H. destruct H as (? & _ & H).
  congruence.
Qed.

(** With rescaling disabled, the attention distribution a call returns is
    the masked normalization of the raw scores, reshaped for the mode. *)
Lemma forward_returns_normalized :
  forall self source memory_bank lengths coverage u utr_position_tuple
         src_word_utr_ids buffer c attn_h a,
    seqHRE_attn_rescale self = false ->
    forward self source memory_bank (Some lengths) coverage (Some u)
            utr_position_tuple src_word_utr_ids
    = (buffer, Ok (c, attn_h, a)) ->
    exists bank word_align normalized,
      inject_coverage self memory_bank coverage = Ok (buffer, bank)
      /\ score self (promote source) bank = Ok word_align
      /\ masked_normalize (attn_func_of self) lengths word_align
         = Ok normalized
      /\ a = returned_align (is_one_step source)
                            (length (hd [] (promote source))) normalized.
Proof.
  intros self source memory_bank lengths coverage u pos ids buffer c attn_h
         a Hres H.
  destruct (forward_returns _ _ _ _ _ _ _ _ _ _ H)
    as (lengths' & bank & align & Hl & Hi & Ha & Hf).
  injection Hl as <-.
  destruct (attention_stages _ _ _ _ _ _ _ Ha)
    as (word_align & normalized & Hs & Hn & Hr).
  rewrite Hres in Hr. subst align.
  exists bank, word_align, normalized.
  split; [exact Hi|]. split; [exact Hs|]. split; [exact Hn|].
  unfold sizes_of in Hf. unfold returned_align.
  destruct (is_one_step source).
  - exact (finish_one_step_align _ _ _ _ _ _ _ _ _ Hf).
  - exact (finish_multi_step_align _ _ _ _ _ _ _ _ _ _ Hf).
Qed.

(** ** Missing arguments *)

(** C7: every call to [forward] needs the utterance alignment and the source
    lengths, whatever the configuration (rescaling enabled or not): with
    [utr_align_vectors = None] the call raises on line 172 and never returns
    normally, and with [memory_lengths = None] it raises as well; in both
    cases the caller's buffer is untouched. *)
Theorem forward_requires_alignment_and_lengths :
  forall self source memory_bank memory_lengths coverage utr_align_vectors
         utr_position_tuple src_word_utr_ids,
    (exists msg,
        forward self source memory_bank memory_lengths coverage None
                utr_position_tuple src_word_utr_ids
        = (memory_bank, Err (AttributeError msg)))
    /\
    (exists e,
        forward self source memory_bank None coverage utr_align_vectors
                utr_position_tuple src_word_utr_ids
        = (memory_bank, Err e)).
Proof.
  intros self source memory_bank memory_lengths coverage utr pos ids. split.
  - unfold forward. eexists; reflexivity.
  - unfold forward.
    destruct utr as [u|]; [|eexists; reflexivity].
    unfold check_inputs, size3;
      repeat match goal with
             | |- context [aeq ?l] =>
                 let Ha := fresh "Ha" in
                 destruct (aeq_cases l) as [Ha|Ha]; rewrite Ha; clear Ha;
                 simpl; [|eexists; reflexivity]
             end;
      eexists; reflexivity.
Qed.

(** ** Shape mismatches *)

Lemma forward_check_error :
  forall self source memory_bank memory_lengths coverage u
         utr_position_tuple src_word_utr_ids e,
    check_inputs self (promote source) memory_bank memory_lengths coverage
                 (promote u) = Err e ->
    forward self source memory_bank memory_lengths coverage (Some u)
            utr_position_tuple src_word_utr_ids
    = (memory_bank, Err e).
Proof.
  intros self source memory_bank memory_lengths coverage u pos ids e H.
  unfold forward. rewrite H.
  destruct (size3 memory_bank) as [[batch source_l] d].
  destruct (size3 (promote source)) as [[batch_ target_l] d_].
  reflexivity.
Qed.

Example shape_mismatch_4_5 :
  forward (dot_softmax 4) (T2 query4) bank5 (Some [1%Z]) None
          (Some (T2 [[Fin 1]])) None None
  = (bank5, Err (AeqError [5; 4]%nat)).
Proof. reflexivity. Qed.

(** ** Lists walked in step *)

Lemma length_zip_with {A B C} (f : A -> B -> C) (la : list A) (lb : list B) :
  length (zip_with f la lb) = Nat.min (length la) (length lb).
Proof. unfold zip_with. rewrite length_map. apply length_combine. Qed.

Lemma zip_with_cons {A B C} (f : A -> B -> C) a la b lb :
  zip_with f (a :: la) (b :: lb) = f a b :: zip_with f la lb.
Proof. reflexivity. Qed.

Lemma zip_with_nil_l {A B C} (f : A -> B -> C) lb : zip_with f [] lb = [].
Proof. reflexivity. Qed.

Lemma zip_with_nil_r {A B C} (f : A -> B -> C) la : zip_with f la [] = [].
Proof. destruct la; reflexivity. Qed.

Lemma zipM_pure {A B C} (f : A -> B -> C) (la : list A) (lb : list B) :
  zipM (fun a b => Ok (f a b)) la lb = Ok (zip_with f la lb).
Proof.
  revert lb. induction la as [|a la IH]; intros [|b lb]; try reflexivity.
  simpl. rewrite IH. reflexivity.
Qed.

Lemma bzipM_same_length {A B C} (f : A -> B -> result C) la lb :
  length la = length lb -> bzipM f la lb = zipM f la lb.
Proof. intros H. unfold bzipM. rewrite H, Nat.eqb_refl. reflexivity. Qed.

(** ** The lengths carried by the unit assignment *)

Lemma forallb_zip_eqb (a b : list Z) :
  length a = length b ->
  forallb (fun x => x) (zip_with Z.eqb a b) = true -> a = b.
Proof.
  revert b. induction a as [|x a IH]; intros [|y b] Hlen H;
    try discriminate; [reflexivity|].
  rewrite zip_with_cons in H. simpl in H.
  apply andb_true_iff in H. destruct H as [Hxy H].
  apply Z.eqb_eq in Hxy. subst y. f_equal.
  apply IH; [simpl in Hlen; lia | exact H].
Qed.

Lemma eq_all_differ (a b : list Z) :
  length a = length b -> a <> b -> eq_all a b = Ok false.
Proof.
  intros Hlen Hne. unfold eq_all.
  rewrite bzipM_same_length by exact Hlen.
  rewrite zipM_pure. simpl.
  destruct (forallb (fun x => x) (zip_with Z.eqb a b)) eqn:E;
    [|reflexivity].
  exfalso. apply Hne. apply forallb_zip_eqb; assumption.
Qed.

Lemma hre_rescale_lengths_differ :
  forall memory_lengths utr_align_vectors word_utr_ids memory_lengths_
         align_vectors,
    length memory_lengths = length memory_lengths_ ->
    memory_lengths <> memory_lengths_ ->
    hre_rescale memory_lengths utr_align_vectors
                (Some (word_utr_ids, memory_lengths_)) align_vectors
    = Err (AssertionError lengths_msg).
Proof.
  intros lens utr ids lens' a Hlen Hne. unfold hre_rescale.
  rewrite (eq_all_differ _ _ Hlen Hne). reflexivity.
Qed.

(** C9: with hierarchical rescaling enabled, if the lengths carried in
    [src_word_utr_ids] differ from [memory_lengths] (same shape, some element
    different), the call raises and returns nothing; and whenever the same
    call with rescaling disabled would return, the error is the
    AssertionError of line 215. *)
Theorem rescale_lengths_mismatch_raises :
  forall self source memory_bank memory_lengths coverage utr_align_vectors
         utr_position_tuple word_utr_ids memory_lengths_,
    seqHRE_attn_rescale self = true ->
    length memory_lengths = length memory_lengths_ ->
    memory_lengths <> memory_lengths_ ->
    exists e,
      snd (forward self source memory_bank (Some memory_lengths) coverage
                   utr_align_vectors utr_position_tuple
                   (Some (word_utr_ids, memory_lengths_)))
      = Err e
      /\ (is_ok (snd (forward (set_rescale false self) source memory_bank
                              (Some memory_lengths) coverage
                              utr_align_vectors utr_position_tuple
                              (Some (word_utr_ids, memory_lengths_))))
          = true ->
          e = AssertionError lengths_msg).
Proof.
  intros self source memory_bank lens coverage utr pos ids lens'
         Hres Hlen Hne.
  destruct utr as [u|]; [|eexists; split; [reflexivity|discriminate]].
  rewrite !forward_unfold. rewrite check_inputs_set_rescale.
  destruct (check_inputs self (promote source) memory_bank (Some lens)
                         coverage (promote u)) as [lengths|e] eqn:Hc;
    [|eexists; split; [reflexivity|discriminate]].
  apply check_inputs_ok in Hc. destruct Hc as (Hl & _).
  injection Hl as <-.
  change (inject_coverage (set_rescale false self))
    with (inject_coverage self).
  destruct (inject_coverage self memory_bank coverage) as [[buffer bank]|e];
    [|eexists; split; [reflexivity|discriminate]].
  cbn [snd]. unfold attend, sizes_of.
  rewrite attention_set_rescale_false.
  unfold attention. rewrite Hres.
  destruct (score self (promote source) bank) as [word_align|e];
    [|eexists; split; [reflexivity|discriminate]].
  cbn [bind].
  destruct (masked_normalize (attn_func_of self) lens word_align)
    as [align|e]; [|eexists; split; [reflexivity|discriminate]].
  cbn [bind]. rewrite (hre_rescale_lengths_differ _ _ _ _ _ Hlen Hne).
  eexists; split; reflexivity.
Qed.

Lemma rescale_lengths_mismatch_raises_witness :
  exists e,
    snd (forward (set_rescale true (dot_softmax 1)) (T2 [[Fin 1]])
                 [[[Fin 1]]] (Some [1%Z]) None (Some (T2 [[Fin 1]])) None
                 (Some ([[0%Z]], [2%Z])))
    = Err e
    /\ (is_ok (snd (forward (set_rescale false
                               (set_rescale true (dot_softmax 1)))
                            (T2 [[Fin 1]]) [[[Fin 1]]] (Some [1%Z]) None
                            (Some (T2 [[Fin 1]])) None
                            (Some ([[0%Z]], [2%Z]))))
        = true ->
        e = AssertionError lengths_msg).
Proof.
  apply rescale_lengths_mismatch_raises;
    [reflexivity | reflexivity | discriminate].
Defined.

(** ** Coverage injection *)

Lemma length_linear (L : Linear) (x : vec) :
  length (linear L x) = out_features L.
Proof.
  unfold linear, out_features. destruct (bias L) as [b|].
  - unfold vadd. rewrite length_zip_with, length_map. reflexivity.
  - apply length_map.
Qed.

Lemma size3_tensor_tanh (t : tensor3) : size3 (tensor_tanh t) = size3 t.
Proof.
  unfold size3, tensor_tanh.
  destruct t as [|[|v m] t]; simpl; rewrite ?length_map; reflexivity.
Qed.

Lemma size3_injected (layer : Linear) (memory_bank : tensor3) (cov : mat) :
  length memory_bank = length cov ->
  length (hd [] memory_bank) = length (hd [] cov) ->
  length (hd [] (hd [] memory_bank)) = out_features layer ->
  size3 (tensor_add memory_bank (project_coverage layer cov))
  = size3 memory_bank.
Proof.
  intros Hb Hs Hd. unfold size3, tensor_add, project_coverage.
  destruct memory_bank as [|m bank], cov as [|cv cov];
    try discriminate; [reflexivity|].
  simpl in Hb, Hs, Hd. simpl map. rewrite zip_with_cons.
  simpl length at 1. simpl hd.
  rewrite length_zip_with, !length_map. unalias.
  rewrite Nat.min_l by lia.
  destruct m as [|v m], cv as [|x cv]; try discriminate; [reflexivity|].
  simpl in Hs, Hd. simpl map. rewrite zip_with_cons.
  simpl length at 2. simpl hd.
  rewrite length_zip_with, !length_map. unalias.
  rewrite Nat.min_l by lia.
  unfold vadd. rewrite length_zip_with, length_linear.
  rewrite <- Hd, Nat.min_id. reflexivity.
Qed.

Lemma check_inputs_resized :
  forall self source memory_bank bank' memory_lengths coverage utr lengths,
    check_inputs self source memory_bank memory_lengths coverage utr
    = Ok lengths ->
    size3 bank' = size3 memory_bank ->
    check_inputs self source bank' memory_lengths None utr = Ok lengths.
Proof.
  intros self source memory_bank bank' memory_lengths coverage utr lengths
         H Hsz.
  pose proof (check_inputs_ok _ _ _ _ _ _ _ H)
    as (Hl & H1 & H2 & H3 & H4 & H5 & _).
  unfold check_inputs. rewrite Hsz. unfold size3. subst memory_lengths.
  cbv beta iota zeta. unalias.
  rewrite (proj2 (aeq_triple_ok _ _ _) (conj H1 H2)).
  rewrite (proj2 (aeq_pair_ok _ _) H3), (proj2 (aeq_pair_ok _ _) H4),
    (proj2 (aeq_pair_ok _ _) H5).
  reflexivity.
Qed.

Lemma sizes_of_resized (source memory_bank bank' : tensor3) :
  size3 bank' = size3 memory_bank ->
  sizes_of source bank' = sizes_of source memory_bank.
Proof.
  unfold size3, sizes_of. unalias. intros H. injection H as H1 H2 H3.
  rewrite H1, H2, H3. reflexivity.
Qed.

(** ** Single-step and multi-step mode *)

Lemma transpose01_one {A} (t : list (list (list A))) :
  transpose01 1 t = [squeeze1 t].
Proof.
  unfold transpose01, squeeze1. simpl. f_equal.
  apply map_ext. intros [|x m]; reflexivity.
Qed.

Lemma finish_modes_agree :
  forall batch source_l d c attn_h align_vectors,
    finish_multi_step batch source_l d 1 c attn_h align_vectors
    = map_result add_step_axes
        (finish_one_step batch source_l d c attn_h align_vectors).
Proof.
  intros batch source_l d c attn_h align_vectors.
  unfold finish_multi_step, finish_one_step.
  rewrite !transpose01_one.
  destruct attn_h as [h|]; cbn [option_map]; rewrite ?transpose01_one;
    unfold size3, size2; cbn [hd length];
    rewrite aeq_refl2; cbn [bind];
    repeat match goal with
           | |- context [aeq ?l] =>
               let Ha := fresh "Ha" in
               destruct (aeq_cases l) as [Ha|Ha]; rewrite Ha; clear Ha;
               cbn [bind map_result]; [|reflexivity]
           end;
    reflexivity.
Qed.

(** C4: for a fixed module and fixed other arguments, a call with a rank 2
    query (single-step mode) and a call with the same query given as a rank 3
    tensor with one target step (multi-step mode, target_len = 1) leave the
    same buffer, raise the same error if they raise, and otherwise return the
    same context vectors, attentional states and attention distribution, the
    multi-step ones under a leading axis of size 1. *)
Theorem one_step_matches_multi_step :
  forall self (s : mat) memory_bank memory_lengths coverage
         utr_align_vectors utr_align_vectors' utr_position_tuple
         src_word_utr_ids,
    s <> [] ->
    option_map promote utr_align_vectors'
    = option_map promote utr_align_vectors ->
    forward self (T3 (unsqueeze1 s)) memory_bank memory_lengths coverage
            utr_align_vectors' utr_position_tuple src_word_utr_ids
    = (fst (forward self (T2 s) memory_bank memory_lengths coverage
                    utr_align_vectors utr_position_tuple src_word_utr_ids),
       map_result add_step_axes
         (snd (forward self (T2 s) memory_bank memory_lengths coverage
                       utr_align_vectors utr_position_tuple
                       src_word_utr_ids))).
Proof.
  intros self s memory_bank memory_lengths coverage utr utr' pos ids Hs Hu.
  destruct utr as [u|], utr' as [u'|]; try discriminate; [|reflexivity].
  injection Hu as Hu.
  rewrite !forward_unfold. cbn [promote is_one_step].
  fold (promote u). fold (promote u'). rewrite Hu.
  destruct (check_inputs self (unsqueeze1 s) memory_bank memory_lengths
                         coverage (promote u)) as [lengths|e];
    [|reflexivity].
  destruct (inject_coverage self memory_bank coverage) as [[buffer bank]|e];
    [|reflexivity].
  cbn [fst snd]. f_equal.
  unfold attend, sizes_of.
  destruct (attention self (unsqueeze1 s) bank lengths (promote u) ids)
    as [align_vectors|e]; [|reflexivity].
  cbn [bind].
  replace (length (hd [] (unsqueeze1 s))) with 1%nat
    by (destruct s; [contradiction | reflexivity]).
  apply finish_modes_agree.
Qed.

Lemma one_step_matches_multi_step_witness :
  forward (dot_softmax 1) (T3 (unsqueeze1 [[Fin 1]])) [[[Fin 1]]]
          (Some [1%Z]) None (Some (T3 [[[Fin 1]]])) None None
  = (fst (forward (dot_softmax 1) (T2 [[Fin 1]]) [[[Fin 1]]]
                  (Some [1%Z]) None (Some (T2 [[Fin 1]])) None None),
     map_result add_step_axes
       (snd (forward (dot_softmax 1) (T2 [[Fin 1]]) [[[Fin 1]]]
                     (Some [1%Z]) None (Some (T2 [[Fin 1]])) None None))).
Proof.
  apply one_step_matches_multi_step; [discriminate | reflexivity].
Defined.

(* ================================================================= *)
(** ** Sparsemax on real numbers *)

Section RealSparsemax.

Open Scope R_scope.

Lemma Rsum_app l1 l2 : Rsum (l1 ++ l2) = Rsum l1 + Rsum l2.
Proof. induction l1 as [|x l1 IH]; simpl; [lra | rewrite IH; lra]. Qed.











End RealSparsemax.

Section RealNormalizations.

Open Scope R_scope.








Lemma Rsum_exp_pos (m : R) (l : list R) :
  l <> [] -> 0 < Rsum (map (fun x => exp (x + - m)) l).
Proof.
  intros Hl. destruct l as [|x l]; [contradiction|]. clear Hl.
  revert x. induction l as [|y l IH]; intros x.
  - simpl. pose proof (exp_pos (x + - m)). lra.
  - cbn [map Rsum fold_right]. specialize (IH y).
    cbn [map Rsum fold_right] in IH.
    pose proof (exp_pos (x + - m)). lra.
Qed.

Lemma Rsum_scale (s : R) (e : list R) :
  Rsum (map (fun ei => ei / s) e) = Rsum e / s.
Proof.
  induction e as [|x e IH].
  - simpl. unfold Rdiv. lra.
  - cbn [map Rsum fold_right]. fold (Rsum (map (fun ei => ei / s) e)).
    fold (Rsum e). rewrite IH. unfold Rdiv. lra.
Qed.


End RealNormalizations.

(* ================================================================= *)
(** ** Normalization of a masked row *)

Section MaskedRows.

Open Scope R_scope.


Lemma fdiv_fin (x y : R) : y <> 0 -> fdiv (Fin x) (Fin y) = Fin (x / y).
Proof.
  intros Hy. unfold fdiv. destruct (Req_dec_T y 0); [contradiction|].
  reflexivity.
Qed.

Lemma fgtb_fin (x y : R) :
  fgtb (Fin x) (Fin y) = if Rlt_dec y x then true else false.
Proof. reflexivity. Qed.

Lemma fsum_map_Fin (l : list R) : fsum (map Fin l) = Fin (Rsum l).
Proof.
  induction l as [|x l IH]; [reflexivity|].
  cbn [map fsum fold_right]. fold (fsum (map Fin l)). rewrite IH.
  reflexivity.
Qed.

Lemma Rsum_repeat_0 (k : nat) : Rsum (repeat 0 k) = 0.
Proof. induction k as [|k IH]; simpl; [reflexivity|]. fold (Rsum (repeat 0 k)). lra. Qed.

Lemma padded_as_map (ps : list R) (k : nat) :
  padded ps k = map Fin (ps ++ repeat 0 k).
Proof. unfold padded. rewrite map_app, map_repeat. reflexivity. Qed.

Lemma fsum_padded (ps : list R) (k : nat) :
  fsum (padded ps k) = Fin (Rsum ps).
Proof.
  rewrite padded_as_map, fsum_map_Fin, Rsum_app, Rsum_repeat_0.
  f_equal. lra.
Qed.

Lemma row_max_repeat_NInf (k : nat) : row_max (repeat NInf k) = NInf.
Proof. induction k as [|k IH]; simpl; [reflexivity|]. fold (row_max (repeat NInf k)). rewrite IH. reflexivity. Qed.

(** The maximum of a masked row with a finite entry is finite. *)
Lemma row_max_masked (xs : list R) (k : nat) :
  xs <> [] -> exists m, row_max (masked xs k) = Fin m.
Proof.
  intros Hxs. destruct xs as [|x xs]; [contradiction|]. clear Hxs.
  revert x. induction xs as [|y xs IH]; intros x.
  - unfold masked. cbn [map app row_max fold_right].
    fold (row_max (repeat NInf k)). rewrite row_max_repeat_NInf.
    exists x. reflexivity.
  - destruct (IH y) as [m Hm].
    unfold masked in *. cbn [map app row_max fold_right] in *.
    fold (row_max (map Fin xs ++ repeat NInf k)) in *.
    rewrite Hm. unfold fmax. rewrite fgtb_fin.
    destruct (Rlt_dec x m); eexists; reflexivity.
Qed.


(** [softmax] on a masked row: the real softmax on the finite entries, and
    exactly zero on the masked ones. *)
Lemma softmax_masked (xs : list R) (k : nat) :
  xs <> [] ->
  exists m, softmax (masked xs k) = padded (Rsoftmax m xs) k.
Proof.
  intros Hxs. destruct (row_max_masked xs k Hxs) as [m Hm].
  exists m. unfold softmax. rewrite Hm. cbv zeta.
  assert (He : map (fun x => fexp (fsub x (Fin m))) (masked xs k)
               = padded (map (fun x => exp (x + - m)) xs) k).
  { unfold masked, padded. rewrite map_app, !map_map, map_repeat.
    reflexivity. }
  rewrite He, fsum_padded.
  pose proof (Rsum_exp_pos m xs Hxs) as Hpos.
  set (S := Rsum (map (fun x => exp (x + - m)) xs)) in *.
  unfold padded, Rsoftmax. cbv zeta. fold S.
  rewrite map_app, !map_map, map_repeat. f_equal.
  - apply map_ext. intros x. apply fdiv_fin. lra.
  - f_equal. rewrite fdiv_fin by lra. f_equal. unfold Rdiv. lra.
Qed.

End MaskedRows.

Section MaskedSparsemax.

Open Scope R_scope.












End MaskedSparsemax.

Section MaskedSparsemaxRow.

Open Scope R_scope.







End MaskedSparsemaxRow.

(* ================================================================= *)
(** ** Masking a row, then normalizing it *)

Section NormalizedRows.

Open Scope R_scope.

Lemma fill_row_seq (len : Z) (row : vec) :
  forall a,
    fill_row row (map (fun i => (Z.of_nat i <? len)%Z) (seq a (length row)))
    = firstn (Z.to_nat len - a) row
      ++ repeat NInf (length row - (Z.to_nat len - a)).
Proof.
  induction row as [|x row IH]; intros a.
  - rewrite firstn_nil. reflexivity.
  - cbn [length seq map]. unfold fill_row in *. rewrite zip_with_cons.
    rewrite IH. destruct (Z.ltb_spec (Z.of_nat a) len) as [Hlt|Hge].
    + replace (Z.to_nat len - a)%nat
        with (S (Z.to_nat len - S a)) by lia.
      cbn [firstn app Nat.sub]. reflexivity.
    + replace (Z.to_nat len - a)%nat with 0%nat by lia.
      replace (Z.to_nat len - S a)%nat with 0%nat by lia.
      cbn [firstn app]. rewrite !Nat.sub_0_r. reflexivity.
Qed.

Lemma finite_as_map (l : vec) :
  Forall (fun x => is_finite x = true) l -> exists xs, l = map Fin xs.
Proof.
  induction 1 as [|x l Hx _ [xs IH]].
  - exists []. reflexivity.
  - destruct x as [r| | |]; try discriminate.
    exists (r :: xs). simpl. rewrite IH. reflexivity.
Qed.

Lemma finite_prefix_firstn (len : Z) (row : vec) :
  finite_prefix len row ->
  Forall (fun x => is_finite x = true) (firstn (Z.to_nat len) row).
Proof.
  intros Hfin. apply Forall_forall. intros x Hx.
  apply In_nth_error in Hx. destruct Hx as [i Hi].
  assert (Hlt : (i < Z.to_nat len)%nat).
  { assert (Hsome : nth_error (firstn (Z.to_nat len) row) i <> None)
      by congruence.
    apply nth_error_Some in Hsome.
    pose proof (firstn_le_length (Z.to_nat len) row). lia. }
  rewrite nth_error_firstn in Hi.
  destruct (Nat.ltb_spec i (Z.to_nat len)); [|lia].
  exact (Hfin i x Hlt Hi).
Qed.



End NormalizedRows.

(* ================================================================= *)
(** ** Masked normalization of a batch: lines 201-211 *)

Lemma mapM_Forall2 {A B} (f : A -> result B) (P : A -> B -> Prop)
  (l : list A) :
  Forall (fun a => exists b, f a = Ok b /\ P a b) l ->
  exists l', mapM f l = Ok l' /\ Forall2 P l l'.
Proof.
  induction 1 as [|a l (b & Hb & HP) _ (l' & Hl' & HF)].
  - exists []. split; [reflexivity | constructor].
  - exists (b :: l'). cbn [mapM]. rewrite Hb. cbn [bind]. rewrite Hl'.
    split; [reflexivity | constructor; assumption].
Qed.



Lemma zip_with_map_r {A B B' C} (f : A -> B' -> C) (h : B -> B')
  (la : list A) (lb : list B) :
  zip_with f la (map h lb) = zip_with (fun a b => f a (h b)) la lb.
Proof.
  revert lb. induction la as [|a la IH]; intros [|b lb]; try reflexivity.
  cbn [map]. rewrite !zip_with_cons, IH. reflexivity.
Qed.

Lemma masked_fill_same_length (word_align : tensor3) (lens : list Z)
  (s : nat) :
  length lens = length word_align ->
  masked_fill_ word_align (sequence_mask lens s)
  = Ok (zip_with
          (fun m len =>
             map (fun r =>
                    fill_row r (map (fun i => (Z.of_nat i <? len)%Z)
                                    (seq 0 s)))
                 m)
          word_align lens).
Proof.
  intros Hlen. unfold masked_fill_, sequence_mask.
  rewrite length_map, Hlen, Nat.eqb_refl. f_equal.
  apply zip_with_map_r.
Qed.



(* ================================================================= *)
(** ** Hierarchical rescaling on tensors of agreeing shapes *)

Lemma mapM_closed {A B} (f : A -> result B) (g : A -> B) (l : list A) :
  Forall (fun a => f a = Ok (g a)) l -> mapM f l = Ok (map g l).
Proof.
  induction 1 as [|a l Ha _ IH]; [reflexivity|].
  cbn [mapM map]. rewrite Ha. cbn [bind]. rewrite IH. reflexivity.
Qed.

Lemma zipM_closed {A B C} (f : A -> B -> result C) (g : A -> B -> C)
  (la : list A) (lb : list B) :
  Forall (fun p => f (fst p) (snd p) = Ok (g (fst p) (snd p)))
         (combine la lb) ->
  zipM f la lb = Ok (zip_with g la lb).
Proof.
  revert lb. induction la as [|a la IH]; intros [|b lb] H;
    try reflexivity.
  cbn [combine] in H. inversion H as [|? ? Hab Hrest]; subst.
  cbn [zipM fst snd] in *. rewrite Hab. cbn [bind].
  rewrite (IH lb Hrest). reflexivity.
Qed.

Lemma bzipM_closed {A B C} (f : A -> B -> result C) (g : A -> B -> C)
  (la : list A) (lb : list B) :
  length la = length lb ->
  Forall (fun p => f (fst p) (snd p) = Ok (g (fst p) (snd p)))
         (combine la lb) ->
  bzipM f la lb = Ok (zip_with g la lb).
Proof.
  intros Hlen H. rewrite bzipM_same_length by exact Hlen.
  apply zipM_closed. exact H.
Qed.

Lemma eq_all_refl (l : list Z) : eq_all l l = Ok true.
Proof.
  unfold eq_all. rewrite bzipM_same_length by reflexivity.
  rewrite zipM_pure. cbn [bind]. f_equal.
  induction l as [|x l IH]; [reflexivity|].
  rewrite zip_with_cons. cbn [forallb]. rewrite Z.eqb_refl, IH. reflexivity.
Qed.

Lemma gather_last_closed (input : vec) (index : list Z) :
  Forall (fun i => (0 <= i < Z.of_nat (length input))%Z) index ->
  gather_last input index
  = Ok (map (fun i => nth (Z.to_nat i) input NaN) index).
Proof.
  intros H. unfold gather_last. apply mapM_closed.
  eapply Forall_impl; [|exact H]. cbv beta. intros i Hi.
  destruct (Z.leb_spec 0 i); [|lia].
  destruct (Z.ltb_spec i (Z.of_nat (length input))); [|lia].
  reflexivity.
Qed.

Lemma in_combine_both {A B} (la : list A) (lb : list B) (p : A * B) :
  In p (combine la lb) -> In (fst p) la /\ In (snd p) lb.
Proof.
  destruct p as [a b]. intros H. split.
  - exact (in_combine_l _ _ _ _ H).
  - exact (in_combine_r _ _ _ _ H).
Qed.

Section Rescaling.

Variables (b t s n : nat).
Variables (utr : tensor3) (ids : list (list Z)) (align : tensor3).

Hypothesis Hutr : shape3 b t n utr.
Hypothesis Hids : ids_in_range b s n ids.
Hypothesis Halign : shape3 b t s align.

Lemma expand_utr_closed : expand_utr utr ids = Ok (expanded utr ids).
Proof.
  destruct Hutr as [Hub Hu]. destruct Hids as [Hib Hi].
  unfold expand_utr, expanded.
  rewrite Hub, Hib, Nat.leb_refl.
  apply zipM_closed. apply Forall_forall. intros [u idb] Hin.
  apply in_combine_both in Hin. cbn [fst snd] in *.
  destruct Hin as [Hinu Hini].
  rewrite Forall_forall in Hu, Hi.
  destruct (Hu u Hinu) as [_ Hrows]. destruct (Hi idb Hini) as [_ Hrange].
  apply mapM_closed. rewrite Forall_forall in Hrows.
  apply Forall_forall. intros ut Hut.
  apply gather_last_closed. rewrite (Hrows ut Hut). exact Hrange.
Qed.

Lemma expanded_shape : shape3 b t s (expanded utr ids).
Proof.
  destruct Hutr as [Hub Hu]. destruct Hids as [Hib Hi].
  unfold expanded. split.
  - rewrite length_zip_with. unalias. lia.
  - apply Forall_forall. intros m Hm. unfold zip_with in Hm.
    apply in_map_iff in Hm. destruct Hm as ([u idb] & <- & Hin).
    apply in_combine_both in Hin. cbn [fst snd] in *.
    destruct Hin as [Hinu Hini].
    rewrite Forall_forall in Hu, Hi.
    destruct (Hu u Hinu) as [Hlen _]. destruct (Hi idb Hini) as [Hlid _].
    split; [rewrite length_map; exact Hlen|].
    apply Forall_forall. intros r Hr. apply in_map_iff in Hr.
    destruct Hr as (ut & <- & _). rewrite length_map. exact Hlid.
Qed.

Lemma reweight_closed (expand : tensor3) :
  shape3 b t s expand ->
  reweight align expand
  = Ok (zip_with (zip_with (zip_with fmul)) align expand).
Proof.
  intros [Heb He]. destruct Halign as [Hab Ha].
  unfold reweight. apply bzipM_closed; [unalias; lia|].
  apply Forall_forall. intros [ma me] Hin.
  apply in_combine_both in Hin. cbn [fst snd] in *.
  destruct Hin as [Hina Hine].
  rewrite Forall_forall in Ha, He.
  destruct (Ha ma Hina) as [Hla Hra]. destruct (He me Hine) as [Hle Hre].
  apply bzipM_closed; [unalias; lia|].
  apply Forall_forall. intros [ra re] Hin.
  apply in_combine_both in Hin. cbn [fst snd] in *.
  destruct Hin as [Hinra Hinre].
  rewrite Forall_forall in Hra, Hre.
  apply bzipM_closed; [rewrite (Hra ra Hinra), (Hre re Hinre); reflexivity|].
  apply Forall_forall. intros p _. reflexivity.
Qed.

(** With agreeing shapes, ids in range and the same lengths on both sides,
    the rescaling of lines 213-229 does not raise. *)
Lemma hre_rescale_closed (lens : list Z) :
  hre_rescale lens utr (Some (ids, lens)) align
  = Ok (rescaled align (expanded utr ids)).
Proof.
  unfold hre_rescale. rewrite eq_all_refl. cbn [bind].
  rewrite expand_utr_closed. cbn [bind].
  rewrite (reweight_closed _ expanded_shape). reflexivity.
Qed.

End Rescaling.

Lemma nth_error_zip_with {A B C} (f : A -> B -> C) (la : list A)
  (lb : list B) (i : nat) :
  nth_error (zip_with f la lb) i
  = match nth_error la i, nth_error lb i with
    | Some a, Some b => Some (f a b)
    | _, _ => None
    end.
Proof.
  revert lb i. induction la as [|a la IH]; intros [|b lb] [|i];
    try reflexivity.
  - cbn [nth_error]. destruct (nth_error la i); reflexivity.
  - rewrite zip_with_cons. cbn [nth_error]. apply IH.
Qed.

(** The row (b, t) of the rescaled tensor is the renormalized product of the
    rows (b, t). *)
Lemma row_at_rescaled (align expand : tensor3) (bi ti : nat) (a e : vec) :
  row_at align bi ti = Some a ->
  row_at expand bi ti = Some e ->
  row_at (rescaled align expand) bi ti
  = Some (renormalize (zip_with fmul a e)).
Proof.
  unfold row_at, rescaled. intros Ha He. unalias.
  rewrite nth_error_map, nth_error_zip_with.
  destruct (nth_error align bi) as [ma|]; [|discriminate].
  destruct (nth_error expand bi) as [me|]; [|discriminate].
  cbn [option_map]. rewrite nth_error_map, nth_error_zip_with, Ha, He.
  reflexivity.
Qed.

Lemma row_at_In {A} (x : list (list A)) (bi ti : nat) (r : A) :
  row_at x bi ti = Some r -> exists m, In m x /\ In r m.
Proof.
  unfold row_at. destruct (nth_error x bi) as [m|] eqn:E; [|discriminate].
  intros H. exists m. split; eapply nth_error_In; eassumption.
Qed.

Lemma shape3_row (b t s : nat) (x : tensor3) (bi ti : nat) (r : vec) :
  shape3 b t s x -> row_at x bi ti = Some r -> length r = s.
Proof.
  intros [_ H] Hr. apply row_at_In in Hr. destruct Hr as (m & Hm & Hin).
  rewrite Forall_forall in H. destruct (H m Hm) as [_ Hrows].
  rewrite Forall_forall in Hrows. exact (Hrows r Hin).
Qed.

Lemma shape3_row_at_bounds (b t s : nat) (x : tensor3) (bi ti : nat)
  (r : vec) :
  shape3 b t s x -> row_at x bi ti = Some r -> (bi < b)%nat /\ (ti < t)%nat.
Proof.
  intros [Hb H] Hr. unfold row_at in Hr. unalias.
  destruct (nth_error x bi) as [m|] eqn:E; [|discriminate].
  rewrite Forall_forall in H.
  destruct (H m (nth_error_In _ _ E)) as [Hm _].
  split.
  - rewrite <- Hb. apply nth_error_Some. congruence.
  - rewrite <- Hm. apply nth_error_Some. congruence.
Qed.

Lemma shape3_row_at_some (b t s : nat) (x : tensor3) (bi ti : nat) :
  shape3 b t s x -> (bi < b)%nat -> (ti < t)%nat ->
  exists r, row_at x bi ti = Some r.
Proof.
  intros [Hb H] Hbi Hti. unfold row_at. unalias.
  destruct (nth_error x bi) as [m|] eqn:E.
  - rewrite Forall_forall in H.
    destruct (H m (nth_error_In _ _ E)) as [Hm _].
    destruct (nth_error m ti) as [r|] eqn:Er.
    + exists r. reflexivity.
    + apply nth_error_None in Er. lia.
  - apply nth_error_None in E. lia.
Qed.

(** The row (b, t) of the expanded alignment reads the row (b, t) of the
    alignment at the ids of batch element b. *)
Lemma row_at_expanded (utr : tensor3) (ids : list (list Z)) (bi ti : nat)
  (e : vec) :
  row_at (expanded utr ids) bi ti = Some e ->
  exists u idb,
    row_at utr bi ti = Some u
    /\ nth_error ids bi = Some idb
    /\ e = map (fun i => nth (Z.to_nat i) u NaN) idb.
Proof.
  unfold row_at, expanded. unalias. rewrite nth_error_zip_with.
  destruct (nth_error utr bi) as [m|]; [|discriminate].
  destruct (nth_error ids bi) as [idb|]; [|discriminate].
  rewrite nth_error_map.
  destruct (nth_error m ti) as [u|]; [|discriminate].
  cbn [option_map]. intros H. injection H as <-.
  exists u, idb. repeat split; reflexivity.
Qed.

Section RescaledRows.

Open Scope R_scope.



Lemma fsum_fin_inv (l : vec) (r : R) :
  fsum l = Fin r -> exists xs, l = map Fin xs /\ Rsum xs = r.
Proof.
  revert r. induction l as [|x l IH]; intros r H.
  - exists []. split; [reflexivity|]. simpl in *. congruence.
  - cbn [fsum fold_right] in H. fold (fsum l) in H.
    destruct x as [a| | |], (fsum l) as [c| | |] eqn:E;
      try discriminate H.
    destruct (IH c eq_refl) as (xs & -> & Hs).
    exists (a :: xs). split; [reflexivity|].
    cbn [Rsum fold_right]. fold (Rsum xs). cbn [fadd] in H.
    injection H as <-. rewrite Hs. reflexivity.
Qed.






End RescaledRows.

(* ================================================================= *)
(** ** Padded positions through the rescaling *)

Section PaddingInvariant.

Open Scope R_scope.


End PaddingInvariant.


Section ZeroRenormalization.

Open Scope R_scope.



End ZeroRenormalization.

(* ================================================================= *)
(** ** Uniform alignment *)

Section UniformAlignment.

Open Scope R_scope.


End UniformAlignment.




(* ================================================================= *)
(** ** Source length 0 *)

Section ZeroLength.

Open Scope R_scope.



Lemma fsum_nan (l : vec) : fsum (NaN :: l) = NaN.
Proof. reflexivity. Qed.



End ZeroLength.

Lemma masked_normalize_softmax_closed (lens : list Z) (word_align : tensor3) :
  length lens = length word_align ->
  masked_normalize Softmax lens word_align
  = Ok (map (map softmax)
            (zip_with
               (fun m len =>
                  map (fun r =>
                         fill_row r
                           (map (fun i => (Z.of_nat i <? len)%Z)
                                (seq 0 (size_last word_align))))
                      m)
               word_align lens)).
Proof.
  intros Hlen. unfold masked_normalize.
  rewrite masked_fill_same_length by exact Hlen. cbn [bind].
  apply mapM_closed. apply Forall_forall. intros m _.
  apply mapM_closed. apply Forall_forall. intros r _. reflexivity.
Qed.




(* ================================================================= *)
(** ** The general strategy with the identity transform *)

Section IdentityTransform.

Open Scope R_scope.

Lemma fdot_fin (xs ys : list R) :
  fdot (map Fin xs) (map Fin ys)
  = Fin (Rsum (zip_with Rmult xs ys)).
Proof.
  unfold fdot. rewrite <- fsum_map_Fin. f_equal.
  revert ys. induction xs as [|x xs IH]; intros [|y ys]; try reflexivity.
  cbn [map]. rewrite !zip_with_cons. cbn [map fmul]. rewrite IH.
  reflexivity.
Qed.

Lemma Rsum_delta_out (i : nat) (xs : list R) :
  forall k, (i < k)%nat ->
  Rsum (zip_with Rmult xs (map (delta i) (seq k (length xs)))) = 0.
Proof.
  induction xs as [|x xs IH]; intros k Hk; [reflexivity|].
  cbn [length seq map]. rewrite zip_with_cons.
  cbn [Rsum fold_right].
  fold (Rsum (zip_with Rmult xs (map (delta i) (seq (S k) (length xs))))).
  rewrite (IH (S k)) by lia. unfold delta.
  destruct (Nat.eqb_spec i k); [lia | lra].
Qed.

Lemma Rsum_delta (i : nat) (xs : list R) :
  forall k, (k <= i < k + length xs)%nat ->
  Rsum (zip_with Rmult xs (map (delta i) (seq k (length xs))))
  = nth (i - k) xs 0.
Proof.
  induction xs as [|x xs IH]; intros k Hk; [simpl in Hk; lia|].
  cbn [length seq map]. rewrite zip_with_cons.
  cbn [Rsum fold_right].
  fold (Rsum (zip_with Rmult xs (map (delta i) (seq (S k) (length xs))))).
  unfold delta at 1. destruct (Nat.eqb_spec i k) as [->|Hne].
  - rewrite Rsum_delta_out by lia. rewrite Nat.sub_diag. simpl. lra.
  - rewrite (IH (S k)) by (simpl in Hk; lia).
    replace (i - k)%nat with (S (i - S k)) by lia. simpl. lra.
Qed.

Lemma identity_row_as_delta (i d : nat) :
  map (fun j => if Nat.eqb i j then Fin 1 else Fin 0) (seq 0 d)
  = map Fin (map (delta i) (seq 0 d)).
Proof.
  rewrite map_map. apply map_ext. intros j. unfold delta.
  destruct (Nat.eqb i j); reflexivity.
Qed.

Lemma map_nth_seq (xs : list R) :
  map (fun i => nth i xs 0) (seq 0 (length xs)) = xs.
Proof.
  induction xs as [|x xs IH]; [reflexivity|].
  cbn [length seq map nth]. f_equal.
  rewrite <- seq_shift, map_map. exact IH.
Qed.

(** The identity layer returns a finite vector of its size as it is. *)
Lemma linear_identity (xs : list R) :
  linear (identity_layer (length xs)) (map Fin xs) = map Fin xs.
Proof.
  unfold linear, identity_layer, identity_matrix. cbn [weight bias].
  rewrite map_map.
  transitivity (map (fun i => Fin (nth i xs 0)) (seq 0 (length xs))).
  - apply map_ext_in. intros i Hi. apply in_seq in Hi.
    rewrite identity_row_as_delta, fdot_fin, Rsum_delta by lia.
    rewrite Nat.sub_0_r. reflexivity.
  - rewrite <- (map_map (fun i => nth i xs 0) Fin), map_nth_seq.
    reflexivity.
Qed.

End IdentityTransform.

Section GeneralAndDot.

Open Scope R_scope.

Lemma linear_identity_rows (d : nat) (h_t : tensor3) :
  Forall (Forall (fun q => length q = d
                           /\ Forall (fun x => is_finite x = true) q)) h_t ->
  map (map (linear (identity_layer d))) h_t = h_t.
Proof.
  intros H. rewrite <- (map_id h_t) at 2.
  apply map_ext_in. intros m Hm.
  rewrite Forall_forall in H. pose proof (H m Hm) as Hrows.
  rewrite <- (map_id m) at 2.
  apply map_ext_in. intros q Hq.
  rewrite Forall_forall in Hrows. destruct (Hrows q Hq) as [Hlen Hfin].
  destruct (finite_as_map q Hfin) as [xs ->].
  rewrite length_map in Hlen. subst d. apply linear_identity.
Qed.

(** C6, as the code has it: when every entry of the query is a finite
    number and the query vectors have the size of the identity transform,
    the raw scores of the general strategy with that transform are the raw
    scores of the dot strategy on the same inputs, whatever the source bank
    holds: equal results, or the same error.  The sign of a zero is not
    represented in this model. *)
Theorem general_identity_matches_dot :
  forall (self : SeqHREWordGlobalAttention) (h_t h_s : tensor3) (d : nat),
    Forall (Forall (fun q => length q = d
                             /\ Forall (fun x => is_finite x = true) q))
           h_t ->
    score (set_attn_type (General (identity_layer d)) self) h_t h_s
    = score (set_attn_type Dot self) h_t h_s.
Proof.
  intros self h_t h_s d H. unfold score. cbn [attn_type_of dim set_attn_type].
  rewrite (linear_identity_rows d h_t H). reflexivity.
Qed.

Lemma general_identity_matches_dot_witness :
  score (set_attn_type (General (identity_layer 2)) (dot_softmax 2))
        [[[Fin 1; Fin 2]]] [[[Fin 3; Fin 4]]]
  = score (set_attn_type Dot (dot_softmax 2))
          [[[Fin 1; Fin 2]]] [[[Fin 3; Fin 4]]].
Proof.
  apply general_identity_matches_dot. repeat constructor.
Defined.

Lemma Rsign_pos (x : R) : 0 < x -> Rsign x = Pos.
Proof.
  intros H. unfold Rsign.
  destruct (total_order_T x 0) as [[Hlt|Heq]|Hgt];
    [exfalso; lra | exfalso; lra | reflexivity].
Qed.

Lemma Rsign_zero : Rsign 0 = Zero.
Proof.
  unfold Rsign.
  destruct (total_order_T 0 0) as [[Hlt|Heq]|Hgt];
    [exfalso; lra | reflexivity | exfalso; lra].
Qed.

(** C6 fails on a query that holds an infinity: the identity transform
    multiplies it by the zeros of the other rows, inf * 0 is NaN, and the
    general scores are NaN where the dot scores are +inf. *)
Lemma general_identity_differs_on_inf :
  score (set_attn_type (General (identity_layer 2)) (dot_softmax 2))
        [[[PInf; Fin 1]]] [[[Fin 1; Fin 1]]]
  = Ok [[[NaN]]]
  /\ score (set_attn_type Dot (dot_softmax 2))
           [[[PInf; Fin 1]]] [[[Fin 1; Fin 1]]]
     = Ok [[[PInf]]]
  /\ score (set_attn_type (General (identity_layer 2)) (dot_softmax 2))
           [[[PInf; Fin 1]]] [[[Fin 1; Fin 1]]]
     <> score (set_attn_type Dot (dot_softmax 2))
              [[[PInf; Fin 1]]] [[[Fin 1; Fin 1]]].
Proof.
  assert (Hg : score (set_attn_type (General (identity_layer 2))
                                    (dot_softmax 2))
                     [[[PInf; Fin 1]]] [[[Fin 1; Fin 1]]]
               = Ok [[[NaN]]]).
  { transitivity
      (Ok (A:=tensor3)
          (bmm_nt (map (map (linear (identity_layer 2))) [[[PInf; Fin 1]]])
                  [[[Fin 1; Fin 1]]])); [reflexivity|].
    f_equal. cbn -[Rsign]. rewrite Rsign_zero, Rsign_pos by lra.
    cbn -[Rsign]. rewrite Rsign_pos by lra. reflexivity. }
  assert (Hd : score (set_attn_type Dot (dot_softmax 2))
                     [[[PInf; Fin 1]]] [[[Fin 1; Fin 1]]]
               = Ok [[[PInf]]]).
  { transitivity
      (Ok (A:=tensor3) (bmm_nt [[[PInf; Fin 1]]] [[[Fin 1; Fin 1]]]));
      [reflexivity|].
    f_equal. cbn -[Rsign]. rewrite Rsign_pos by lra. reflexivity. }
  split; [exact Hg|]. split; [exact Hd|].
  rewrite Hg, Hd. discriminate.
Qed.

End GeneralAndDot.

(* ================================================================= *)
(** * Shapes through the stages of [forward] *)

Lemma size3_shape3 (b t s : nat) (x : tensor3) :
  (1 <= b)%nat -> (1 <= t)%nat -> shape3 b t s x -> size3 x = (b, t, s).
Proof.
  intros Hb Ht [Hl H]. unfold size3.
  destruct x as [|m x]; [simpl in Hl; lia|].
  apply Forall_inv in H. destruct H as [Hm Hr]. cbn [hd].
  destruct m as [|r m]; [simpl in Hm; lia|].
  apply Forall_inv in Hr. cbn [hd]. unalias. rewrite Hl, Hm, Hr.
  reflexivity.
Qed.

Lemma shape3_length (b t s : nat) (x : tensor3) :
  shape3 b t s x -> length x = b.
Proof. intros [H _]. exact H. Qed.

Lemma shape3_In (b t s : nat) (x : tensor3) (m : mat) :
  shape3 b t s x -> In m x -> length m = t /\ Forall (fun r => length r = s) m.
Proof. intros [_ H] Hin. rewrite Forall_forall in H. exact (H m Hin). Qed.

(** A row-wise operation changes the last size only. *)
Lemma shape3_map_rows (f : vec -> vec) (b t s s' : nat) (x : tensor3) :
  shape3 b t s x ->
  (forall r, length r = s -> length (f r) = s') ->
  shape3 b t s' (map (map f) x).
Proof.
  intros [Hl H] Hf. split; [rewrite length_map; exact Hl|].
  apply Forall_forall. intros m' Hm'. apply in_map_iff in Hm'.
  destruct Hm' as (m & <- & Hm). rewrite Forall_forall in H.
  destruct (H m Hm) as [Ht Hr]. split; [rewrite length_map; exact Ht|].
  apply Forall_forall. intros r' Hr'. apply in_map_iff in Hr'.
  destruct Hr' as (r & <- & Hin). rewrite Forall_forall in Hr.
  exact (Hf r (Hr r Hin)).
Qed.

(** Two tensors combined batch element by batch element. *)
Lemma shape3_zip_with {A B} (g : A -> B -> mat) (b t s : nat)
  (la : list A) (lb : list B) :
  length la = b -> length lb = b ->
  (forall x y, In x la -> In y lb ->
               length (g x y) = t /\ Forall (fun r => length r = s) (g x y)) ->
  shape3 b t s (zip_with g la lb).
Proof.
  intros Ha Hb Hg. split; [rewrite length_zip_with; lia|].
  apply Forall_forall. intros m Hm. unfold zip_with in Hm.
  apply in_map_iff in Hm. destruct Hm as ([x y] & <- & Hin).
  apply in_combine_both in Hin. cbn [fst snd] in *.
  destruct Hin as [Hx Hy]. exact (Hg x y Hx Hy).
Qed.

Lemma Forall_map_length {A} (f : A -> vec) (s : nat) (l : list A) :
  (forall x, In x l -> length (f x) = s) ->
  Forall (fun r => length r = s) (map f l).
Proof.
  intros H. apply Forall_forall. intros r Hr. apply in_map_iff in Hr.
  destruct Hr as (x & <- & Hx). exact (H x Hx).
Qed.

Lemma bmm_nt_shape (b t s d d' : nat) (h_t h_s : tensor3) :
  shape3 b t d h_t -> shape3 b s d' h_s -> shape3 b t s (bmm_nt h_t h_s).
Proof.
  intros Ht Hs. unfold bmm_nt.
  apply shape3_zip_with;
    [exact (shape3_length _ _ _ _ Ht) | exact (shape3_length _ _ _ _ Hs)|].
  intros ab bb Ha Hb.
  destruct (shape3_In _ _ _ _ _ Ht Ha) as [Hla _].
  destruct (shape3_In _ _ _ _ _ Hs Hb) as [Hlb _].
  split; [rewrite length_map; exact Hla|].
  apply Forall_map_length. intros q _. rewrite length_map. exact Hlb.
Qed.

Lemma length_concat_singletons {A B} (f : A -> list B) (l : list A) :
  (forall x, In x l -> length (f x) = 1%nat) ->
  length (concat (map f l)) = length l.
Proof.
  induction l as [|x l IH]; intros H; [reflexivity|].
  cbn [map concat]. rewrite length_app, (H x (or_introl eq_refl)).
  cbn [length]. rewrite IH; [reflexivity|].
  intros y Hy. apply H. right. exact Hy.
Qed.

Lemma mlp_scores_shape (b t s d d' : nat) (lc lq v : Linear)
  (h_t h_s : tensor3) :
  out_features v = 1%nat ->
  shape3 b t d h_t -> shape3 b s d' h_s ->
  shape3 b t s (mlp_scores lc lq v h_t h_s).
Proof.
  intros Hv Ht Hs. unfold mlp_scores.
  apply shape3_zip_with;
    [rewrite length_map; exact (shape3_length _ _ _ _ Ht)
    |rewrite length_map; exact (shape3_length _ _ _ _ Hs)|].
  intros wqb uhb Ha Hb.
  apply in_map_iff in Ha. destruct Ha as (ab & <- & Ha).
  apply in_map_iff in Hb. destruct Hb as (bb & <- & Hb).
  destruct (shape3_In _ _ _ _ _ Ht Ha) as [Hla _].
  destruct (shape3_In _ _ _ _ _ Hs Hb) as [Hlb _].
  split; [rewrite !length_map; exact Hla|].
  apply Forall_map_length. intros q _. cbv beta. unalias.
  rewrite length_concat_singletons; [rewrite length_map; exact Hlb|].
  intros u _. rewrite length_linear. exact Hv.
Qed.

Lemma length_softmax (row : vec) : length (softmax row) = length row.
Proof. unfold softmax. rewrite !length_map. reflexivity. Qed.

Lemma length_fill_row (row : vec) (mask_row : list bool) :
  length (fill_row row mask_row)
  = Nat.min (length row) (length mask_row).
Proof. unfold fill_row. apply length_zip_with. Qed.

Lemma length_renormalize (row : vec) :
  length (renormalize row) = length row.
Proof. unfold renormalize. apply length_map. Qed.

Lemma bmm_shape (b t s d : nat) (a bank : tensor3) :
  shape3 b t s a -> length bank = b -> shape3 b t d (bmm d a bank).
Proof.
  intros Ha Hb. unfold bmm.
  apply shape3_zip_with; [exact (shape3_length _ _ _ _ Ha) | exact Hb|].
  intros ab bb Hin _. destruct (shape3_In _ _ _ _ _ Ha Hin) as [Hl _].
  split; [rewrite length_map; exact Hl|].
  apply Forall_map_length. intros w _. unfold weighted_row.
  rewrite length_map, length_seq. reflexivity.
Qed.

Lemma transpose01_shape (b t s : nat) (x : tensor3) :
  shape3 b t s x -> shape3 t b s (transpose01 t x).
Proof.
  intros Hx. unfold transpose01. split.
  - rewrite length_map, length_seq. reflexivity.
  - apply Forall_forall. intros m' Hm'. apply in_map_iff in Hm'.
    destruct Hm' as (j & <- & Hj). apply in_seq in Hj.
    split; [rewrite length_map; exact (shape3_length _ _ _ _ Hx)|].
    apply Forall_map_length. intros m Hm.
    destruct (shape3_In _ _ _ _ _ Hx Hm) as [Hl Hr].
    rewrite Forall_forall in Hr. apply Hr. apply nth_In. unalias. lia.
Qed.

Lemma size2_shape2 {A} (b s : nat) (x : list (list A)) :
  (1 <= b)%nat -> shape2 b s x -> size2 x = (b, s).
Proof.
  intros Hb [Hl H]. unfold size2.
  destruct x as [|r x]; [simpl in Hl; lia|].
  apply Forall_inv in H. cbn [hd]. rewrite Hl, H. reflexivity.
Qed.

Lemma rescaled_shape (b t s : nat) (align expand : tensor3) :
  shape3 b t s align -> shape3 b t s expand ->
  shape3 b t s (rescaled align expand).
Proof.
  intros Ha He. unfold rescaled.
  apply (shape3_map_rows renormalize b t s s);
    [|intros r Hr; rewrite length_renormalize; exact Hr].
  apply shape3_zip_with;
    [exact (shape3_length _ _ _ _ Ha) | exact (shape3_length _ _ _ _ He)|].
  intros ma me Hma Hme.
  destruct (shape3_In _ _ _ _ _ Ha Hma) as [Hla Hra].
  destruct (shape3_In _ _ _ _ _ He Hme) as [Hle Hre].
  split; [rewrite length_zip_with; unalias; lia|].
  apply Forall_forall. intros r Hr. unfold zip_with in Hr at 1.
  apply in_map_iff in Hr. destruct Hr as ([ra re] & <- & Hin).
  apply in_combine_both in Hin. cbn [fst snd] in *.
  destruct Hin as [Hina Hine].
  rewrite Forall_forall in Hra, Hre.
  rewrite length_zip_with, (Hra ra Hina), (Hre re Hine).
  apply Nat.min_id.
Qed.

(** The scores of well-shaped inputs: [score] returns, and what it returns
    has one row per query and one entry per source position. *)
Lemma score_returns (self : SeqHREWordGlobalAttention) (b t s : nat)
  (h_t h_s : tensor3) :
  (1 <= b)%nat -> (1 <= t)%nat -> (1 <= s)%nat ->
  layers_fit self ->
  shape3 b t (dim self) h_t -> shape3 b s (dim self) h_s ->
  exists w, score self h_t h_s = Ok w /\ shape3 b t s w.
Proof.
  intros Hb Ht Hs (Hfit & _) Hq Hm. unfold score.
  rewrite (size3_shape3 _ _ _ _ Hb Hs Hm), (size3_shape3 _ _ _ _ Hb Ht Hq).
  rewrite !aeq_refl2. cbn [bind].
  destruct (attn_type_of self) as [|linear_in|lc lq v].
  - eexists. split; [reflexivity|]. exact (bmm_nt_shape _ _ _ _ _ _ _ Hq Hm).
  - eexists. split; [reflexivity|].
    apply (bmm_nt_shape b t s (out_features linear_in) (dim self));
      [|exact Hm].
    apply (shape3_map_rows (linear linear_in) b t (dim self));
      [exact Hq | intros r _; apply length_linear].
  - eexists. split; [reflexivity|].
    exact (mlp_scores_shape _ _ _ _ _ _ _ _ _ _ Hfit Hq Hm).
Qed.

(** Masking and softmax keep the shape of the scores. *)
Lemma masked_softmax_shape (b t s : nat) (lens : list Z) (w : tensor3) :
  (1 <= b)%nat -> (1 <= t)%nat ->
  length lens = b -> shape3 b t s w ->
  exists a, masked_normalize Softmax lens w = Ok a /\ shape3 b t s a.
Proof.
  intros Hb Ht Hl Hw.
  rewrite masked_normalize_softmax_closed
    by (rewrite (shape3_length _ _ _ _ Hw); exact Hl).
  eexists. split; [reflexivity|].
  unfold size_last. rewrite (size3_shape3 _ _ _ _ Hb Ht Hw). cbn [snd].
  apply (shape3_map_rows softmax b t s s);
    [|intros r Hr; rewrite length_softmax; exact Hr].
  apply shape3_zip_with; [exact (shape3_length _ _ _ _ Hw) | exact Hl|].
  intros m len Hm _. destruct (shape3_In _ _ _ _ _ Hw Hm) as [Hlm Hr].
  split; [rewrite length_map; exact Hlm|].
  apply Forall_map_length. intros r Hin. rewrite Forall_forall in Hr.
  rewrite length_fill_row, length_map, length_seq, (Hr r Hin).
  apply Nat.min_id.
Qed.

(** Lines 199-229 with softmax: the attention distribution of well-shaped
    inputs exists and is batch-major, one row per query. *)
Lemma attention_softmax_returns (self : SeqHREWordGlobalAttention)
  (b t s n : nat) (source bank : tensor3) (lens : list Z) (utr : tensor3)
  (ids : option word_utr) :
  (1 <= b)%nat -> (1 <= t)%nat -> (1 <= s)%nat ->
  layers_fit self ->
  attn_func_of self = Softmax ->
  shape3 b t (dim self) source -> shape3 b s (dim self) bank ->
  length lens = b ->
  (seqHRE_attn_rescale self = true ->
   shape3 b t n utr
   /\ exists word_utr_ids,
       ids = Some (word_utr_ids, lens) /\ ids_in_range b s n word_utr_ids) ->
  exists a, attention self source bank lens utr ids = Ok a /\ shape3 b t s a.
Proof.
  intros Hb Ht Hs Hfit Hf Hq Hm Hl Hres. unfold attention.
  destruct (score_returns self b t s source bank Hb Ht Hs Hfit Hq Hm)
    as (w & -> & Hw).
  cbn [bind]. rewrite Hf.
  destruct (masked_softmax_shape b t s lens w Hb Ht Hl Hw) as (a & -> & Ha).
  cbn [bind].
  destruct (seqHRE_attn_rescale self).
  - destruct (Hres eq_refl) as (Hutr & wids & -> & Hids).
    rewrite (hre_rescale_closed b t s n utr wids a Hutr Hids Ha lens).
    eexists. split; [reflexivity|].
    apply rescaled_shape; [exact Ha|].
    exact (expanded_shape b t s n utr wids Hutr Hids).
  - exists a. split; [reflexivity | exact Ha].
Qed.

Lemma attn_output_shape (self : SeqHREWordGlobalAttention) (b t : nat)
  (d1 d2 : nat) (c source : tensor3) :
  layers_fit self ->
  shape3 b t d1 c -> shape3 b t d2 source ->
  match attn_output self c source with
  | None => linear_out self = None
  | Some h => linear_out self <> None /\ shape3 b t (dim self) h
  end.
Proof.
  intros (_ & Hfit & _) Hc Hq. unfold attn_output.
  destruct (linear_out self) as [layer|]; [|reflexivity].
  split; [discriminate|].
  assert (Hh : shape3 b t (dim self)
                 (map (map (linear layer))
                      (zip_with (zip_with (@app fval)) c source))).
  { split.
    - rewrite length_map, length_zip_with.
      pose proof (shape3_length _ _ _ _ Hc) as Hlc.
      pose proof (shape3_length _ _ _ _ Hq) as Hlq. unalias. lia.
    - apply Forall_forall. intros m Hm. apply in_map_iff in Hm.
      destruct Hm as (m0 & <- & Hm0). unfold zip_with in Hm0 at 1.
      apply in_map_iff in Hm0. destruct Hm0 as ([mc mq] & <- & Hin).
      apply in_combine_both in Hin. cbn [fst snd] in *.
      destruct Hin as [Hmc Hmq].
      destruct (shape3_In _ _ _ _ _ Hc Hmc) as [Hlc _].
      destruct (shape3_In _ _ _ _ _ Hq Hmq) as [Hlq _].
      split.
      + rewrite length_map, length_zip_with. unalias. lia.
      + apply Forall_map_length. intros r _. rewrite length_linear.
        exact Hfit. }
  destruct (is_luong (attn_type_of self)); [|exact Hh].
  apply (shape3_map_rows (map ftanh) b t (dim self)); [exact Hh|].
  intros r Hr. rewrite length_map. exact Hr.
Qed.

(** Lines 260-274 on batch-major tensors of the sizes read on lines 175-177:
    the output checks pass and the outputs are step-major. *)
Lemma finish_multi_step_returns (b s d t : nat) (c : tensor3)
  (attn_h : option tensor3) (a : tensor3) :
  (1 <= b)%nat -> (1 <= t)%nat ->
  shape3 b t d c -> shape3 b t s a ->
  (forall h, attn_h = Some h -> shape3 b t d h) ->
  finish_multi_step b s d t c attn_h a
  = Ok (T3 (transpose01 t c),
        option_map T3 (option_map (transpose01 t) attn_h),
        T3 (transpose01 t a)).
Proof.
  intros Hb Ht Hc Ha Hh. unfold finish_multi_step.
  rewrite (size3_shape3 _ _ _ _ Ht Hb (transpose01_shape _ _ _ _ Hc)).
  rewrite (size3_shape3 _ _ _ _ Ht Hb (transpose01_shape _ _ _ _ Ha)).
  destruct attn_h as [h|]; cbn [option_map].
  - rewrite (size3_shape3 _ _ _ _ Ht Hb
               (transpose01_shape _ _ _ _ (Hh h eq_refl))).
    rewrite !aeq_refl2. reflexivity.
  - rewrite !aeq_refl2. reflexivity.
Qed.

Lemma squeeze1_shape (b d : nat) (x : tensor3) :
  shape3 b 1 d x -> shape2 b d (squeeze1 x).
Proof.
  intros Hx. unfold squeeze1. split.
  - rewrite length_map. exact (shape3_length _ _ _ _ Hx).
  - apply Forall_map_length. intros m Hm.
    destruct (shape3_In _ _ _ _ _ Hx Hm) as [Hl Hr].
    destruct m as [|r m]; [discriminate|]. cbn [hd].
    exact (Forall_inv Hr).
Qed.

(** Lines 245-258 likewise, in single-step mode. *)
Lemma finish_one_step_returns (b s d : nat) (c : tensor3)
  (attn_h : option tensor3) (a : tensor3) :
  (1 <= b)%nat ->
  shape3 b 1 d c -> shape3 b 1 s a ->
  (forall h, attn_h = Some h -> shape3 b 1 d h) ->
  finish_one_step b s d c attn_h a
  = Ok (T2 (squeeze1 c),
        option_map T2 (option_map (@squeeze1 fval) attn_h),
        T2 (squeeze1 a)).
Proof.
  intros Hb Hc Ha Hh. unfold finish_one_step.
  rewrite (size2_shape2 _ _ _ Hb (squeeze1_shape _ _ _ Hc)).
  rewrite (size2_shape2 _ _ _ Hb (squeeze1_shape _ _ _ Ha)).
  destruct attn_h as [h|]; cbn [option_map].
  - rewrite (size2_shape2 _ _ _ Hb (squeeze1_shape _ _ _ (Hh h eq_refl))).
    rewrite !aeq_refl2. reflexivity.
  - rewrite !aeq_refl2. reflexivity.
Qed.

Lemma unsqueeze1_shape (b d : nat) (m : mat) :
  shape2 b d m -> shape3 b 1 d (unsqueeze1 m).
Proof.
  intros [Hl H]. unfold unsqueeze1. split; [rewrite length_map; exact Hl|].
  apply Forall_forall. intros x Hx. apply in_map_iff in Hx.
  destruct Hx as (v & <- & Hv). split; [reflexivity|].
  constructor; [|constructor]. rewrite Forall_forall in H. exact (H v Hv).
Qed.

(** The size checks of lines 175-190 on inputs of agreeing shapes. *)
Lemma check_inputs_passes (self : SeqHREWordGlobalAttention)
  (b t s n : nat) (source bank : tensor3) (lens : list Z)
  (coverage : option mat) (utr : tensor3) :
  (1 <= b)%nat -> (1 <= t)%nat -> (1 <= s)%nat ->
  shape3 b t (dim self) source -> shape3 b s (dim self) bank ->
  shape3 b t n utr ->
  (forall cov, coverage = Some cov -> shape2 b s cov) ->
  check_inputs self source bank (Some lens) coverage utr = Ok lens.
Proof.
  intros Hb Ht Hs Hq Hm Hu Hcov. unfold check_inputs.
  rewrite (size3_shape3 _ _ _ _ Hb Hs Hm), (size3_shape3 _ _ _ _ Hb Ht Hq),
    (size3_shape3 _ _ _ _ Hb Ht Hu).
  rewrite (proj2 (aeq_triple_ok b b b) (conj eq_refl eq_refl)).
  rewrite !aeq_refl2. cbn [bind].
  destruct coverage as [cov|]; [|reflexivity].
  rewrite (size2_shape2 _ _ _ Hb (Hcov cov eq_refl)).
  rewrite !aeq_refl2. reflexivity.
Qed.

(** Lines 192-195 keep the shape of the source bank. *)
Lemma injected_shape (b s d : nat) (layer : Linear) (bank : tensor3)
  (cov : mat) :
  out_features layer = d ->
  shape3 b s d bank -> shape2 b s cov ->
  shape3 b s d (tensor_tanh (tensor_add bank (project_coverage layer cov))).
Proof.
  intros Hl Hm [Hcl Hc]. unfold tensor_tanh.
  apply (shape3_map_rows (map ftanh) b s d d);
    [|intros r Hr; rewrite length_map; exact Hr].
  unfold tensor_add, project_coverage.
  apply shape3_zip_with;
    [exact (shape3_length _ _ _ _ Hm) | rewrite !length_map; exact Hcl|].
  intros m pm Hin Hpm.
  apply in_map_iff in Hpm. destruct Hpm as (cm & <- & Hcm).
  apply in_map_iff in Hcm. destruct Hcm as (cr & <- & Hcr).
  destruct (shape3_In _ _ _ _ _ Hm Hin) as [Hlm Hr].
  rewrite Forall_forall in Hc. pose proof (Hc cr Hcr) as Hlc.
  split; [rewrite length_zip_with, !length_map; unalias; lia|].
  apply Forall_forall. intros r Hrin. unfold zip_with in Hrin at 1.
  apply in_map_iff in Hrin. destruct Hrin as ([v pv] & <- & Hin2).
  apply in_combine_both in Hin2. cbn [fst snd] in *.
  destruct Hin2 as [Hv Hpv].
  apply in_map_iff in Hpv. destruct Hpv as (x & <- & _).
  rewrite Forall_forall in Hr.
  unfold vadd. rewrite length_zip_with, length_linear, (Hr v Hv), Hl.
  apply Nat.min_id.
Qed.

(** Lines 199-274 on well-shaped inputs, with softmax: the call returns,
    and the outputs have the sizes of the mode. *)
Lemma attend_returns (self : SeqHREWordGlobalAttention) (one_step : bool)
  (b t s n : nat) (source bank : tensor3) (lens : list Z) (utr : tensor3)
  (ids : option word_utr) :
  (1 <= b)%nat -> (1 <= t)%nat -> (1 <= s)%nat ->
  (one_step = true -> t = 1%nat) ->
  layers_fit self ->
  attn_func_of self = Softmax ->
  shape3 b t (dim self) source -> shape3 b s (dim self) bank ->
  length lens = b ->
  (seqHRE_attn_rescale self = true ->
   shape3 b t n utr
   /\ exists word_utr_ids,
       ids = Some (word_utr_ids, lens) /\ ids_in_range b s n word_utr_ids) ->
  exists c attn_h a,
    attend self one_step (b, s, dim self, t) source bank lens utr ids
    = Ok (c, attn_h, a)
    /\ has_shape (returned_sizes one_step t b (dim self)) c
    /\ has_shape (returned_sizes one_step t b s) a
    /\ match attn_h with
       | None => linear_out self = None
       | Some h =>
           linear_out self <> None
           /\ has_shape (returned_sizes one_step t b (dim self)) h
       end.
Proof.
  intros Hb Ht Hs Hone Hfit Hf Hq Hm Hl Hres. unfold attend.
  destruct (attention_softmax_returns self b t s n source bank lens utr ids
              Hb Ht Hs Hfit Hf Hq Hm Hl Hres) as (a & -> & Ha).
  cbn [bind].
  pose proof (bmm_shape b t s (dim self) a bank Ha
                (shape3_length _ _ _ _ Hm)) as Hc.
  pose proof (attn_output_shape self b t (dim self) (dim self)
                (bmm (dim self) a bank) source Hfit Hc Hq) as Hh.
  set (c := bmm (dim self) a bank) in *.
  assert (Hsome : forall h, attn_output self c source = Some h ->
                            shape3 b t (dim self) h).
  { intros h E. rewrite E in Hh. exact (proj2 Hh). }
  destruct one_step.
  - rewrite (Hone eq_refl) in *.
    rewrite (finish_one_step_returns b s (dim self) c
               (attn_output self c source) a Hb Hc Ha Hsome).
    do 3 eexists. split; [reflexivity|].
    split; [exact (squeeze1_shape _ _ _ Hc)|].
    split; [exact (squeeze1_shape _ _ _ Ha)|].
    destruct (attn_output self c source) as [h|]; cbn [option_map];
      [|exact Hh].
    split; [exact (proj1 Hh) | exact (squeeze1_shape _ _ _ (proj2 Hh))].
  - rewrite (finish_multi_step_returns b s (dim self) t c
               (attn_output self c source) a Hb Ht Hc Ha Hsome).
    do 3 eexists. split; [reflexivity|].
    split; [exact (transpose01_shape _ _ _ _ Hc)|].
    split; [exact (transpose01_shape _ _ _ _ Ha)|].
    destruct (attn_output self c source) as [h|]; cbn [option_map];
      [|exact Hh].
    split; [exact (proj1 Hh) | exact (transpose01_shape _ _ _ _ (proj2 Hh))].
Qed.

(* ================================================================= *)
(** * Modules built by [__init__] *)

Lemma mem_In (x : string) (l : list string) : mem x l = true <-> In x l.
Proof.
  unfold mem. rewrite existsb_exists. split.
  - intros (y & Hy & He). apply String.eqb_eq in He. subst y. exact Hy.
  - intros H. exists x. split; [exact H | apply String.eqb_refl].
Qed.

Lemma out_features_nn_Linear (values : drawn) (i o : nat) (wb : bool) :
  out_features (nn_Linear values i o wb) = o.
Proof.
  unfold out_features, nn_Linear. cbn [weight bias].
  destruct wb; rewrite ?length_map, !length_seq; [apply Nat.min_id|].
  reflexivity.
Qed.

(** What [__init__] leaves in the module it builds. *)
Lemma init_returns :
  forall draw d coverage attn_type attn_func output_attn_h rescale self,
    __init__ draw d coverage attn_type attn_func output_attn_h rescale
    = Ok self ->
    dim self = d
    /\ seqHRE_attn_rescale self = rescale
    /\ layers_fit self
    /\ (attn_func = "softmax"%string -> attn_func_of self = Softmax)
    /\ (linear_out self = None <-> output_attn_h = false)
    /\ (linear_cover self = None <-> coverage = false).
Proof.
  intros draw d coverage attn_type attn_func output_attn_h rescale self H.
  unfold __init__ in H.
  destruct (negb (mem attn_type _)); [discriminate|].
  destruct (negb (mem attn_func _)); [discriminate|].
  injection H as <-. cbn [dim seqHRE_attn_rescale attn_func_of linear_out
                           linear_cover].
  split; [reflexivity|]. split; [reflexivity|].
  split.
  { unfold layers_fit. cbn [dim attn_type_of linear_out linear_cover].
    split; [|split].
    - destruct (String.eqb attn_type "general");
        [apply out_features_nn_Linear|].
      destruct (String.eqb attn_type "mlp");
        [apply out_features_nn_Linear | exact I].
    - destruct output_attn_h; [apply out_features_nn_Linear | exact I].
    - destruct coverage; [apply out_features_nn_Linear | exact I]. }
  split; [intros ->; reflexivity|].
  split.
  - destruct output_attn_h; split; intros; congruence.
  - destruct coverage; split; intros; congruence.
Qed.

Lemma sizes_of_shapes (b t s d d' : nat) (source bank : tensor3) :
  (1 <= b)%nat -> (1 <= t)%nat -> (1 <= s)%nat ->
  shape3 b t d' source -> shape3 b s d bank ->
  sizes_of source bank = (b, s, d, t).
Proof.
  intros Hb Ht Hs Hq Hm.
  pose proof (size3_shape3 _ _ _ _ Hb Hs Hm) as E1.
  pose proof (size3_shape3 _ _ _ _ Hb Ht Hq) as E2.
  unfold size3 in E1, E2. unfold sizes_of. unalias.
  injection E1 as -> -> ->. injection E2 as _ -> _. reflexivity.
Qed.

Lemma one_step_target_length (b t d : nat) (source : tensor23) :
  (1 <= b)%nat ->
  shape3 b t d (promote source) -> is_one_step source = true -> t = 1%nat.
Proof.
  intros Hb [Hl H] Hone. destruct source as [m|x]; [|discriminate].
  cbn [promote] in *. unfold unsqueeze1 in *.
  destruct m as [|v m]; [simpl in Hl; lia|].
  cbn [map] in H. apply Forall_inv in H. destruct H as [H _].
  symmetry. exact H.
Qed.

(** X1: a module built by [__init__] with softmax, called on inputs of agreeing
    shapes (with a coverage tensor only if it was built with coverage, and
    with in-range unit ids and the same lengths if it rescales): the call
    returns, and the outputs have the sizes documented for [forward],
    (batch, dim) and (batch, src_len) in single-step mode, (tgt_len, batch,
    dim) and (tgt_len, batch, src_len) in multi-step mode, with the
    attentional state present exactly when [output_attn_h] was set. *)
Theorem forward_returns_documented_shapes :
  forall draw d coverage attn_type output_attn_h rescale self
         (b t s n : nat) source bank lens cov utr pos ids,
    __init__ draw d coverage attn_type "softmax" output_attn_h rescale
    = Ok self ->
    (1 <= b)%nat -> (1 <= t)%nat -> (1 <= s)%nat ->
    shape3 b t d (promote source) ->
    shape3 b s d bank ->
    length lens = b ->
    shape3 b t n (promote utr) ->
    (forall c, cov = Some c -> coverage = true /\ shape2 b s c) ->
    (rescale = true ->
     exists word_utr_ids,
       ids = Some (word_utr_ids, lens) /\ ids_in_range b s n word_utr_ids) ->
    exists c attn_h a,
      snd (forward self source bank (Some lens) cov (Some utr) pos ids)
      = Ok (c, attn_h, a)
      /\ has_shape (returned_sizes (is_one_step source) t b d) c
      /\ has_shape (returned_sizes (is_one_step source) t b s) a
      /\ match attn_h with
         | None => output_attn_h = false
         | Some h =>
             output_attn_h = true
             /\ has_shape (returned_sizes (is_one_step source) t b d) h
         end.
Proof.
  intros draw d coverage attn_type output_attn_h rescale self b t s n
         source bank lens cov utr pos ids Hinit Hb Ht Hs Hq Hm Hl Hu Hcov
         Hres.
  destruct (init_returns _ _ _ _ _ _ _ _ Hinit)
    as (Hd & Hr & Hfit & Hf & Hout & Hcover).
  specialize (Hf eq_refl). subst d.
  rewrite forward_unfold.
  rewrite (check_inputs_passes self b t s n (promote source) bank lens cov
             (promote utr) Hb Ht Hs Hq Hm Hu
             (fun c E => proj2 (Hcov c E))).
  rewrite (sizes_of_shapes b t s (dim self) (dim self) _ _ Hb Ht Hs Hq Hm).
  assert (Hbank : exists buffer bank',
             inject_coverage self bank cov = Ok (buffer, bank')
             /\ shape3 b s (dim self) bank').
  { unfold inject_coverage. destruct cov as [c|].
    - destruct (Hcov c eq_refl) as [Hc Hsc].
      destruct (linear_cover self) as [layer|] eqn:E.
      + do 2 eexists. split; [reflexivity|].
        apply injected_shape; [|exact Hm | exact Hsc].
        destruct Hfit as (_ & _ & Hlc). rewrite E in Hlc. exact Hlc.
      + exfalso. rewrite (proj1 Hcover eq_refl) in Hc. discriminate.
    - do 2 eexists. split; [reflexivity | exact Hm]. }
  destruct Hbank as (buffer & bank' & -> & Hm'). cbn [snd].
  destruct (attend_returns self (is_one_step source) b t s n
              (promote source) bank' lens (promote utr) ids Hb Ht Hs
              (one_step_target_length b t (dim self) source Hb Hq)
              Hfit Hf Hq Hm' Hl)
    as (c & attn_h & a & -> & Hc & Ha & Hh).
  { intros E. rewrite Hr in E. split; [exact Hu | exact (Hres E)]. }
  exists c, attn_h, a. split; [reflexivity|].
  split; [exact Hc|]. split; [exact Ha|].
  destruct attn_h as [h|].
  - destruct Hh as [Hne Hh]. split; [|exact Hh].
    destruct output_attn_h; [reflexivity|].
    exfalso. apply Hne. apply Hout. reflexivity.
  - apply Hout. exact Hh.
Qed.

Lemma forward_returns_documented_shapes_witness :
  exists c attn_h a,
    snd (forward (dot_softmax 1) (T2 [[Fin 1]]) [[[Fin 1]; [Fin 2]]]
                 (Some [1%Z]) None (Some (T2 [[Fin 1]])) None None)
    = Ok (c, attn_h, a)
    /\ has_shape [1; 1]%nat c
    /\ has_shape [1; 2]%nat a
    /\ match attn_h with
       | None => false = false
       | Some h => false = true /\ has_shape [1; 1]%nat h
       end.
Proof.
  apply (forward_returns_documented_shapes ones 1 false "dot" false false
           (dot_softmax 1) 1 1 2 1 (T2 [[Fin 1]]) [[[Fin 1]; [Fin 2]]]
           [1%Z] None (T2 [[Fin 1]]) None None);
    try reflexivity; try lia;
    try (split; [reflexivity | repeat constructor]);
    try discriminate.
Defined.

(** X2: [__init__] accepts exactly the three attention types and the two
    attention functions it names (compared as strings, so case matters): an
    unknown type raises the AssertionError that quotes it, whatever the
    attention function is; a known type with an unknown function raises the
    second AssertionError; otherwise a module is built, which holds the
    given dimension and rescaling flag. *)
Theorem init_validates_names :
  forall draw d coverage attn_type attn_func output_attn_h rescale,
    match __init__ draw d coverage attn_type attn_func output_attn_h rescale
    with
    | Ok self =>
        In attn_type ["dot"; "general"; "mlp"]%string
        /\ In attn_func ["softmax"; "sparsemax"]%string
        /\ dim self = d
        /\ seqHRE_attn_rescale self = rescale
    | Err e =>
        (~ In attn_type ["dot"; "general"; "mlp"]%string
         /\ e = AssertionError (type_msg attn_type))
        \/ (In attn_type ["dot"; "general"; "mlp"]%string
            /\ ~ In attn_func ["softmax"; "sparsemax"]%string
            /\ e = AssertionError func_msg)
    end.
Proof.
  intros draw d coverage attn_type attn_func output_attn_h rescale.
  unfold __init__.
  destruct (mem attn_type ["dot"; "general"; "mlp"]%string) eqn:Et;
    cbn [negb].
  - apply mem_In in Et.
    destruct (mem attn_func ["softmax"; "sparsemax"]%string) eqn:Ef;
      cbn [negb].
    + apply mem_In in Ef. cbn [dim seqHRE_attn_rescale]. tauto.
    + right. split; [exact Et|]. split; [|reflexivity].
      intros H. apply mem_In in H. congruence.
  - left. split; [|reflexivity].
    intros H. apply mem_In in H. congruence.
Qed.

(** X3: a module built without coverage has no [linear_cover]: a call that
    passes a coverage tensor gets through the size checks and then raises
    AttributeError on line 194, before the source bank is touched. *)
Theorem coverage_without_layer_raises :
  forall draw d attn_type attn_func output_attn_h rescale self
         source bank lens cov utr pos ids lengths,
    __init__ draw d false attn_type attn_func output_attn_h rescale
    = Ok self ->
    check_inputs self (promote source) bank lens (Some cov) (promote utr)
    = Ok lengths ->
    exists msg,
      forward self source bank lens (Some cov) (Some utr) pos ids
      = (bank, Err (AttributeError msg)).
Proof.
  intros draw d attn_type attn_func output_attn_h rescale self source bank
         lens cov utr pos ids lengths Hinit Hchk.
  destruct (init_returns _ _ _ _ _ _ _ _ Hinit)
    as (_ & _ & _ & _ & _ & Hcover).
  rewrite forward_unfold, Hchk. unfold inject_coverage.
  rewrite (proj2 Hcover eq_refl). eexists. reflexivity.
Qed.

Lemma coverage_without_layer_raises_witness :
  exists msg,
    forward (dot_softmax 1) (T2 [[Fin 1]]) [[[Fin 1]]] (Some [1%Z])
            (Some [[Fin 2]]) (Some (T2 [[Fin 1]])) None None
    = ([[[Fin 1]]], Err (AttributeError msg)).
Proof.
  apply (coverage_without_layer_raises ones 1 "dot" "softmax" false false
           (dot_softmax 1) (T2 [[Fin 1]]) [[[Fin 1]]] (Some [1%Z])
           [[Fin 2]] (T2 [[Fin 1]]) None None [1%Z]);
    reflexivity.
Defined.

(* ================================================================= *)
(** * The size checks of [score] *)

(** X4: on a source bank and a query without an empty batch, step or
    position axis, [score] compares the batch sizes, then the feature sizes
    of its two arguments, then the feature size with [self.dim]: it returns
    exactly when the three agree, and otherwise raises the [aeq] error of
    the first comparison that fails. *)
Theorem score_checks_sizes :
  forall self h_t h_s src_batch src_len src_dim tgt_batch tgt_len tgt_dim,
    (1 <= src_batch)%nat -> (1 <= src_len)%nat ->
    (1 <= tgt_batch)%nat -> (1 <= tgt_len)%nat ->
    shape3 src_batch src_len src_dim h_s ->
    shape3 tgt_batch tgt_len tgt_dim h_t ->
    match score self h_t h_s with
    | Ok _ => src_batch = tgt_batch /\ src_dim = tgt_dim /\ dim self = src_dim
    | Err e =>
        (src_batch <> tgt_batch /\ e = AeqError [src_batch; tgt_batch])
        \/ (src_batch = tgt_batch /\ src_dim <> tgt_dim
            /\ e = AeqError [src_dim; tgt_dim])
        \/ (src_batch = tgt_batch /\ src_dim = tgt_dim
            /\ dim self <> src_dim /\ e = AeqError [dim self; src_dim])
    end.
Proof.
  intros self h_t h_s src_batch src_len src_dim tgt_batch tgt_len tgt_dim
         Hsb Hsl Htb Htl Hs Ht.
  unfold score.
  rewrite (size3_shape3 _ _ _ _ Hsb Hsl Hs), (size3_shape3 _ _ _ _ Htb Htl Ht).
  rewrite !aeq_pair.
  destruct (Nat.eqb_spec src_batch tgt_batch) as [H1|H1]; cbn [bind];
    [|left; split; [exact H1 | reflexivity]].
  destruct (Nat.eqb_spec src_dim tgt_dim) as [H2|H2]; cbn [bind];
    [|right; left; repeat split; assumption].
  destruct (Nat.eqb_spec (dim self) src_dim) as [H3|H3]; cbn [bind];
    [|right; right; repeat split; assumption].
  destruct (attn_type_of self); repeat split; assumption.
Qed.

Lemma score_checks_sizes_witness :
  match score (dot_softmax 4) (promote (T2 query4)) bank5 with
  | Ok _ => 1%nat = 1%nat /\ 5%nat = 4%nat /\ dim (dot_softmax 4) = 5%nat
  | Err e =>
      (1%nat <> 1%nat /\ e = AeqError [1; 1]%nat)
      \/ (1%nat = 1%nat /\ 5%nat <> 4%nat /\ e = AeqError [5; 4]%nat)
      \/ (1%nat = 1%nat /\ 5%nat = 4%nat
          /\ dim (dot_softmax 4) <> 5%nat
          /\ e = AeqError [dim (dot_softmax 4); 5%nat])
  end.
Proof.
  apply (score_checks_sizes (dot_softmax 4) (promote (T2 query4)) bank5
           1 1 5 1 1 4);
    try lia;
    unfold bank5, query4;
    (split; [reflexivity | repeat constructor]).
Defined.

(** X5: the raw scores of a module built by [__init__], whatever its attention
    type: for a query of shape (batch, tgt_len, dim) and a source of shape
    (batch, src_len, dim), [score] returns a tensor of shape (batch,
    tgt_len, src_len). *)
Theorem score_has_documented_shape :
  forall draw d coverage attn_type attn_func output_attn_h rescale self
         (b t s : nat) h_t h_s,
    __init__ draw d coverage attn_type attn_func output_attn_h rescale
    = Ok self ->
    (1 <= b)%nat -> (1 <= t)%nat -> (1 <= s)%nat ->
    shape3 b t d h_t -> shape3 b s d h_s ->
    exists word_align,
      score self h_t h_s = Ok word_align /\ shape3 b t s word_align.
Proof.
  intros draw d coverage attn_type attn_func output_attn_h rescale self
         b t s h_t h_s Hinit Hb Ht Hs Hq Hm.
  destruct (init_returns _ _ _ _ _ _ _ _ Hinit) as (Hd & _ & Hfit & _).
  subst d. exact (score_returns self b t s h_t h_s Hb Ht Hs Hfit Hq Hm).
Qed.

Lemma score_has_documented_shape_witness :
  exists word_align,
    score (set_attn_type
             (Mlp (nn_Linear (ones "linear_context") 2 2 false)
                  (nn_Linear (ones "linear_query") 2 2 true)
                  (nn_Linear (ones "v") 2 1 false))
             (dot_softmax 2))
          [[[Fin 1; Fin 2]]] [[[Fin 1; Fin 0]; [Fin 0; Fin 1]; [Fin 3; Fin 4]]]
    = Ok word_align
    /\ shape3 1 1 3 word_align.
Proof.
  apply (score_has_documented_shape ones 2 false "mlp" "softmax" false false
           _ 1 1 3).
  - reflexivity.
  - lia.
  - lia.
  - lia.
  - split; [reflexivity | repeat constructor].
  - split; [reflexivity | repeat constructor].
Defined.

(** X6: inside [forward] the size checks of [score] never fire: once the checks
    of lines 175-190 have passed, and whether or not coverage was injected,
    [score] returns on the query and the source bank it is given. *)
Theorem score_checks_are_implied :
  forall draw d coverage attn_type attn_func output_attn_h rescale self
         source bank lens cov utr lengths buffer bank',
    __init__ draw d coverage attn_type attn_func output_attn_h rescale
    = Ok self ->
    check_inputs self source bank lens cov utr = Ok lengths ->
    inject_coverage self bank cov = Ok (buffer, bank') ->
    exists word_align, score self source bank' = Ok word_align.
Proof.
  intros draw d coverage attn_type attn_func output_attn_h rescale self
         source bank lens cov utr lengths buffer bank' Hinit Hchk Hinj.
  destruct (init_returns _ _ _ _ _ _ _ _ Hinit) as (_ & _ & Hfit & _).
  pose proof (check_inputs_ok _ _ _ _ _ _ _ Hchk)
    as (_ & H1 & _ & H2 & H3 & _ & Hcov).
  assert (Hsz : size3 bank' = size3 bank).
  { unfold inject_coverage in Hinj. destruct cov as [c|].
    - destruct (linear_cover self) as [layer|] eqn:E; [|discriminate].
      injection Hinj as _ <-. rewrite size3_tensor_tanh.
      destruct (Hcov c eq_refl) as [Hb Hs].
      apply size3_injected; try assumption.
      destruct Hfit as (_ & _ & Hlc). rewrite E in Hlc. congruence.
    - injection Hinj as _ <-. reflexivity. }
  unfold score. rewrite Hsz. unfold size3. unalias.
  rewrite (proj2 (aeq_pair_ok _ _) H1), (proj2 (aeq_pair_ok _ _) H2),
    (proj2 (aeq_pair_ok _ _) H3).
  cbn [bind]. destruct (attn_type_of self); eexists; reflexivity.
Qed.

Lemma score_checks_are_implied_witness :
  exists word_align,
    score with_coverage1 [[[Fin 1]]]
          (tensor_tanh
             (tensor_add [[[Fin 1]]] (project_coverage cover_layer1 [[Fin 2]])))
    = Ok word_align.
Proof.
  apply (score_checks_are_implied ones 1 true "dot" "softmax" false false
           with_coverage1 [[[Fin 1]]] [[[Fin 1]]] (Some [1%Z])
           (Some [[Fin 2]]) [[[Fin 1]]] [1%Z]
           (tensor_add [[[Fin 1]]] (project_coverage cover_layer1 [[Fin 2]])));
    reflexivity.
Defined.

(* ================================================================= *)
(** * The source bank at padded positions *)

Lemma singleton_hd {A} (default : A) (l : list A) :
  length l = 1%nat -> l = [hd default l].
Proof. destruct l as [|x [|y l]]; try discriminate. reflexivity. Qed.

Lemma concat_map_singletons {A B} (f : A -> list B) (default : B)
  (l : list A) :
  (forall x, length (f x) = 1%nat) ->
  concat (map f l) = map (fun x => hd default (f x)) l.
Proof.
  intros H. induction l as [|x l IH]; [reflexivity|].
  cbn [map concat]. rewrite IH, (singleton_hd default (f x) (H x)) at 1.
  reflexivity.
Qed.

(** Whatever the attention type, a score depends on one query and on one
    source vector. *)
Lemma score_pointwise (self : SeqHREWordGlobalAttention) (h_t : tensor3) :
  layers_fit self ->
  exists g qs,
    length qs = length h_t
    /\ forall h_s w, score self h_t h_s = Ok w -> w = scores_by g qs h_s.
Proof.
  intros (Hfit & _).
  destruct (attn_type_of self) as [|linear_in|lc lq v] eqn:E.
  - exists fdot, h_t. split; [reflexivity|]. intros h_s w H.
    unfold score in H. rewrite E in H.
    destruct (size3 h_s) as [[? ?] ?], (size3 h_t) as [[? ?] ?].
    apply bind_ok in H. destruct H as (? & _ & H).
    apply bind_ok in H. destruct H as (? & _ & H).
    apply bind_ok in H. destruct H as (? & _ & H).
    injection H as <-. reflexivity.
  - exists fdot, (map (map (linear linear_in)) h_t).
    split; [apply length_map|]. intros h_s w H.
    unfold score in H. rewrite E in H.
    destruct (size3 h_s) as [[? ?] ?], (size3 h_t) as [[? ?] ?].
    apply bind_ok in H. destruct H as (? & _ & H).
    apply bind_ok in H. destruct H as (? & _ & H).
    apply bind_ok in H. destruct H as (? & _ & H).
    injection H as <-. reflexivity.
  - exists (fun q s => hd NaN (linear v (map ftanh (vadd q (linear lc s))))),
      (map (map (linear lq)) h_t).
    split; [apply length_map|]. intros h_s w H.
    unfold score in H. rewrite E in H.
    destruct (size3 h_s) as [[? ?] ?], (size3 h_t) as [[? ?] ?].
    apply bind_ok in H. destruct H as (? & _ & H).
    apply bind_ok in H. destruct H as (? & _ & H).
    apply bind_ok in H. destruct H as (? & _ & H).
    injection H as <-. unfold mlp_scores, scores_by.
    rewrite zip_with_map_r. unfold zip_with. apply map_ext.
    intros [wqb mb]. cbn [fst snd]. apply map_ext. intros q.
    rewrite map_map.
    apply (concat_map_singletons
             (fun s => linear v (map ftanh (vadd q (linear lc s)))) NaN).
    intros s. rewrite length_linear. exact Hfit.
Qed.

Lemma score_ok_batch (self : SeqHREWordGlobalAttention)
  (h_t h_s w : tensor3) :
  score self h_t h_s = Ok w -> length h_s = length h_t.
Proof.
  unfold score, size3. intros H.
  apply bind_ok in H. destruct H as ([] & H & _).
  apply aeq_pair_ok in H. exact H.
Qed.

(** Whether [score] raises, and what, depends on the sizes only. *)
Lemma score_sizes_only (self : SeqHREWordGlobalAttention)
  (h_t bank1 bank2 : tensor3) :
  size3 bank1 = size3 bank2 ->
  match score self h_t bank1, score self h_t bank2 with
  | Ok _, Ok _ => True
  | Err e1, Err e2 => e1 = e2
  | _, _ => False
  end.
Proof.
  intros Hsz. unfold score. rewrite Hsz.
  destruct (size3 bank2) as [[sb sl] sd], (size3 h_t) as [[tb tl] td].
  destruct (aeq_cases [sb; tb]) as [H|H]; rewrite H; cbn [bind];
    [|reflexivity].
  destruct (aeq_cases [sd; td]) as [H'|H']; rewrite H'; cbn [bind];
    [|reflexivity].
  destruct (aeq_cases [dim self; sd]) as [H''|H'']; rewrite H''; cbn [bind];
    [|reflexivity].
  destruct (attn_type_of self); exact I.
Qed.

Lemma shape3_size3_eq (b s d : nat) (x y : tensor3) :
  shape3 b s d x -> shape3 b s d y -> size3 x = size3 y.
Proof.
  intros [Hx Fx] [Hy Fy]. unfold size3.
  destruct x as [|mx x], y as [|my y]; try (simpl in *; congruence).
  apply Forall_inv in Fx, Fy. destruct Fx as [Hmx Rx], Fy as [Hmy Ry].
  cbn [hd]. unalias.
  destruct mx as [|rx mx], my as [|ry my]; try (simpl in *; congruence).
  apply Forall_inv in Rx, Ry. cbn [hd]. simpl in *. congruence.
Qed.

(** Masking one row of scores: only the entries before the length count. *)
Lemma fill_row_agree (len : Z) (r1 r2 : vec) :
  forall a k,
    length r1 = length r2 ->
    (forall j, (a + j < Z.to_nat len)%nat ->
               nth_error r1 j = nth_error r2 j) ->
    fill_row r1 (map (fun i => (Z.of_nat i <? len)%Z) (seq a k))
    = fill_row r2 (map (fun i => (Z.of_nat i <? len)%Z) (seq a k)).
Proof.
  revert r2. induction r1 as [|x r1 IH]; intros [|y r2] a k Hl H;
    try discriminate; [reflexivity|].
  destruct k as [|k]; [reflexivity|].
  cbn [seq map]. unfold fill_row in *. rewrite !zip_with_cons.
  f_equal.
  - destruct (Z.ltb_spec (Z.of_nat a) len) as [Hlt|Hge]; [|reflexivity].
    specialize (H 0%nat ltac:(lia)). simpl in H. congruence.
  - apply IH; [simpl in Hl; lia|].
    intros j Hj. apply (H (S j)). lia.
Qed.

Lemma size_last_scores_by (g : vec -> vec -> fval) (b s d : nat)
  (qs bank1 bank2 : tensor3) :
  shape3 b s d bank1 -> shape3 b s d bank2 ->
  size_last (scores_by g qs bank1) = size_last (scores_by g qs bank2).
Proof.
  intros [H1 F1] [H2 F2]. unfold size_last, size3, scores_by. cbn [snd].
  destruct qs as [|ab qs]; [reflexivity|].
  destruct bank1 as [|m1 bank1], bank2 as [|m2 bank2];
    try (simpl in *; congruence).
  rewrite !zip_with_cons. cbn [hd].
  destruct ab as [|q ab]; [reflexivity|]. cbn [map hd].
  rewrite !length_map.
  apply Forall_inv in F1, F2. destruct F1 as [L1 _], F2 as [L2 _].
  unalias. congruence.
Qed.

(** Lines 201-211 on the scores of two source banks which differ at padded
    positions only: the same attention distribution, or the same error. *)
Lemma masked_scores_agree (f : attn_func) (g : vec -> vec -> fval)
  (b s d : nat) (lens : list Z) (qs bank1 bank2 : tensor3) :
  shape3 b s d bank1 -> shape3 b s d bank2 ->
  length lens = b -> length qs = b ->
  agree_on_valid lens bank1 bank2 ->
  masked_normalize f lens (scores_by g qs bank1)
  = masked_normalize f lens (scores_by g qs bank2).
Proof.
  intros Hm1 Hm2 Hl Hq Hag. unfold masked_normalize.
  rewrite (size_last_scores_by g b s d qs bank1 bank2 Hm1 Hm2).
  set (k := size_last (scores_by g qs bank2)).
  assert (Hlen : forall bank, shape3 b s d bank ->
                              length lens = length (scores_by g qs bank)).
  { intros bank Hbank. unfold scores_by. rewrite length_zip_with.
    pose proof (shape3_length _ _ _ _ Hbank). unalias. lia. }
  rewrite !masked_fill_same_length by (apply Hlen; assumption).
  cbn [bind]. f_equal. apply nth_error_ext. intros bi.
  rewrite !nth_error_zip_with. unfold scores_by.
  rewrite !nth_error_zip_with. unalias.
  destruct (nth_error qs bi) as [ab|]; [|reflexivity].
  destruct (nth_error bank1 bi) as [m1|] eqn:E1,
           (nth_error bank2 bi) as [m2|] eqn:E2.
  - destruct (nth_error lens bi) as [len|] eqn:El; [|reflexivity].
    f_equal. rewrite !map_map. apply map_ext. intros q.
    apply fill_row_agree.
    + rewrite !length_map.
      destruct (shape3_In _ _ _ _ _ Hm1 (nth_error_In _ _ E1)) as [L1 _].
      destruct (shape3_In _ _ _ _ _ Hm2 (nth_error_In _ _ E2)) as [L2 _].
      unalias. congruence.
    + intros j Hj. rewrite !nth_error_map.
      pose proof (Hag bi len j El ltac:(lia)) as H.
      unfold row_at in H. unalias. rewrite E1, E2 in H. rewrite H.
      reflexivity.
  - exfalso. apply nth_error_None in E2.
    assert (nth_error bank1 bi <> None) as Hs by congruence.
    apply nth_error_Some in Hs.
    pose proof (shape3_length _ _ _ _ Hm1).
    pose proof (shape3_length _ _ _ _ Hm2). unalias. lia.
  - exfalso. apply nth_error_None in E1.
    assert (nth_error bank2 bi <> None) as Hs by congruence.
    apply nth_error_Some in Hs.
    pose proof (shape3_length _ _ _ _ Hm1).
    pose proof (shape3_length _ _ _ _ Hm2). unalias. lia.
  - reflexivity.
Qed.

(** X7: the attention distribution of lines 199-229 does not depend on what the
    source bank holds at padded positions: for a module built by [__init__]
    (any attention type, softmax or sparsemax, rescaling or not), two source
    banks of one shape which hold the same vectors at the positions before
    the lengths give the same distribution, or the same error. *)
Theorem attention_ignores_padding :
  forall draw dm coverage attn_type attn_func output_attn_h rescale self
         (b s d : nat) source bank1 bank2 lens utr ids,
    __init__ draw dm coverage attn_type attn_func output_attn_h rescale
    = Ok self ->
    shape3 b s d bank1 -> shape3 b s d bank2 ->
    length lens = b ->
    agree_on_valid lens bank1 bank2 ->
    attention self source bank1 lens utr ids
    = attention self source bank2 lens utr ids.
Proof.
  intros draw dm coverage attn_type attn_func output_attn_h rescale self
         b s d source bank1 bank2 lens utr ids Hinit Hm1 Hm2 Hl Hag.
  destruct (init_returns _ _ _ _ _ _ _ _ Hinit) as (_ & _ & Hfit & _).
  destruct (score_pointwise self source Hfit) as (g & qs & Hqs & Hg).
  pose proof (score_sizes_only self source bank1 bank2
                (shape3_size3_eq _ _ _ _ _ Hm1 Hm2)) as Hsz.
  unfold attention.
  destruct (score self source bank1) as [w1|e1] eqn:E1,
           (score self source bank2) as [w2|e2] eqn:E2;
    cbn in Hsz; try contradiction; [|subst e2; reflexivity].
  rewrite (Hg bank1 w1 E1), (Hg bank2 w2 E2). cbn [bind].
  assert (Hb : length qs = b).
  { rewrite Hqs, <- (score_ok_batch _ _ _ _ E1).
    exact (shape3_length _ _ _ _ Hm1). }
  rewrite (masked_scores_agree (attn_func_of self) g b s d lens qs bank1
             bank2 Hm1 Hm2 Hl Hb Hag).
  reflexivity.
Qed.

Lemma attention_ignores_padding_witness :
  attention (dot_softmax 1) [[[Fin 1]]] [[[Fin 1]; [Fin 5]]] [1%Z] [] None
  = attention (dot_softmax 1) [[[Fin 1]]] [[[Fin 1]; [Fin 7]]] [1%Z] [] None.
Proof.
  apply (attention_ignores_padding ones 1 false "dot" "softmax" false false
           (dot_softmax 1) 1 2 1).
  - reflexivity.
  - split; [reflexivity | repeat constructor].
  - split; [reflexivity | repeat constructor].
  - reflexivity.
  - intros [|bi] len j H Hj; [|destruct bi; discriminate].
    injection H as <-. destruct j as [|j]; [reflexivity | simpl in Hj; lia].
Defined.

(* ================================================================= *)
(** * The context vector: line 234 *)

Section Context.

Open Scope R_scope.

Lemma fmul_zero_fin (y : R) : fmul (Fin 0) (Fin y) = Fin 0.
Proof. cbn [fmul]. f_equal. lra. Qed.

Lemma nth_finite (k : nat) (v : vec) :
  Forall (fun x => is_finite x = true) v ->
  exists y, nth k v (Fin 0) = Fin y.
Proof.
  intros H. destruct (nth_in_or_default k v (Fin 0)) as [Hin | ->].
  - rewrite Forall_forall in H. specialize (H _ Hin).
    destruct (nth k v (Fin 0)) as [y| | |]; try discriminate.
    exists y. reflexivity.
  - exists 0. reflexivity.
Qed.

(** One row of [bmm]: source vectors under a zero weight do not count, as
    long as their entries are finite. *)
Lemma weighted_row_agree (d n : nat) (w : vec) (m1 m2 : mat) :
  length m1 = length m2 ->
  (forall j, (j < n)%nat -> nth_error m1 j = nth_error m2 j) ->
  (forall j, (n <= j < length w)%nat -> nth_error w j = Some (Fin 0)) ->
  (forall j v, (n <= j)%nat ->
               nth_error m1 j = Some v \/ nth_error m2 j = Some v ->
               Forall (fun x => is_finite x = true) v) ->
  weighted_row d w m1 = weighted_row d w m2.
Proof.
  intros Hl Hsame Hzero Hfin. unfold weighted_row. unalias.
  apply map_ext. intros k. f_equal. apply nth_error_ext. intros j.
  rewrite !nth_error_zip_with.
  destruct (nth_error w j) as [wj|] eqn:Ew; [|reflexivity].
  destruct (Nat.lt_ge_cases j n) as [Hlt|Hge].
  - rewrite (Hsame j Hlt). reflexivity.
  - assert (Hj : (j < length w)%nat).
    { apply nth_error_Some. congruence. }
    rewrite (Hzero j (conj Hge Hj)) in Ew. injection Ew as <-.
    destruct (nth_error m1 j) as [v1|] eqn:E1,
             (nth_error m2 j) as [v2|] eqn:E2.
    + destruct (nth_finite k v1 (Hfin j v1 Hge (or_introl E1))) as (y1 & ->).
      destruct (nth_finite k v2 (Hfin j v2 Hge (or_intror E2))) as (y2 & ->).
      rewrite !fmul_zero_fin. reflexivity.
    + exfalso. apply nth_error_None in E2.
      assert (nth_error m1 j <> None) as Hs by congruence.
      apply nth_error_Some in Hs. lia.
    + exfalso. apply nth_error_None in E1.
      assert (nth_error m2 j <> None) as Hs by congruence.
      apply nth_error_Some in Hs. lia.
    + reflexivity.
Qed.

End Context.

Lemma row_at_bmm (d : nat) (a bank : tensor3) (bi ti : nat) (w : vec)
  (m : mat) :
  row_at a bi ti = Some w -> nth_error bank bi = Some m ->
  row_at (bmm d a bank) bi ti = Some (weighted_row d w m).
Proof.
  unfold row_at, bmm. unalias. intros Hw Hm.
  rewrite nth_error_zip_with, Hm.
  destruct (nth_error a bi) as [ab|]; [|discriminate].
  rewrite nth_error_map, Hw. reflexivity.
Qed.

(** X8: the context vectors of line 234 do not depend on what the source bank
    holds at padded positions, provided the attention weights are exactly
    zero there and the entries of the bank there are finite numbers. *)
Theorem context_ignores_padding :
  forall (b t s d dm : nat) (lens : list Z) (a bank1 bank2 : tensor3),
    shape3 b t s a ->
    shape3 b s d bank1 -> shape3 b s d bank2 ->
    length lens = b ->
    agree_on_valid lens bank1 bank2 ->
    (forall bi ti len row j,
        nth_error lens bi = Some len ->
        row_at a bi ti = Some row ->
        (Z.to_nat len <= j < s)%nat ->
        nth_error row j = Some (Fin 0%R)) ->
    (forall bi len j v,
        nth_error lens bi = Some len ->
        (Z.to_nat len <= j)%nat ->
        row_at bank1 bi j = Some v \/ row_at bank2 bi j = Some v ->
        Forall (fun x => is_finite x = true) v) ->
    bmm dm a bank1 = bmm dm a bank2.
Proof.
  intros b t s d dm lens a bank1 bank2 Ha Hm1 Hm2 Hl Hag Hzero Hfin.
  unfold bmm. apply nth_error_ext. intros bi.
  rewrite !nth_error_zip_with. unalias.
  destruct (nth_error a bi) as [ab|] eqn:Ea; [|reflexivity].
  destruct (nth_error bank1 bi) as [m1|] eqn:E1,
           (nth_error bank2 bi) as [m2|] eqn:E2.
  - f_equal.
    assert (Hbi : (bi < length lens)%nat).
    { rewrite Hl, <- (shape3_length _ _ _ _ Ha). unalias.
      apply nth_error_Some. congruence. }
    destruct (nth_error lens bi) as [len|] eqn:El;
      [|apply nth_error_None in El; lia].
    destruct (shape3_In _ _ _ _ _ Hm1 (nth_error_In _ _ E1)) as [L1 _].
    destruct (shape3_In _ _ _ _ _ Hm2 (nth_error_In _ _ E2)) as [L2 _].
    apply map_ext_in. intros w Hw.
    destruct (In_nth_error _ _ Hw) as [ti Hti].
    assert (Hrow : row_at a bi ti = Some w).
    { unfold row_at. unalias. rewrite Ea. exact Hti. }
    apply (weighted_row_agree dm (Z.to_nat len)).
    + unalias. congruence.
    + intros j Hj. pose proof (Hag bi len j El Hj) as H.
      unfold row_at in H. unalias. rewrite E1, E2 in H. exact H.
    + intros j Hj. apply (Hzero bi ti len w j El Hrow).
      rewrite (shape3_row _ _ _ _ _ _ _ Ha Hrow) in Hj. exact Hj.
    + intros j v Hj Hv. apply (Hfin bi len j v El Hj).
      unfold row_at. unalias. rewrite E1, E2. exact Hv.
  - exfalso. apply nth_error_None in E2.
    assert (nth_error bank1 bi <> None) as Hs by congruence.
    apply nth_error_Some in Hs.
    pose proof (shape3_length _ _ _ _ Hm1).
    pose proof (shape3_length _ _ _ _ Hm2). unalias. lia.
  - exfalso. apply nth_error_None in E1.
    assert (nth_error bank2 bi <> None) as Hs by congruence.
    apply nth_error_Some in Hs.
    pose proof (shape3_length _ _ _ _ Hm1).
    pose proof (shape3_length _ _ _ _ Hm2). unalias. lia.
  - reflexivity.
Qed.

Lemma context_ignores_padding_witness :
  bmm 1 [[[Fin 1; Fin 0]]] [[[Fin 1]; [Fin 5]]]
  = bmm 1 [[[Fin 1; Fin 0]]] [[[Fin 1]; [Fin 7]]].
Proof.
  apply (context_ignores_padding 1 1 2 1 1 [1%Z]).
  - split; [reflexivity | repeat constructor].
  - split; [reflexivity | repeat constructor].
  - split; [reflexivity | repeat constructor].
  - reflexivity.
  - intros [|bi] len j H Hj; [|destruct bi; discriminate].
    injection H as <-. destruct j as [|j]; [reflexivity | simpl in Hj; lia].
  - intros [|bi] ti len row j H Hr Hj; [|destruct bi; discriminate].
    injection H as <-. destruct ti as [|ti]; [|destruct ti; discriminate].
    injection Hr as <-.
    destruct j as [|[|j]]; simpl in Hj; try lia. reflexivity.
  - intros [|bi] len j v H Hj Hv; [|destruct bi; discriminate].
    injection H as <-.
    destruct j as [|[|j]]; simpl in Hj; try lia.
    + destruct Hv as [Hv|Hv]; injection Hv as <-; repeat constructor.
    + destruct Hv as [Hv|Hv]; destruct j; discriminate.
Defined.

Section ContextContamination.

Open Scope R_scope.

Lemma fsum_with_nan (l : vec) : In NaN l -> fsum l = NaN.
Proof.
  induction l as [|x l IH]; intros H; [contradiction|].
  cbn [fsum fold_right]. fold (fsum l). destruct H as [->|H].
  - reflexivity.
  - rewrite (IH H). destruct x; reflexivity.
Qed.

Lemma fmul_zero_not_finite (x : fval) :
  is_finite x = false -> fmul (Fin 0) x = NaN.
Proof.
  destruct x as [r| | |]; intros H; try discriminate; cbn [fmul].
  - rewrite Rsign_zero. reflexivity.
  - replace (- 0) with 0 by lra. rewrite Rsign_zero. reflexivity.
  - reflexivity.
Qed.

End ContextContamination.

(** X9: line 234 multiplies every source vector by its weight, also where the
    weight is exactly zero: an infinity or a NaN in a source vector, at a
    padded position or elsewhere, makes the corresponding feature of the
    context vector NaN. *)
Theorem context_nan_from_zero_weight :
  forall (d : nat) (a bank : tensor3) (bi ti j k : nat) (w v : vec)
         (x : fval),
    row_at a bi ti = Some w ->
    nth_error w j = Some (Fin 0%R) ->
    row_at bank bi j = Some v ->
    nth_error v k = Some x ->
    is_finite x = false ->
    (k < d)%nat ->
    exists c,
      row_at (bmm d a bank) bi ti = Some c /\ nth_error c k = Some NaN.
Proof.
  intros d a bank bi ti j k w v x Hw Hj Hv Hk Hx Hd.
  unfold row_at in Hv. unalias.
  destruct (nth_error bank bi) as [m|] eqn:Em; [|discriminate].
  exists (weighted_row d w m).
  split; [exact (row_at_bmm d a bank bi ti w m Hw Em)|].
  unfold weighted_row. rewrite nth_error_map, nth_error_seq.
  destruct (Nat.ltb_spec k d); [|lia]. cbn [option_map Nat.add]. f_equal.
  apply fsum_with_nan.
  apply (nth_error_In _ j). rewrite nth_error_zip_with, Hj, Hv. f_equal.
  rewrite (nth_error_nth _ _ _ Hk). apply fmul_zero_not_finite. exact Hx.
Qed.

Lemma context_nan_from_zero_weight_witness :
  exists c,
    row_at (bmm 1 [[[Fin 1; Fin 0]]] [[[Fin 1]; [PInf]]]) 0 0 = Some c
    /\ nth_error c 0 = Some NaN.
Proof.
  apply (context_nan_from_zero_weight 1 [[[Fin 1; Fin 0]]]
           [[[Fin 1]; [PInf]]] 0 0 1 0 [Fin 1; Fin 0] [PInf] PInf);
    try reflexivity.
  lia.
Defined.

(* ================================================================= *)
(** * Softmax weights and the renormalization term *)

Section SoftmaxWeights.

Open Scope R_scope.

Lemma Rsum_ge_member (l : list R) (x : R) :
  Forall (fun y => 0 <= y) l -> In x l -> 0 <= Rsum l /\ x <= Rsum l.
Proof.
  induction 1 as [|y l Hy Hl IH]; intros Hin; [contradiction|].
  cbn [Rsum fold_right]. fold (Rsum l).
  assert (H0 : 0 <= Rsum l).
  { clear IH Hin. induction Hl as [|z l Hz _ IH]; simpl; [lra|].
    fold (Rsum l). lra. }
  destruct Hin as [->|Hin]; [lra|].
  destruct (IH Hin). lra.
Qed.

Lemma Rsoftmax_entry (m : R) (xs : list R) (p : R) :
  In p (Rsoftmax m xs) -> 0 < p <= 1.
Proof.
  unfold Rsoftmax. cbv zeta. intros Hin. apply in_map_iff in Hin.
  destruct Hin as (e & <- & He).
  set (es := map (fun x => exp (x + - m)) xs) in *.
  assert (Hnn : Forall (fun y => 0 <= y) es).
  { apply Forall_forall. intros y Hy. apply in_map_iff in Hy.
    destruct Hy as (x & <- & _). pose proof (exp_pos (x + - m)). lra. }
  assert (Hpos : 0 < e).
  { apply in_map_iff in He. destruct He as (x & <- & _). apply exp_pos. }
  destruct (Rsum_ge_member es e Hnn He) as [_ Hle].
  assert (HS : 0 < Rsum es) by lra.
  pose proof (Rinv_0_lt_compat _ HS) as Hinv.
  assert (Hone : Rsum es * / Rsum es = 1) by (apply Rinv_r; lra).
  unfold Rdiv. split; [apply Rmult_lt_0_compat; assumption|]. nra.
Qed.

(** Line 208 on a masked row with a finite score before the length. *)
Lemma masked_softmax_row (len : Z) (r : vec) :
  (1 <= len)%Z -> r <> [] -> finite_prefix len r ->
  exists m xs,
    length xs = Nat.min (Z.to_nat len) (length r)
    /\ xs <> []
    /\ softmax (fill_row r (map (fun i => (Z.of_nat i <? len)%Z)
                                (seq 0 (length r))))
       = padded (Rsoftmax m xs) (length r - Z.to_nat len).
Proof.
  intros Hlen Hrow Hfin.
  rewrite fill_row_seq, Nat.sub_0_r.
  destruct (finite_as_map _ (finite_prefix_firstn len r Hfin)) as [xs Hxs].
  rewrite Hxs. fold (masked xs (length r - Z.to_nat len)).
  assert (Hlx : length xs = Nat.min (Z.to_nat len) (length r)).
  { rewrite <- (length_map Fin xs), <- Hxs. apply length_firstn. }
  assert (Hne : xs <> []).
  { intros ->. destruct r; [contradiction|]. simpl in Hlx. lia. }
  destruct (softmax_masked xs (length r - Z.to_nat len) Hne) as [m Hm].
  exists m, xs. split; [exact Hlx|]. split; [exact Hne | exact Hm].
Qed.

Lemma length_Rsoftmax (m : R) (xs : list R) :
  length (Rsoftmax m xs) = length xs.
Proof. unfold Rsoftmax. cbv zeta. rewrite !length_map. reflexivity. Qed.

Lemma softmax_row_positive (len : Z) (r : vec) (i : nat) :
  (1 <= len)%Z -> finite_prefix len r ->
  (i < Z.to_nat len)%nat -> (i < length r)%nat ->
  exists p,
    nth_error (softmax (fill_row r (map (fun i => (Z.of_nat i <? len)%Z)
                                        (seq 0 (length r))))) i
    = Some (Fin p)
    /\ 0 < p <= 1.
Proof.
  intros Hlen Hfin Hi Hir.
  assert (Hrow : r <> []) by (intros ->; simpl in Hir; lia).
  destruct (masked_softmax_row len r Hlen Hrow Hfin)
    as (m & xs & Hlx & _ & ->).
  unfold padded. rewrite nth_error_app1
    by (rewrite length_map, length_Rsoftmax; lia).
  rewrite nth_error_map.
  destruct (nth_error (Rsoftmax m xs) i) as [p|] eqn:E.
  - exists p. split; [reflexivity|].
    exact (Rsoftmax_entry m xs p (nth_error_In _ _ E)).
  - apply nth_error_None in E. rewrite length_Rsoftmax in E. lia.
Qed.

End SoftmaxWeights.

Lemma row_at_masked_softmax (lens : list Z) (word_align : tensor3)
  (bi ti : nat) (len : Z) (r : vec) :
  nth_error lens bi = Some len ->
  row_at word_align bi ti = Some r ->
  row_at (map (map softmax)
              (zip_with
                 (fun m len =>
                    map (fun r =>
                           fill_row r
                             (map (fun i => (Z.of_nat i <? len)%Z)
                                  (seq 0 (size_last word_align))))
                        m)
                 word_align lens)) bi ti
  = Some (softmax (fill_row r (map (fun i => (Z.of_nat i <? len)%Z)
                                   (seq 0 (size_last word_align))))).
Proof.
  unfold row_at. unalias. intros Hl Hr.
  rewrite nth_error_map, nth_error_zip_with, Hl.
  destruct (nth_error word_align bi) as [m|]; [|discriminate].
  cbn [option_map]. rewrite !nth_error_map, Hr. reflexivity.
Qed.

Section FiniteRenormalization.

Open Scope R_scope.

Lemma renormalize_fin (qs : list R) :
  Rsum qs <> 0 ->
  renormalize (map Fin qs) = map Fin (map (fun q => q / Rsum qs) qs).
Proof.
  intros Hnt. unfold renormalize, norm_term. rewrite fsum_map_Fin, !map_map.
  apply map_ext. intros q. apply fdiv_fin. exact Hnt.
Qed.

End FiniteRenormalization.

(* ================================================================= *)
(** * The outcome of the renormalization: lines 228-229 *)

Section Renormalization.

Open Scope R_scope.

Lemma Rsign_nonzero (x : R) : x <> 0 -> Rsign x <> Zero.
Proof.
  intros Hx. unfold Rsign.
  destruct (total_order_T x 0) as [[H|H]|H]; try discriminate.
  contradiction.
Qed.

(** Dividing by a zero sum leaves no finite number. *)
Lemma fdiv_by_zero_not_finite (q : R) :
  is_finite (fdiv (Fin q) (Fin 0)) = false.
Proof.
  unfold fdiv. destruct (Req_dec_T 0 0) as [_|H]; [|contradiction].
  destruct (Rsign q); reflexivity.
Qed.

Lemma renormalize_sum_one (row : vec) (nt : R) :
  norm_term row = Fin nt -> nt <> 0 -> fsum (renormalize row) = Fin 1.
Proof.
  intros Hn Hnt. unfold norm_term in Hn.
  destruct (fsum_fin_inv _ _ Hn) as (qs & -> & Hs).
  rewrite renormalize_fin by (rewrite Hs; exact Hnt).
  rewrite fsum_map_Fin, Rsum_scale, Hs. f_equal. field. exact Hnt.
Qed.

Lemma renormalize_by_zero (row : vec) :
  norm_term row = Fin 0 ->
  Forall (fun x => is_finite x = false) (renormalize row).
Proof.
  intros Hn. unfold renormalize. rewrite Hn. unfold norm_term in Hn.
  destruct (fsum_fin_inv _ _ Hn) as (qs & -> & _).
  rewrite map_map. apply Forall_forall. intros x Hx.
  apply in_map_iff in Hx. destruct Hx as (q & <- & _).
  apply fdiv_by_zero_not_finite.
Qed.

(** Two weights reweighted by one and the same coarse weight: whenever both
    results are finite numbers, they are in the ratio of the weights. *)
Lemma ratio_kept (ai aj oi oj : R) (y N : fval) :
  fdiv (fmul (Fin ai) y) N = Fin oi ->
  fdiv (fmul (Fin aj) y) N = Fin oj ->
  oi * aj = oj * ai.
Proof.
  destruct y as [c| | |]; cbn [fmul].
  - destruct N as [nt| | |]; cbn [fdiv]; try discriminate.
    + destruct (Req_dec_T nt 0) as [_|Hnt].
      * destruct (Rsign (ai * c)); discriminate.
      * intros Hi Hj. injection Hi as <-. injection Hj as <-. field.
        exact Hnt.
    + intros Hi Hj. injection Hi as <-. injection Hj as <-. lra.
    + intros Hi Hj. injection Hi as <-. injection Hj as <-. lra.
  - destruct (Rsign ai), N as [nt| | |]; cbn [inf_of fdiv];
      try discriminate;
      destruct (Rlt_dec nt 0); discriminate.
  - destruct (Rsign (- ai)), N as [nt| | |]; cbn [inf_of fdiv];
      try discriminate;
      destruct (Rlt_dec nt 0); discriminate.
  - destruct N; discriminate.
Qed.

End Renormalization.

(** X12: the rescaling of lines 213-229 on agreeing shapes, with in-range ids:
    it returns, and a row whose renormalization term is a finite number
    other than zero sums to exactly 1, while a row whose renormalization
    term is zero holds no finite number at all. *)
Theorem rescaled_rows_sum_to_one :
  forall (b t s n : nat) (lens : list Z) (utr : tensor3)
         (ids : list (list Z)) (align : tensor3),
    shape3 b t n utr ->
    ids_in_range b s n ids ->
    shape3 b t s align ->
    exists out,
      hre_rescale lens utr (Some (ids, lens)) align = Ok out
      /\ forall bi ti a e,
          row_at align bi ti = Some a ->
          row_at (expanded utr ids) bi ti = Some e ->
          exists row,
            row_at out bi ti = Some row
            /\ (forall nt,
                   norm_term (zip_with fmul a e) = Fin nt -> nt <> 0%R ->
                   fsum row = Fin 1%R)
            /\ (norm_term (zip_with fmul a e) = Fin 0%R ->
                Forall (fun x => is_finite x = false) row).
Proof.
  intros b t s n lens utr ids align Hutr Hids Halign.
  exists (rescaled align (expanded utr ids)).
  split; [exact (hre_rescale_closed b t s n utr ids align Hutr Hids Halign
                   lens)|].
  intros bi ti a e Ha He.
  exists (renormalize (zip_with fmul a e)).
  split; [exact (row_at_rescaled _ _ _ _ _ _ Ha He)|]. split.
  - intros nt Hn Hnt. exact (renormalize_sum_one _ nt Hn Hnt).
  - exact (renormalize_by_zero _).
Qed.

Lemma rescaled_rows_sum_to_one_witness :
  exists out,
    hre_rescale [1%Z] [[[Fin 1; Fin 0]]] (Some ([[0%Z; 1%Z]], [1%Z]))
                [[[Fin 1; Fin 0]]] = Ok out
    /\ forall bi ti a e,
        row_at [[[Fin 1; Fin 0]]] bi ti = Some a ->
        row_at (expanded [[[Fin 1; Fin 0]]] [[0%Z; 1%Z]]) bi ti = Some e ->
        exists row,
          row_at out bi ti = Some row
          /\ (forall nt,
                 norm_term (zip_with fmul a e) = Fin nt -> nt <> 0%R ->
                 fsum row = Fin 1%R)
          /\ (norm_term (zip_with fmul a e) = Fin 0%R ->
              Forall (fun x => is_finite x = false) row).
Proof.
  apply (rescaled_rows_sum_to_one 1 1 2 2 [1%Z] [[[Fin 1; Fin 0]]]
           [[0%Z; 1%Z]] [[[Fin 1; Fin 0]]]).
  - split; [reflexivity | repeat constructor].
  - split; [reflexivity|]. repeat constructor; lia.
  - split; [reflexivity | repeat constructor].
Defined.

(** X13: rescaling keeps the ratios inside an utterance: for two source
    positions assigned to the same unit, whenever the two rescaled weights
    are finite numbers they are in the same ratio as the two word-level
    weights. *)
Theorem rescale_keeps_ratios_within_unit :
  forall (b t s n : nat) (lens : list Z) (utr : tensor3)
         (ids : list (list Z)) (align : tensor3),
    shape3 b t n utr ->
    ids_in_range b s n ids ->
    shape3 b t s align ->
    exists out,
      hre_rescale lens utr (Some (ids, lens)) align = Ok out
      /\ forall bi ti a idb row i j id ai aj oi oj,
          row_at align bi ti = Some a ->
          nth_error ids bi = Some idb ->
          row_at out bi ti = Some row ->
          nth_error idb i = Some id -> nth_error idb j = Some id ->
          nth_error a i = Some (Fin ai) -> nth_error a j = Some (Fin aj) ->
          nth_error row i = Some (Fin oi) ->
          nth_error row j = Some (Fin oj) ->
          (oi * aj = oj * ai)%R.
Proof.
  intros b t s n lens utr ids align Hutr Hids Halign.
  exists (rescaled align (expanded utr ids)).
  split; [exact (hre_rescale_closed b t s n utr ids align Hutr Hids Halign
                   lens)|].
  intros bi ti a idb row i j id ai aj oi oj Ha Hidb Hrow Hi Hj Hai Haj
         Hoi Hoj.
  destruct (shape3_row_at_bounds _ _ _ _ _ _ _ Halign Ha) as [Hbi Hti].
  destruct (shape3_row_at_some _ _ _ _ bi ti (expanded_shape b t s n utr ids
                                                Hutr Hids) Hbi Hti)
    as [e He].
  rewrite (row_at_rescaled _ _ _ _ _ _ Ha He) in Hrow.
  injection Hrow as <-.
  destruct (row_at_expanded _ _ _ _ _ He) as (u & idb' & _ & Hidb' & ->).
  rewrite Hidb in Hidb'. injection Hidb' as <-.
  unfold renormalize in Hoi, Hoj.
  rewrite nth_error_map, nth_error_zip_with, nth_error_map in Hoi, Hoj.
  rewrite Hai, Hi in Hoi. rewrite Haj, Hj in Hoj.
  cbn [option_map] in Hoi, Hoj.
  injection Hoi as Hoi. injection Hoj as Hoj.
  exact (ratio_kept ai aj oi oj _ _ Hoi Hoj).
Qed.

Lemma rescale_keeps_ratios_within_unit_witness :
  exists out,
    hre_rescale [2%Z] [[[Fin 1; Fin 0]]] (Some ([[0%Z; 0%Z]], [2%Z]))
                [[[Fin 1; Fin 3]]] = Ok out
    /\ forall bi ti a idb row i j id ai aj oi oj,
        row_at [[[Fin 1; Fin 3]]] bi ti = Some a ->
        nth_error [[0%Z; 0%Z]] bi = Some idb ->
        row_at out bi ti = Some row ->
        nth_error idb i = Some id -> nth_error idb j = Some id ->
        nth_error a i = Some (Fin ai) -> nth_error a j = Some (Fin aj) ->
        nth_error row i = Some (Fin oi) ->
        nth_error row j = Some (Fin oj) ->
        (oi * aj = oj * ai)%R.
Proof.
  apply (rescale_keeps_ratios_within_unit 1 1 2 2 [2%Z]
           [[[Fin 1; Fin 0]]] [[0%Z; 0%Z]] [[[Fin 1; Fin 3]]]).
  - split; [reflexivity | repeat constructor].
  - split; [reflexivity|]. repeat constructor; lia.
  - split; [reflexivity | repeat constructor].
Defined.

(* ================================================================= *)
(** * Errors of the rescaling stage *)

(** A call whose rescaling stage raises, whatever distribution it is given:
    if the same call with rescaling disabled returns, the call raises that
    error. *)
Lemma forward_rescale_error :
  forall self source memory_bank lens coverage u pos ids e,
    seqHRE_attn_rescale self = true ->
    (forall a, hre_rescale lens (promote u) ids a = Err e) ->
    is_ok (snd (forward (set_rescale false self) source memory_bank
                        (Some lens) coverage (Some u) pos ids)) = true ->
    snd (forward self source memory_bank (Some lens) coverage (Some u)
                 pos ids)
    = Err e.
Proof.
  intros self source memory_bank lens coverage u pos ids e Hres Herr Hok.
  rewrite !forward_unfold in *. rewrite check_inputs_set_rescale in Hok.
  destruct (check_inputs self (promote source) memory_bank (Some lens)
                         coverage (promote u)) as [lengths|e0] eqn:Hc;
    [|discriminate].
  apply check_inputs_ok in Hc. destruct Hc as (Hl & _).
  injection Hl as <-.
  change (inject_coverage (set_rescale false self))
    with (inject_coverage self) in Hok.
  destruct (inject_coverage self memory_bank coverage) as [[buffer bank]|e0];
    [|discriminate].
  cbn [snd] in *. unfold attend, sizes_of in *.
  rewrite attention_set_rescale_false in Hok.
  unfold attention. rewrite Hres.
  destruct (score self (promote source) bank) as [word_align|e0];
    [|discriminate].
  cbn [bind] in *.
  destruct (masked_normalize (attn_func_of self) lens word_align)
    as [align|e0]; [|discriminate].
  cbn [bind]. rewrite Herr. reflexivity.
Qed.

(** X14: with rescaling enabled, [src_word_utr_ids] must be given: its default
    [None] cannot be unpacked on line 214, and a call which would return
    with rescaling disabled raises TypeError. *)
Theorem rescale_needs_unit_ids :
  forall self source memory_bank lens coverage u pos,
    seqHRE_attn_rescale self = true ->
    is_ok (snd (forward (set_rescale false self) source memory_bank
                        (Some lens) coverage (Some u) pos None)) = true ->
    exists msg,
      snd (forward self source memory_bank (Some lens) coverage (Some u)
                   pos None)
      = Err (TypeError msg).
Proof.
  intros self source memory_bank lens coverage u pos Hres Hok.
  eexists. apply (forward_rescale_error _ _ _ _ _ _ _ _ _ Hres);
    [|exact Hok].
  intros a. reflexivity.
Qed.

Lemma rescale_needs_unit_ids_witness :
  exists msg,
    snd (forward (set_rescale true (dot_softmax 1)) (T2 [[Fin 1]])
                 [[[Fin 1]]] (Some [1%Z]) None (Some (T2 [[Fin 1]])) None
                 None)
    = Err (TypeError msg).
Proof.
  apply (rescale_needs_unit_ids (set_rescale true (dot_softmax 1))
           (T2 [[Fin 1]]) [[[Fin 1]]] [1%Z] None (T2 [[Fin 1]]) None);
    reflexivity.
Defined.

Lemma mapM_error {A B} (f : A -> result B) (e : error) (l : list A) :
  (forall a e', f a = Err e' -> e' = e) ->
  (exists a, In a l /\ is_ok (f a) = false) ->
  mapM f l = Err e.
Proof.
  intros Hall (a & Hin & Hbad).
  induction l as [|x l IH]; [contradiction|].
  cbn [mapM]. destruct (f x) as [y|e'] eqn:E.
  - cbn [bind]. destruct Hin as [->|Hin].
    + rewrite E in Hbad. discriminate.
    + rewrite (IH Hin). reflexivity.
  - cbn [bind]. rewrite (Hall x e' E). reflexivity.
Qed.

Lemma zipM_error {A B C} (f : A -> B -> result C) (e : error)
  (la : list A) (lb : list B) (i : nat) (a : A) (b : B) :
  (forall x y e', f x y = Err e' -> e' = e) ->
  nth_error la i = Some a -> nth_error lb i = Some b ->
  is_ok (f a b) = false ->
  zipM f la lb = Err e.
Proof.
  intros Hall. revert lb i.
  induction la as [|x la IH]; intros [|y lb] [|i] Ha Hb Hbad;
    try discriminate.
  - injection Ha as ->. injection Hb as ->. cbn [zipM].
    destruct (f a b) as [c|e'] eqn:E; [discriminate|].
    cbn [bind]. rewrite (Hall a b e' E). reflexivity.
  - cbn [zipM]. destruct (f x y) as [c|e'] eqn:E.
    + cbn [bind]. rewrite (IH lb i Ha Hb Hbad). reflexivity.
    + cbn [bind]. rewrite (Hall x y e' E). reflexivity.
Qed.

Lemma mapM_error_inv {A B} (f : A -> result B) (e : error) (l : list A) :
  mapM f l = Err e -> exists a, In a l /\ f a = Err e.
Proof.
  induction l as [|x l IH]; [discriminate|].
  cbn [mapM]. destruct (f x) as [y|e'] eqn:E; cbn [bind].
  - destruct (mapM f l) as [ys|e'']; [discriminate|].
    cbn [bind]. intros H. injection H as ->.
    destruct (IH eq_refl) as (a & Hin & Ha).
    exists a. split; [right; exact Hin | exact Ha].
  - intros H. injection H as ->. exists x. split; [left; reflexivity|].
    exact E.
Qed.

Lemma gather_last_error_inv (input : vec) (index : list Z) (e : error) :
  gather_last input index = Err e ->
  e = RuntimeError "index out of range in gather".
Proof.
  intros H. unfold gather_last in H. apply mapM_error_inv in H.
  destruct H as (i & _ & H).
  destruct ((0 <=? i) && (i <? Z.of_nat (length input)))%Z;
    [discriminate|].
  congruence.
Qed.

Lemma gather_last_error (input : vec) (index : list Z) (id : Z) :
  In id index ->
  (id < 0 \/ Z.of_nat (length input) <= id)%Z ->
  is_ok (gather_last input index) = false.
Proof.
  intros Hin Hid. unfold gather_last.
  rewrite (mapM_error _ (RuntimeError "index out of range in gather") index).
  - reflexivity.
  - intros i e' H.
    destruct ((0 <=? i) && (i <? Z.of_nat (length input)))%Z;
      [discriminate|].
    congruence.
  - exists id. split; [exact Hin|].
    destruct (Z.leb_spec 0 id); [|reflexivity].
    destruct (Z.ltb_spec id (Z.of_nat (length input))); [lia|].
    reflexivity.
Qed.

(** Line 223 with an id which names no unit. *)
Lemma expand_utr_error (utr : tensor3) (ids : list (list Z))
  (bi ti : nat) (ut : vec) (idb : list Z) (id : Z) :
  row_at utr bi ti = Some ut ->
  nth_error ids bi = Some idb ->
  In id idb ->
  (id < 0 \/ Z.of_nat (length ut) <= id)%Z ->
  exists msg, expand_utr utr ids = Err (RuntimeError msg).
Proof.
  intros Hut Hidb Hin Hid. unfold expand_utr.
  destruct (length ids <=? length utr); [|eexists; reflexivity].
  unfold row_at in Hut. unalias.
  destruct (nth_error utr bi) as [u|] eqn:Eu; [|discriminate].
  eexists.
  apply (zipM_error _ (RuntimeError "index out of range in gather")
           utr ids bi u idb); [|exact Eu | exact Hidb|].
  - intros x y e' H. apply mapM_error_inv in H.
    destruct H as (r & _ & H). exact (gather_last_error_inv _ _ _ H).
  - rewrite (mapM_error _ (RuntimeError "index out of range in gather") u).
    + reflexivity.
    + intros r e' H. exact (gather_last_error_inv _ _ _ H).
    + exists ut. split; [exact (nth_error_In _ _ Hut)|].
      exact (gather_last_error ut idb id Hin Hid).
Qed.

(** X15: with rescaling enabled, a unit id which is negative or not smaller than
    the number of units of the coarse alignment makes the gather of line 223
    raise RuntimeError: a call which would return with rescaling disabled
    raises instead. *)
Theorem unit_id_out_of_range_raises :
  forall self source memory_bank lens coverage u pos word_utr_ids
         (bi ti : nat) (ut : vec) (idb : list Z) (id : Z),
    seqHRE_attn_rescale self = true ->
    row_at (promote u) bi ti = Some ut ->
    nth_error word_utr_ids bi = Some idb ->
    In id idb ->
    (id < 0 \/ Z.of_nat (length ut) <= id)%Z ->
    is_ok (snd (forward (set_rescale false self) source memory_bank
                        (Some lens) coverage (Some u) pos
                        (Some (word_utr_ids, lens)))) = true ->
    exists msg,
      snd (forward self source memory_bank (Some lens) coverage (Some u)
                   pos (Some (word_utr_ids, lens)))
      = Err (RuntimeError msg).
Proof.
  intros self source memory_bank lens coverage u pos ids bi ti ut idb id
         Hres Hut Hidb Hin Hid Hok.
  destruct (expand_utr_error (promote u) ids bi ti ut idb id Hut Hidb Hin
              Hid) as [msg Hmsg].
  exists msg. apply (forward_rescale_error _ _ _ _ _ _ _ _ _ Hres);
    [|exact Hok].
  intros a. unfold hre_rescale. rewrite eq_all_refl. cbn [bind].
  rewrite Hmsg. reflexivity.
Qed.

Lemma unit_id_out_of_range_raises_witness :
  exists msg,
    snd (forward (set_rescale true (dot_softmax 1)) (T2 [[Fin 1]])
                 [[[Fin 1]]] (Some [1%Z]) None (Some (T2 [[Fin 1]])) None
                 (Some ([[5%Z]], [1%Z])))
    = Err (RuntimeError msg).
Proof.
  apply (unit_id_out_of_range_raises (set_rescale true (dot_softmax 1))
           (T2 [[Fin 1]]) [[[Fin 1]]] [1%Z] None (T2 [[Fin 1]]) None
           [[5%Z]] 0 0 [Fin 1] [5%Z] 5%Z);
    try reflexivity.
  - left. reflexivity.
  - right. simpl. lia.
Defined.

(* ================================================================= *)
(** * The lengths and the mask *)

Lemma fill_row_nothing (len : Z) (r : vec) :
  (Z.of_nat (length r) <= len)%Z ->
  fill_row r (map (fun i => (Z.of_nat i <? len)%Z) (seq 0 (length r))) = r.
Proof.
  intros H. rewrite fill_row_seq, Nat.sub_0_r.
  rewrite firstn_all2 by lia.
  replace (length r - Z.to_nat len)%nat with 0%nat by lia.
  apply app_nil_r.
Qed.

(** X16: a length which reaches the end of the source masks nothing: when every
    entry of [memory_lengths] is at least src_len, lines 201-211 normalize
    the raw scores as they are. *)
Theorem full_lengths_mask_nothing :
  forall (f : attn_func) (b t s : nat) (lens : list Z)
         (word_align : tensor3),
    (1 <= b)%nat -> (1 <= t)%nat ->
    shape3 b t s word_align ->
    length lens = b ->
    Forall (fun len => (Z.of_nat s <= len)%Z) lens ->
    masked_normalize f lens word_align
    = mapM (mapM (normalize f)) word_align.
Proof.
  intros f b t s lens word_align Hb Ht Hw Hl Hfull.
  unfold masked_normalize, size_last.
  rewrite (size3_shape3 _ _ _ _ Hb Ht Hw). cbn [snd].
  rewrite masked_fill_same_length
    by (rewrite (shape3_length _ _ _ _ Hw); exact Hl).
  cbn [bind]. f_equal.
  apply nth_error_ext. intros bi. rewrite nth_error_zip_with. unalias.
  destruct (nth_error word_align bi) as [m|] eqn:Em; [|reflexivity].
  destruct (nth_error lens bi) as [len|] eqn:El.
  - f_equal. rewrite <- (map_id m) at 2. apply map_ext_in. intros r Hr.
    destruct (shape3_In _ _ _ _ _ Hw (nth_error_In _ _ Em)) as [_ Hrows].
    rewrite Forall_forall in Hrows, Hfull.
    pose proof (Hrows r Hr) as Hlr.
    pose proof (Hfull len (nth_error_In _ _ El)) as Hlen.
    rewrite <- Hlr. apply fill_row_nothing. lia.
  - exfalso. apply nth_error_None in El.
    assert (nth_error word_align bi <> None) as Hs by congruence.
    apply nth_error_Some in Hs.
    pose proof (shape3_length _ _ _ _ Hw). unalias. lia.
Qed.

Lemma full_lengths_mask_nothing_witness :
  masked_normalize Softmax [2%Z] [[[Fin 1; Fin 2]]]
  = mapM (mapM (normalize Softmax)) [[[Fin 1; Fin 2]]].
Proof.
  apply (full_lengths_mask_nothing Softmax 1 1 2);
    [lia | lia | split; [reflexivity | repeat constructor] | reflexivity |].
  repeat constructor. simpl. lia.
Defined.

Lemma zip_with_repeat_r {A B C} (f : A -> B -> C) (la : list A) (y : B) :
  zip_with f la (repeat y (length la)) = map (fun a => f a y) la.
Proof.
  induction la as [|a la IH]; [reflexivity|].
  cbn [length repeat map]. rewrite zip_with_cons, IH. reflexivity.
Qed.

(** X17: [forward] does not compare the number of lengths with the batch size. A
    single length is broadcast by the mask of lines 202-204 and applies to
    every batch element; any other number of lengths which is not the batch
    size makes [masked_fill_] raise. *)
Theorem lengths_are_broadcast_or_rejected :
  forall (f : attn_func) (lens : list Z) (word_align : tensor3),
    (forall len, lens = [len] ->
                 masked_normalize f lens word_align
                 = masked_normalize f (repeat len (length word_align))
                                    word_align)
    /\ (length lens <> length word_align -> length lens <> 1%nat ->
        masked_normalize f lens word_align = Err shape_error).
Proof.
  intros f lens word_align. split.
  - intros len ->. unfold masked_normalize, masked_fill_, sequence_mask.
    rewrite !length_map, repeat_length, Nat.eqb_refl.
    cbn [map length].
    assert (H : zip_with
                  (fun (m : mat) (mask_row : list bool) =>
                     map (fun r => fill_row r mask_row) m)
                  word_align
                  (map (fun len0 =>
                          map (fun i => (Z.of_nat i <? len0)%Z)
                              (seq 0 (size_last word_align)))
                       (repeat len (length word_align)))
                = map (fun m =>
                         map (fun r =>
                                fill_row r
                                  (map (fun i => (Z.of_nat i <? len)%Z)
                                       (seq 0 (size_last word_align))))
                             m)
                      word_align).
    { rewrite map_repeat. apply zip_with_repeat_r. }
    unalias. rewrite H.
    destruct (1 =? length word_align)%nat eqn:E; [|reflexivity].
    apply Nat.eqb_eq in E.
    destruct word_align as [|m [|m' w]]; try discriminate. reflexivity.
  - intros Hne Hone. unfold masked_normalize, masked_fill_, sequence_mask.
    rewrite length_map.
    destruct (Nat.eqb_spec (length lens) (length word_align)) as [E|_];
      [contradiction|].
    destruct lens as [|l1 [|l2 lens]]; [reflexivity | | reflexivity].
    exfalso. apply Hone. reflexivity.
Qed.

Lemma lengths_are_broadcast_or_rejected_witness :
  masked_normalize Softmax [1%Z; 1%Z; 1%Z] [[[Fin 1]]; [[Fin 2]]]
  = Err shape_error.
Proof.
  apply (proj2 (lengths_are_broadcast_or_rejected Softmax [1%Z; 1%Z; 1%Z]
                  [[[Fin 1]]; [[Fin 2]]]));
    simpl; lia.
Defined.

(* ================================================================= *)
(** * Repeated calls on one source bank *)

(** The size checks read the sizes of their arguments only. *)
Lemma check_inputs_sizes_only :
  forall self source bank bank' lens cov cov' utr,
    size3 bank' = size3 bank ->
    size2 cov' = size2 cov ->
    check_inputs self source bank' lens (Some cov') utr
    = check_inputs self source bank lens (Some cov) utr.
Proof.
  intros self source bank bank' lens cov cov' utr Hb Hc.
  unfold check_inputs. rewrite Hb, Hc. reflexivity.
Qed.

(* ================================================================= *)
(** * The utterance alignment without rescaling *)

(** X19: with rescaling disabled the utterance alignment only takes part in the
    size checks: two calls which differ in the content of
    [utr_align_vectors] (not in its batch size and number of steps) and in
    [src_word_utr_ids] do the same. *)
Theorem alignment_content_unused_without_rescale :
  forall self source memory_bank lens coverage u1 u2 pos ids1 ids2,
    seqHRE_attn_rescale self = false ->
    fst (size3 (promote u1)) = fst (size3 (promote u2)) ->
    forward self source memory_bank lens coverage (Some u1) pos ids1
    = forward self source memory_bank lens coverage (Some u2) pos ids2.
Proof.
  intros self source memory_bank lens coverage u1 u2 pos ids1 ids2 Hres Hsz.
  rewrite !forward_unfold.
  assert (Hchk : check_inputs self (promote source) memory_bank lens
                              coverage (promote u1)
                 = check_inputs self (promote source) memory_bank lens
                                coverage (promote u2)).
  { unfold check_inputs.
    destruct (size3 (promote u1)) as [[b1 t1] n1],
             (size3 (promote u2)) as [[b2 t2] n2].
    cbn [fst] in Hsz. injection Hsz as -> ->. reflexivity. }
  rewrite Hchk.
  destruct (check_inputs self (promote source) memory_bank lens coverage
                         (promote u2)) as [lengths|e]; [|reflexivity].
  destruct (inject_coverage self memory_bank coverage) as [[buffer bank]|e];
    [|reflexivity].
  f_equal. unfold attend, attention. rewrite Hres.
  destruct (sizes_of (promote source) memory_bank) as [[[b s] d] t].
  reflexivity.
Qed.

Lemma alignment_content_unused_without_rescale_witness :
  forward (dot_softmax 1) (T2 [[Fin 1]]) [[[Fin 1]]] (Some [1%Z]) None
          (Some (T2 [[Fin 1]])) None None
  = forward (dot_softmax 1) (T2 [[Fin 1]]) [[[Fin 1]]] (Some [1%Z]) None
            (Some (T2 [[Fin 0; Fin 7]])) None (Some ([[3%Z]], [5%Z])).
Proof.
  apply alignment_content_unused_without_rescale; reflexivity.
Defined.

(* ================================================================= *)
(** * Values squashed by tanh *)

Section Tanh.

Open Scope R_scope.

Lemma tanh_bounded (x : R) : -1 <= tanh x <= 1.
Proof.
  unfold tanh, sinh, cosh.
  pose proof (exp_pos x) as Ha. pose proof (exp_pos (- x)) as Hb.
  set (a := exp x) in *. set (b := exp (- x)) in *.
  assert (E : (a - b) / 2 / ((a + b) / 2) = (a - b) * / (a + b))
    by (field; lra).
  rewrite E.
  assert (Hi : 0 < / (a + b)) by (apply Rinv_0_lt_compat; lra).
  assert (Hone : (a + b) * / (a + b) = 1) by (apply Rinv_r; lra).
  split; nra.
Qed.

(** An entry which went through [tanh] is NaN or a number of [-1, 1]. *)
Lemma ftanh_bounded (x : fval) : bounded_by 1 (ftanh x).
Proof.
  destruct x as [r| | |]; cbn [ftanh].
  - right. exists (tanh r). split; [reflexivity | apply tanh_bounded].
  - right. exists 1. split; [reflexivity | lra].
  - right. exists (-1). split; [reflexivity | lra].
  - left. reflexivity.
Qed.

Lemma l1_norm_nonneg (ws : list R) : 0 <= l1_norm ws.
Proof.
  unfold l1_norm. induction ws as [|w ws IH]; simpl; [lra|].
  fold (Rsum (map Rabs ws)). pose proof (Rabs_pos w). lra.
Qed.

Lemma scaled_by_weight (y w : R) :
  -1 <= y <= 1 -> - Rabs w <= y * w <= Rabs w.
Proof.
  intros Hy. destruct (Rle_dec 0 w) as [Hw|Hw].
  - rewrite Rabs_right by lra. nra.
  - rewrite Rabs_left by lra. nra.
Qed.

(** The output of [self.v] on a vector of tanh values. *)
Lemma fdot_tanh_bounded (z : vec) (ws : list R) :
  bounded_by (l1_norm ws) (fdot (map ftanh z) (map Fin ws)).
Proof.
  revert ws. induction z as [|z0 z IH]; intros ws.
  - right. exists 0. split; [reflexivity|].
    pose proof (l1_norm_nonneg ws). lra.
  - destruct ws as [|w0 ws].
    + right. exists 0. split; [reflexivity|]. unfold l1_norm. simpl. lra.
    + unfold fdot. cbn [map]. rewrite zip_with_cons.
      cbn [fsum fold_right].
      fold (fsum (zip_with fmul (map ftanh z) (map Fin ws))).
      fold (fdot (map ftanh z) (map Fin ws)).
      destruct (ftanh_bounded z0) as [->|(y & -> & Hy)];
        [left; reflexivity|].
      destruct (IH ws) as [->|(r & -> & Hr)]; [left; reflexivity|].
      right. exists (y * w0 + r). split; [reflexivity|].
      pose proof (scaled_by_weight y w0 Hy).
      unfold l1_norm in *. cbn [map Rsum fold_right].
      fold (Rsum (map Rabs ws)). lra.
Qed.

End Tanh.

(** X20: the scores of the [mlp] attention are bounded by the weights of
    [self.v]: with finite weights (and no bias, as [__init__] builds it),
    every score [score] returns is NaN or lies within the sum of the
    absolute values of these weights, whatever the query and the source
    hold. *)
Theorem mlp_scores_are_bounded :
  forall self lc lq v (ws : list R) h_t h_s w,
    attn_type_of self = Mlp lc lq v ->
    weight v = [map Fin ws] ->
    bias v = None ->
    score self h_t h_s = Ok w ->
    forall m row x,
      In m w -> In row m -> In x row -> bounded_by (l1_norm ws) x.
Proof.
  intros self lc lq v ws h_t h_s w Ht Hw Hb Hs m row x Hm Hrow Hx.
  unfold score in Hs. rewrite Ht in Hs.
  destruct (size3 h_s) as [[? ?] ?], (size3 h_t) as [[? ?] ?].
  apply bind_ok in Hs. destruct Hs as (? & _ & Hs).
  apply bind_ok in Hs. destruct Hs as (? & _ & Hs).
  apply bind_ok in Hs. destruct Hs as (? & _ & Hs).
  injection Hs as <-. unfold mlp_scores, zip_with in Hm.
  apply in_map_iff in Hm. destruct Hm as ([wqb uhb] & <- & _).
  cbn [fst snd] in Hrow. apply in_map_iff in Hrow.
  destruct Hrow as (q & <- & _).
  apply in_concat in Hx. destruct Hx as (l & Hl & Hx).
  apply in_map_iff in Hl. destruct Hl as (u & <- & _).
  unfold linear in Hx. rewrite Hw, Hb in Hx. cbn [map] in Hx.
  destruct Hx as [<-|[]]. apply fdot_tanh_bounded.
Qed.

Lemma mlp_scores_are_bounded_witness :
  exists w,
    score mlp2 [[[Fin 1; Fin 2]]] [[[Fin 3; Fin 4]]] = Ok w
    /\ forall m row x,
        In m w -> In row m -> In x row -> bounded_by (l1_norm [1; 1]%R) x.
Proof.
  eexists. split; [reflexivity|].
  apply (mlp_scores_are_bounded mlp2
           {| weight := [[Fin 1; Fin 1]; [Fin 1; Fin 1]]; bias := None |}
           {| weight := [[Fin 1; Fin 1]; [Fin 1; Fin 1]];
              bias := Some [Fin 0; Fin 0] |}
           {| weight := [[Fin 1; Fin 1]]; bias := None |}
           [1; 1]%R [[[Fin 1; Fin 2]]] [[[Fin 3; Fin 4]]]);
    reflexivity.
Defined.

Lemma entries_squeeze1 (t : tensor3) (x : fval) :
  In x (concat (squeeze1 t)) ->
  exists m row, In m t /\ In row m /\ In x row.
Proof.
  intros H. apply in_concat in H. destruct H as (row & Hrow & Hx).
  unfold squeeze1 in Hrow. apply in_map_iff in Hrow.
  destruct Hrow as (m & <- & Hm).
  destruct m as [|r m]; [contradiction|].
  exists (r :: m), r. split; [exact Hm|].
  split; [left; reflexivity | exact Hx].
Qed.

Lemma entries_transpose01 (n : nat) (t : tensor3) (x : fval) :
  In x (concat (concat (transpose01 n t))) ->
  exists m row, In m t /\ In row m /\ In x row.
Proof.
  intros H. apply in_concat in H. destruct H as (row & Hrow & Hx).
  apply in_concat in Hrow. destruct Hrow as (m' & Hm' & Hrow).
  unfold transpose01 in Hm'. apply in_map_iff in Hm'.
  destruct Hm' as (j & <- & _). apply in_map_iff in Hrow.
  destruct Hrow as (m & <- & Hm).
  destruct (nth_in_or_default j m []) as [Hin|E].
  - exists m, (nth j m []). split; [exact Hm|]. split; [exact Hin | exact Hx].
  - rewrite E in Hx. contradiction.
Qed.

Lemma finish_one_step_inv :
  forall batch source_l d c attn_h align_vectors out,
    finish_one_step batch source_l d c attn_h align_vectors = Ok out ->
    out = (T2 (squeeze1 c),
           option_map T2 (option_map (@squeeze1 fval) attn_h),
           T2 (squeeze1 align_vectors)).
Proof.
  intros batch source_l d c attn_h align_vectors out H.
  unfold finish_one_step in H.
  destruct (size2 (squeeze1 c)) as [b1 d1].
  destruct (match option_map (@squeeze1 fval) attn_h with
            | Some h => size2 h
            | None => (b1, d1)
            end) as [b2 d2].
  apply bind_ok in H. destruct H as (? & _ & H).
  apply bind_ok in H. destruct H as (? & _ & H).
  destruct (size2 (squeeze1 align_vectors)) as [b3 s3].
  apply bind_ok in H. destruct H as (? & _ & H).
  apply bind_ok in H. destruct H as (? & _ & H).
  congruence.
Qed.

Lemma finish_multi_step_inv :
  forall batch source_l d target_l c attn_h align_vectors out,
    finish_multi_step batch source_l d target_l c attn_h align_vectors
    = Ok out ->
    out = (T3 (transpose01 target_l c),
           option_map T3 (option_map (transpose01 target_l) attn_h),
           T3 (transpose01 target_l align_vectors)).
Proof.
  intros batch source_l d target_l c attn_h align_vectors out H.
  unfold finish_multi_step in H.
  destruct (size3 (transpose01 target_l c)) as [[t1 b1] d1].
  destruct (match option_map (transpose01 target_l) attn_h with
            | Some h => size3 h
            | None => (t1, b1, d1)
            end) as [[t2 b2] d2].
  apply bind_ok in H. destruct H as (? & _ & H).
  apply bind_ok in H. destruct H as (? & _ & H).
  apply bind_ok in H. destruct H as (? & _ & H).
  destruct (size3 (transpose01 target_l align_vectors)) as [[t3 b3] s3].
  apply bind_ok in H. destruct H as (? & _ & H).
  apply bind_ok in H. destruct H as (? & _ & H).
  apply bind_ok in H. destruct H as (? & _ & H).
  congruence.
Qed.

(** X21: with the dot and the general attention the attentional state goes
    through tanh on line 243: every entry of the [attn_h] a call returns is
    NaN or a number of [-1, 1]. *)
Theorem attentional_state_is_squashed :
  forall self source memory_bank lens coverage u pos ids buffer c h a,
    is_luong (attn_type_of self) = true ->
    forward self source memory_bank lens coverage (Some u) pos ids
    = (buffer, Ok (c, Some h, a)) ->
    Forall (bounded_by 1) (entries h).
Proof.
  intros self source memory_bank lens coverage u pos ids buffer c h a
         Hluong H.
  destruct (forward_returns _ _ _ _ _ _ _ _ _ _ H)
    as (lengths & bank & align & _ & _ & _ & Hf).
  destruct (sizes_of (promote source) memory_bank) as [[[b s] d] t].
  set (c0 := bmm d align bank) in *.
  assert (Hin : exists h0,
             attn_output self c0 (promote source) = Some h0
             /\ forall x, In x (entries h) ->
                          exists m row, In m h0 /\ In row m /\ In x row).
  { destruct (is_one_step source).
    - apply finish_one_step_inv in Hf. injection Hf as _ Hh _.
      destruct (attn_output self c0 (promote source)) as [h0|];
        [|discriminate].
      cbn [option_map] in Hh. injection Hh as ->.
      exists h0. split; [reflexivity|]. intros x Hx.
      exact (entries_squeeze1 h0 x Hx).
    - apply finish_multi_step_inv in Hf. injection Hf as _ Hh _.
      destruct (attn_output self c0 (promote source)) as [h0|];
        [|discriminate].
      cbn [option_map] in Hh. injection Hh as ->.
      exists h0. split; [reflexivity|]. intros x Hx.
      exact (entries_transpose01 t h0 x Hx). }
  destruct Hin as (h0 & Hh0 & Hent).
  unfold attn_output in Hh0.
  destruct (linear_out self) as [layer|]; [|discriminate].
  rewrite Hluong in Hh0. injection Hh0 as <-.
  apply Forall_forall. intros x Hx.
  destruct (Hent x Hx) as (m & row & Hm & Hrow & Hxr).
  apply in_map_iff in Hm. destruct Hm as (m0 & <- & _).
  apply in_map_iff in Hrow. destruct Hrow as (r0 & <- & _).
  apply in_map_iff in Hxr. destruct Hxr as (x0 & <- & _).
  apply ftanh_bounded.
Qed.

Lemma attentional_state_is_squashed_witness :
  exists h,
    (exists c a,
        forward with_output1 (T2 [[Fin 1]]) [[[Fin 1]]] (Some [1%Z]) None
                (Some (T2 [[Fin 1]])) None None
        = ([[[Fin 1]]], Ok (c, Some h, a)))
    /\ Forall (bounded_by 1) (entries h).
Proof.
  eexists. split; [do 2 eexists; reflexivity|].
  eapply (attentional_state_is_squashed with_output1 (T2 [[Fin 1]])
            [[[Fin 1]]] (Some [1%Z]) None (T2 [[Fin 1]]) None None
            [[[Fin 1]]]);
    reflexivity.
Defined.

(* ================================================================= *)
(** * One target step of a multi-step call *)

Lemma nth_map_in {A B} (f : A -> B) (t : nat) (m : list A) (dA : A)
  (dB : B) :
  (t < length m)%nat -> nth t (map f m) dB = f (nth t m dA).
Proof.
  intros Ht. rewrite (nth_indep _ dB (f dA)) by (rewrite length_map; exact Ht).
  apply map_nth.
Qed.

Lemma nth_zip_with {A B C} (h : A -> B -> C) (t : nat) (la : list A)
  (lb : list B) (dA : A) (dB : B) (dC : C) :
  (t < length la)%nat -> (t < length lb)%nat ->
  nth t (zip_with h la lb) dC = h (nth t la dA) (nth t lb dB).
Proof.
  intros Ha Hb. apply nth_error_nth.
  rewrite nth_error_zip_with.
  rewrite (nth_error_nth' la dA Ha), (nth_error_nth' lb dB Hb).
  reflexivity.
Qed.

Lemma select_step_as_promote {A} (t : nat) (x : list (list (list A))) :
  unsqueeze1 (step t x) = select_step t x.
Proof. unfold unsqueeze1, step, select_step. apply map_map. Qed.

Lemma squeeze1_select_step {A} (t : nat) (x : list (list (list A))) :
  squeeze1 (select_step t x) = step t x.
Proof. unfold squeeze1, select_step, step. rewrite map_map. reflexivity. Qed.

Lemma nth_transpose01 {A} (t n : nat) (x : list (list (list A))) :
  (t < n)%nat -> nth t (transpose01 n x) [] = step t x.
Proof.
  intros Ht. unfold transpose01, step.
  rewrite (nth_map_in _ t (seq 0 n) 0%nat) by (rewrite length_seq; exact Ht).
  rewrite seq_nth by exact Ht. reflexivity.
Qed.

Lemma select_step_shape (b n s t : nat) (x : tensor3) :
  (t < n)%nat -> shape3 b n s x -> shape3 b 1 s (select_step t x).
Proof.
  intros Ht Hx. unfold select_step. split.
  - rewrite length_map. exact (shape3_length _ _ _ _ Hx).
  - apply Forall_forall. intros m' Hm'. apply in_map_iff in Hm'.
    destruct Hm' as (m & <- & Hm).
    destruct (shape3_In _ _ _ _ _ Hx Hm) as [Hl Hr].
    split; [reflexivity|]. constructor; [|constructor].
    rewrite Forall_forall in Hr. apply Hr. apply nth_In. unalias. lia.
Qed.

(** A row-wise operation commutes with the selection of a step. *)
Lemma select_step_map_rows {A B} (f : list A -> list B) (t : nat)
  (x : list (list (list A))) :
  (forall m, In m x -> (t < length m)%nat) ->
  map (map f) (select_step t x) = select_step t (map (map f) x).
Proof.
  intros H. unfold select_step. rewrite !map_map. apply map_ext_in.
  intros m Hm. cbn [map]. f_equal. symmetry.
  apply (nth_map_in f t m [] []). exact (H m Hm).
Qed.

(** So does a row-wise operation which takes a parameter per batch
    element. *)
Lemma select_step_zip_rows {A B C} (g : C -> list A -> list B) (t : nat)
  (x : list (list (list A))) (ys : list C) :
  (forall m, In m x -> (t < length m)%nat) ->
  zip_with (fun m y => map (g y) m) (select_step t x) ys
  = select_step t (zip_with (fun m y => map (g y) m) x ys).
Proof.
  revert ys. induction x as [|m x IH]; intros [|y ys] H; try reflexivity.
  unfold select_step in *. cbn [map]. rewrite !zip_with_cons. cbn [map].
  f_equal.
  - f_equal. symmetry. apply (nth_map_in (g y) t m [] []).
    apply H. left. reflexivity.
  - apply IH. intros m' Hm'. apply H. right. exact Hm'.
Qed.

(** And an operation which combines the rows of two tensors. *)
Lemma select_step_zip2 {A B C} (h : list A -> list B -> list C) (t : nat)
  (x : list (list (list A))) (y : list (list (list B))) :
  (forall m, In m x -> (t < length m)%nat) ->
  (forall m, In m y -> (t < length m)%nat) ->
  zip_with (zip_with h) (select_step t x) (select_step t y)
  = select_step t (zip_with (zip_with h) x y).
Proof.
  revert y. induction x as [|mx x IH]; intros [|my y] Hx Hy;
    try reflexivity.
  unfold select_step in *. cbn [map]. rewrite !zip_with_cons. cbn [map].
  f_equal.
  - change (zip_with h [] []) with (@nil (list C)).
    f_equal. symmetry. apply (nth_zip_with h t mx my [] [] []).
    + apply Hx. left. reflexivity.
    + apply Hy. left. reflexivity.
  - apply IH.
    + intros m Hm. apply Hx. right. exact Hm.
    + intros m Hm. apply Hy. right. exact Hm.
Qed.

Lemma shape3_steps (b n s t : nat) (x : tensor3) :
  (t < n)%nat -> shape3 b n s x ->
  forall m, In m x -> (t < length m)%nat.
Proof.
  intros Ht Hx m Hm. destruct (shape3_In _ _ _ _ _ Hx Hm) as [Hl _].
  unalias. lia.
Qed.

(** [score] on well-shaped inputs, in closed form: a transformation [L] of
    each query and a function [g] of one query and one source vector, which
    depend on the module only. *)
Lemma score_closed (self : SeqHREWordGlobalAttention) :
  layers_fit self ->
  exists (g : vec -> vec -> fval) (L : vec -> vec),
    forall (b t s : nat) (h_t h_s : tensor3),
      (1 <= b)%nat -> (1 <= t)%nat -> (1 <= s)%nat ->
      shape3 b t (dim self) h_t -> shape3 b s (dim self) h_s ->
      score self h_t h_s = Ok (scores_by g (map (map L) h_t) h_s).
Proof.
  intros (Hfit & _).
  destruct (attn_type_of self) as [|linear_in|lc lq v] eqn:E.
  - exists fdot, (fun q => q). intros b t s h_t h_s Hb Ht Hs Hq Hm.
    unfold score.
    rewrite (size3_shape3 _ _ _ _ Hb Hs Hm), (size3_shape3 _ _ _ _ Hb Ht Hq).
    rewrite !aeq_refl2, E. cbn [bind]. f_equal.
    assert (Hid : map (map (fun q : vec => q)) h_t = h_t).
    { rewrite <- (map_id h_t) at 2. apply map_ext. intros m. apply map_id. }
    rewrite Hid. reflexivity.
  - exists fdot, (linear linear_in). intros b t s h_t h_s Hb Ht Hs Hq Hm.
    unfold score.
    rewrite (size3_shape3 _ _ _ _ Hb Hs Hm), (size3_shape3 _ _ _ _ Hb Ht Hq).
    rewrite !aeq_refl2, E. reflexivity.
  - exists (fun q s => hd NaN (linear v (map ftanh (vadd q (linear lc s))))),
      (linear lq).
    intros b t s h_t h_s Hb Ht Hs Hq Hm. unfold score.
    rewrite (size3_shape3 _ _ _ _ Hb Hs Hm), (size3_shape3 _ _ _ _ Hb Ht Hq).
    rewrite !aeq_refl2, E. cbn [bind]. f_equal.
    unfold mlp_scores, scores_by.
    rewrite zip_with_map_r. unfold zip_with. apply map_ext.
    intros [wqb mb]. cbn [fst snd]. apply map_ext. intros q.
    rewrite map_map.
    apply (concat_map_singletons
             (fun s => linear v (map ftanh (vadd q (linear lc s)))) NaN).
    intros x. rewrite length_linear. exact Hfit.
Qed.

Lemma scores_by_shape (g : vec -> vec -> fval) (L : vec -> vec)
  (b t s d d' : nat) (h_t h_s : tensor3) :
  shape3 b t d h_t -> shape3 b s d' h_s ->
  shape3 b t s (scores_by g (map (map L) h_t) h_s).
Proof.
  intros Hq Hm. unfold scores_by.
  apply shape3_zip_with;
    [rewrite length_map; exact (shape3_length _ _ _ _ Hq)
    |exact (shape3_length _ _ _ _ Hm)|].
  intros ab mb Ha Hb.
  apply in_map_iff in Ha. destruct Ha as (ab0 & <- & Ha).
  destruct (shape3_In _ _ _ _ _ Hq Ha) as [Hla _].
  destruct (shape3_In _ _ _ _ _ Hm Hb) as [Hlb _].
  split; [rewrite !length_map; exact Hla|].
  apply Forall_map_length. intros q _. rewrite length_map. exact Hlb.
Qed.

Lemma masked_fill_shape (b t s : nat) (lens : list Z) (w : tensor3) :
  length lens = b -> shape3 b t s w ->
  shape3 b t s
    (zip_with
       (fun m len =>
          map (fun r =>
                 fill_row r (map (fun i => (Z.of_nat i <? len)%Z) (seq 0 s)))
              m)
       w lens).
Proof.
  intros Hl Hw.
  apply shape3_zip_with; [exact (shape3_length _ _ _ _ Hw) | exact Hl|].
  intros m len Hm _. destruct (shape3_In _ _ _ _ _ Hw Hm) as [Hlm Hr].
  split; [rewrite length_map; exact Hlm|].
  apply Forall_map_length. intros r Hin. rewrite Forall_forall in Hr.
  rewrite length_fill_row, length_map, length_seq, (Hr r Hin).
  apply Nat.min_id.
Qed.

Lemma masked_softmax_closed (b t s : nat) (lens : list Z) (w : tensor3) :
  (1 <= b)%nat -> (1 <= t)%nat ->
  length lens = b -> shape3 b t s w ->
  masked_normalize Softmax lens w = Ok (masked_softmax s lens w)
  /\ shape3 b t s (masked_softmax s lens w).
Proof.
  intros Hb Ht Hl Hw. split.
  - rewrite masked_normalize_softmax_closed
      by (rewrite (shape3_length _ _ _ _ Hw); exact Hl).
    unfold size_last. rewrite (size3_shape3 _ _ _ _ Hb Ht Hw). reflexivity.
  - unfold masked_softmax.
    apply (shape3_map_rows softmax b t s s);
      [|intros r Hr; rewrite length_softmax; exact Hr].
    exact (masked_fill_shape b t s lens w Hl Hw).
Qed.

Lemma masked_softmax_step (b n s t : nat) (lens : list Z) (w : tensor3) :
  (t < n)%nat -> length lens = b -> shape3 b n s w ->
  masked_softmax s lens (select_step t w)
  = select_step t (masked_softmax s lens w).
Proof.
  intros Ht Hl Hw. unfold masked_softmax.
  etransitivity;
    [|apply select_step_map_rows;
      exact (shape3_steps b n s t _ Ht
               (masked_fill_shape b n s lens w Hl Hw))].
  f_equal.
  apply (select_step_zip_rows
           (fun len r =>
              fill_row r (map (fun i => (Z.of_nat i <? len)%Z) (seq 0 s)))).
  exact (shape3_steps b n s t w Ht Hw).
Qed.

Lemma scores_by_step (g : vec -> vec -> fval) (L : vec -> vec)
  (b n d t : nat) (source h_s : tensor3) :
  (t < n)%nat -> shape3 b n d source ->
  scores_by g (map (map L) (select_step t source)) h_s
  = select_step t (scores_by g (map (map L) source) h_s).
Proof.
  intros Ht Hq. unfold scores_by.
  etransitivity;
    [|apply (select_step_zip_rows (fun mb q => map (g q) mb));
      intros m Hm; apply in_map_iff in Hm; destruct Hm as (m0 & <- & Hm0);
      rewrite length_map; exact (shape3_steps b n d t _ Ht Hq m0 Hm0)].
  f_equal.
  apply (select_step_map_rows L t source).
  exact (shape3_steps b n d t _ Ht Hq).
Qed.

Lemma expanded_step (b n k t : nat) (utr : tensor3) (ids : list (list Z)) :
  (t < n)%nat -> shape3 b n k utr ->
  expanded (select_step t utr) ids = select_step t (expanded utr ids).
Proof.
  intros Ht Hu. unfold expanded.
  apply (select_step_zip_rows
           (fun idb ut => map (fun i => nth (Z.to_nat i) ut NaN) idb)).
  exact (shape3_steps b n k t _ Ht Hu).
Qed.

Lemma rescaled_step (b n s t : nat) (align expand : tensor3) :
  (t < n)%nat -> shape3 b n s align -> shape3 b n s expand ->
  rescaled (select_step t align) (select_step t expand)
  = select_step t (rescaled align expand).
Proof.
  intros Ht Ha He. unfold rescaled.
  etransitivity; [|apply select_step_map_rows].
  - f_equal.
    apply (select_step_zip2 (zip_with fmul) t align expand).
    + exact (shape3_steps b n s t _ Ht Ha).
    + exact (shape3_steps b n s t _ Ht He).
  - intros m Hm. unfold zip_with in Hm at 1. apply in_map_iff in Hm.
    destruct Hm as ([ma me] & <- & Hin).
    apply in_combine_both in Hin. cbn [fst snd] in *.
    destruct Hin as [Hma Hme].
    rewrite length_zip_with.
    pose proof (shape3_steps b n s t _ Ht Ha ma Hma).
    pose proof (shape3_steps b n s t _ Ht He me Hme). unalias. lia.
Qed.

Lemma bmm_step (b n s d t : nat) (a bank : tensor3) :
  (t < n)%nat -> shape3 b n s a ->
  bmm d (select_step t a) bank = select_step t (bmm d a bank).
Proof.
  intros Ht Ha. unfold bmm.
  apply (select_step_zip_rows (fun bb w => weighted_row d w bb)).
  exact (shape3_steps b n s t _ Ht Ha).
Qed.

Lemma steps_zip2 {A B C} (h : list A -> list B -> list C) (t : nat)
  (x : list (list (list A))) (y : list (list (list B))) :
  (forall m, In m x -> (t < length m)%nat) ->
  (forall m, In m y -> (t < length m)%nat) ->
  forall m, In m (zip_with (zip_with h) x y) -> (t < length m)%nat.
Proof.
  intros Hx Hy m Hm. unfold zip_with in Hm at 1. apply in_map_iff in Hm.
  destruct Hm as ([mx my] & <- & Hin).
  apply in_combine_both in Hin. cbn [fst snd] in *. destruct Hin as [H1 H2].
  rewrite length_zip_with.
  pose proof (Hx mx H1). pose proof (Hy my H2). lia.
Qed.

Lemma steps_map {A B} (f : list A -> list B) (t : nat)
  (x : list (list (list A))) :
  (forall m, In m x -> (t < length m)%nat) ->
  forall m, In m (map (map f) x) -> (t < length m)%nat.
Proof.
  intros Hx m Hm. apply in_map_iff in Hm. destruct Hm as (m0 & <- & Hm0).
  rewrite length_map. exact (Hx m0 Hm0).
Qed.

Lemma attn_output_step (self : SeqHREWordGlobalAttention)
  (b n d1 d2 t : nat) (c source : tensor3) :
  (t < n)%nat -> shape3 b n d1 c -> shape3 b n d2 source ->
  attn_output self (select_step t c) (select_step t source)
  = option_map (select_step t) (attn_output self c source).
Proof.
  intros Ht Hc Hq. unfold attn_output.
  destruct (linear_out self) as [layer|]; [|reflexivity].
  cbn [option_map]. f_equal.
  pose proof (shape3_steps b n d1 t _ Ht Hc) as Sc.
  pose proof (shape3_steps b n d2 t _ Ht Hq) as Sq.
  pose proof (steps_zip2 (@app fval) t c source Sc Sq) as Sz.
  pose proof (steps_map (linear layer) t _ Sz) as Sl.
  assert (E : map (map (linear layer))
                  (zip_with (zip_with (@app fval)) (select_step t c)
                            (select_step t source))
              = select_step t
                  (map (map (linear layer))
                       (zip_with (zip_with (@app fval)) c source))).
  { etransitivity; [|apply select_step_map_rows; exact Sz].
    f_equal. apply select_step_zip2; assumption. }
  rewrite E.
  destruct (is_luong (attn_type_of self)); [|reflexivity].
  apply select_step_map_rows. exact Sl.
Qed.

(** Lines 192-195 on a source bank and a coverage tensor of agreeing
    shapes. *)
Lemma inject_coverage_shape (self : SeqHREWordGlobalAttention)
  (b s : nat) (bank : tensor3) (cov : option mat) :
  layers_fit self ->
  shape3 b s (dim self) bank ->
  (forall c, cov = Some c -> linear_cover self <> None /\ shape2 b s c) ->
  exists buffer bank',
    inject_coverage self bank cov = Ok (buffer, bank')
    /\ shape3 b s (dim self) bank'.
Proof.
  intros (_ & _ & Hlc) Hm Hcov. unfold inject_coverage.
  destruct cov as [c|].
  - destruct (Hcov c eq_refl) as [Hc Hsc].
    destruct (linear_cover self) as [layer|]; [|contradiction].
    do 2 eexists. split; [reflexivity|].
    apply injected_shape; [exact Hlc | exact Hm | exact Hsc].
  - do 2 eexists. split; [reflexivity | exact Hm].
Qed.

Section Steps.

Variable self : SeqHREWordGlobalAttention.
Variables (b n s k t : nat).
Variables (source bank : tensor3) (lens : list Z) (utr : tensor3)
          (ids : option word_utr).

Hypothesis Hfit : layers_fit self.
Hypothesis Hf : attn_func_of self = Softmax.
Hypothesis Hb : (1 <= b)%nat.
Hypothesis Hs : (1 <= s)%nat.
Hypothesis Ht : (t < n)%nat.
Hypothesis Hq : shape3 b n (dim self) source.
Hypothesis Hm : shape3 b s (dim self) bank.
Hypothesis Hl : length lens = b.
Hypothesis Hu : shape3 b n k utr.
Hypothesis Hres :
  seqHRE_attn_rescale self = true ->
  exists word_utr_ids,
    ids = Some (word_utr_ids, lens) /\ ids_in_range b s k word_utr_ids.

(** The attention distribution of one step is the step of the attention
    distribution. *)
Lemma attention_step :
  exists a,
    attention self source bank lens utr ids = Ok a
    /\ shape3 b n s a
    /\ attention self (select_step t source) bank lens (select_step t utr)
                 ids
       = Ok (select_step t a).
Proof.
  assert (Hn : (1 <= n)%nat) by lia.
  destruct (score_closed self Hfit) as (g & L & Hscore).
  pose proof (select_step_shape b n (dim self) t source Ht Hq) as Hq1.
  pose proof (select_step_shape b n k t utr Ht Hu) as Hu1.
  set (w := scores_by g (map (map L) source) bank).
  assert (Hw : shape3 b n s w)
    by exact (scores_by_shape g L b n s _ _ source bank Hq Hm).
  destruct (masked_softmax_closed b n s lens w Hb Hn Hl Hw) as [Hn1 Ha0].
  pose proof (select_step_shape b n s t w Ht Hw) as Hw1.
  destruct (masked_softmax_closed b 1 s lens (select_step t w) Hb
              (le_n 1) Hl Hw1) as [Hn2 _].
  unfold attention.
  rewrite (Hscore b n s source bank Hb Hn Hs Hq Hm).
  rewrite (Hscore b 1%nat s (select_step t source) bank Hb (le_n 1) Hs Hq1
             Hm).
  cbn [bind]. rewrite Hf.
  rewrite (scores_by_step g L b n (dim self) t source bank Ht Hq).
  fold w. rewrite Hn1, Hn2. cbn [bind].
  rewrite (masked_softmax_step b n s t lens w Ht Hl Hw).
  set (a0 := masked_softmax s lens w) in *.
  destruct (seqHRE_attn_rescale self).
  - destruct (Hres eq_refl) as (wids & -> & Hids).
    rewrite (hre_rescale_closed b n s k utr wids a0 Hu Hids Ha0 lens).
    rewrite (hre_rescale_closed b 1 s k (select_step t utr) wids
               (select_step t a0) Hu1 Hids
               (select_step_shape b n s t a0 Ht Ha0) lens).
    pose proof (expanded_shape b n s k utr wids Hu Hids) as He.
    eexists. split; [reflexivity|].
    split; [exact (rescaled_shape b n s a0 _ Ha0 He)|].
    rewrite (expanded_step b n k t utr wids Ht Hu).
    rewrite (rescaled_step b n s t a0 _ Ht Ha0 He). reflexivity.
  - exists a0. split; [reflexivity|]. split; [exact Ha0 | reflexivity].
Qed.

End Steps.

(** Lines 231-274 in closed form, once the attention distribution is
    known. *)
Lemma attend_closed (self : SeqHREWordGlobalAttention) (one_step : bool)
  (b t s : nat) (source bank : tensor3) (lens : list Z) (utr : tensor3)
  (ids : option word_utr) (a : tensor3) :
  (1 <= b)%nat -> (1 <= t)%nat ->
  (one_step = true -> t = 1%nat) ->
  layers_fit self ->
  shape3 b t (dim self) source -> length bank = b ->
  attention self source bank lens utr ids = Ok a ->
  shape3 b t s a ->
  attend self one_step (b, s, dim self, t) source bank lens utr ids
  = Ok (let c := bmm (dim self) a bank in
        let h := attn_output self c source in
        if one_step
        then (T2 (squeeze1 c),
              option_map T2 (option_map (@squeeze1 fval) h),
              T2 (squeeze1 a))
        else (T3 (transpose01 t c),
              option_map T3 (option_map (transpose01 t) h),
              T3 (transpose01 t a))).
Proof.
  intros Hb Ht Hone Hfit Hq Hm Hatt Ha. unfold attend. rewrite Hatt.
  cbn [bind]. cbv zeta.
  pose proof (bmm_shape b t s (dim self) a bank Ha Hm) as Hc.
  pose proof (attn_output_shape self b t (dim self) (dim self)
                (bmm (dim self) a bank) source Hfit Hc Hq) as Hh.
  set (c := bmm (dim self) a bank) in *.
  assert (Hsome : forall h, attn_output self c source = Some h ->
                            shape3 b t (dim self) h).
  { intros h E. rewrite E in Hh. exact (proj2 Hh). }
  destruct one_step.
  - rewrite (Hone eq_refl) in *.
    exact (finish_one_step_returns b s (dim self) c
             (attn_output self c source) a Hb Hc Ha Hsome).
  - exact (finish_multi_step_returns b s (dim self) t c
             (attn_output self c source) a Hb Ht Hc Ha Hsome).
Qed.

(** X22: a multi-step call does what single-step calls do, step by step.  For a
    module built by [__init__] with softmax and inputs of agreeing shapes,
    the single-step call on the queries of step t (and the utterance
    alignment of step t) returns the context vectors, the attentional states
    and the attention distribution which the multi-step call returns at
    index t. *)
Theorem multi_step_is_stacked_single_steps :
  forall draw d coverage attn_type output_attn_h rescale self
         (b n s k t : nat) (source bank : tensor3) lens cov
         (utr : tensor3) pos ids,
    __init__ draw d coverage attn_type "softmax" output_attn_h rescale
    = Ok self ->
    (1 <= b)%nat -> (1 <= s)%nat -> (t < n)%nat ->
    shape3 b n d source ->
    shape3 b s d bank ->
    length lens = b ->
    shape3 b n k utr ->
    (forall c, cov = Some c -> coverage = true /\ shape2 b s c) ->
    (rescale = true ->
     exists word_utr_ids,
       ids = Some (word_utr_ids, lens) /\ ids_in_range b s k word_utr_ids) ->
    exists out,
      snd (forward self (T3 source) bank (Some lens) cov (Some (T3 utr))
                   pos ids)
      = Ok out
      /\ snd (forward self (T2 (step t source)) bank (Some lens) cov
                      (Some (T2 (step t utr))) pos ids)
         = Ok (outputs_at t out).
Proof.
  intros draw d coverage attn_type output_attn_h rescale self b n s k t
         source bank lens cov utr pos ids Hinit Hb Hs Ht Hq Hm Hl Hu Hcov
         Hres.
  destruct (init_returns _ _ _ _ _ _ _ _ Hinit)
    as (Hd & Hr & Hfit & Hf & _ & Hcover).
  specialize (Hf eq_refl). subst d.
  assert (Hn : (1 <= n)%nat) by lia.
  pose proof (select_step_shape b n (dim self) t source Ht Hq) as Hq1.
  pose proof (select_step_shape b n k t utr Ht Hu) as Hu1.
  assert (Hcov' : forall c, cov = Some c ->
                            linear_cover self <> None /\ shape2 b s c).
  { intros c E. destruct (Hcov c E) as [Hc Hsc]. split; [|exact Hsc].
    intros Hnone. apply Hcover in Hnone. congruence. }
  destruct (inject_coverage_shape self b s bank cov Hfit Hm Hcov')
    as (buffer & bank' & Hinj & Hm').
  assert (Hres' : seqHRE_attn_rescale self = true ->
                  exists word_utr_ids,
                    ids = Some (word_utr_ids, lens)
                    /\ ids_in_range b s k word_utr_ids).
  { intros E. apply Hres. congruence. }
  destruct (attention_step self b n s k t source bank' lens utr ids Hfit Hf
              Hb Hs Ht Hq Hm' Hl Hu Hres')
    as (a & Hatt & Ha & Hatt1).
  rewrite !forward_unfold. cbn [promote is_one_step].
  pose proof (select_step_as_promote t source) as E1.
  pose proof (select_step_as_promote t utr) as E2.
  unfold tensor3, mat, vec in E1, E2 |- *. rewrite E1, E2. clear E1 E2.
  rewrite (check_inputs_passes self b n s k source bank lens cov utr Hb Hn
             Hs Hq Hm Hu (fun c E => proj2 (Hcov c E))).
  rewrite (check_inputs_passes self b 1 s k (select_step t source) bank
             lens cov (select_step t utr) Hb (le_n 1) Hs Hq1 Hm Hu1
             (fun c E => proj2 (Hcov c E))).
  rewrite Hinj. cbn [snd].
  rewrite (sizes_of_shapes b n s (dim self) (dim self) _ _ Hb Hn Hs Hq Hm).
  rewrite (sizes_of_shapes b 1 s (dim self) (dim self) _ _ Hb (le_n 1) Hs
             Hq1 Hm).
  rewrite (attend_closed self false b n s source bank' lens utr ids a Hb Hn
             ltac:(discriminate) Hfit Hq (shape3_length _ _ _ _ Hm') Hatt
             Ha).
  rewrite (attend_closed self true b 1 s (select_step t source) bank' lens
             (select_step t utr) ids (select_step t a) Hb (le_n 1)
             (fun _ => eq_refl) Hfit Hq1 (shape3_length _ _ _ _ Hm') Hatt1
             (select_step_shape b n s t a Ht Ha)).
  eexists. split; [reflexivity|].
  unfold outputs_at. cbv beta iota zeta. cbn [at_step].
  rewrite (bmm_step b n s (dim self) t a bank' Ht Ha).
  pose proof (bmm_shape b n s (dim self) a bank' Ha
                (shape3_length _ _ _ _ Hm')) as Hc.
  rewrite (attn_output_step self b n (dim self) (dim self) t _ source Ht Hc
             Hq).
  unalias.
  rewrite !squeeze1_select_step, !nth_transpose01 by exact Ht.
  do 2 f_equal. f_equal.
  destruct (attn_output self (bmm (dim self) a bank') source) as [h|];
    [|reflexivity].
  cbn [option_map at_step]. unalias.
  rewrite squeeze1_select_step, nth_transpose01 by exact Ht. reflexivity.
Qed.

Lemma multi_step_is_stacked_single_steps_witness :
  exists out,
    snd (forward (dot_softmax 1) (T3 [[[Fin 1]; [Fin 2]]])
                 [[[Fin 1]; [Fin 3]]] (Some [2%Z]) None
                 (Some (T3 [[[Fin 1]; [Fin 1]]])) None None)
    = Ok out
    /\ snd (forward (dot_softmax 1) (T2 (step 1 [[[Fin 1]; [Fin 2]]]))
                    [[[Fin 1]; [Fin 3]]] (Some [2%Z]) None
                    (Some (T2 (step 1 [[[Fin 1]; [Fin 1]]]))) None None)
       = Ok (outputs_at 1 out).
Proof.
  apply (multi_step_is_stacked_single_steps ones 1 false "dot" false false
           (dot_softmax 1) 1 2 2 1 1 [[[Fin 1]; [Fin 2]]]
           [[[Fin 1]; [Fin 3]]] [2%Z] None [[[Fin 1]; [Fin 1]]] None None).
  - reflexivity.
  - lia.
  - lia.
  - lia.
  - split; [reflexivity | repeat constructor].
  - split; [reflexivity | repeat constructor].
  - reflexivity.
  - split; [reflexivity | repeat constructor].
  - discriminate.
  - discriminate.
Defined.

(* ================================================================= *)
(** * One batch element of a call *)

Lemma select_batch_map {A B} (f : list A -> list B) (bi : nat)
  (x : list (list A)) :
  (bi < length x)%nat ->
  map f (select_batch bi x) = select_batch bi (map f x).
Proof.
  intros H. unfold select_batch. cbn [map]. f_equal. symmetry.
  apply (nth_map_in f bi x [] []). exact H.
Qed.

Lemma select_batch_zip {A B C} (h : list A -> B -> list C) (bi : nat)
  (x : list (list A)) (y : list B) (dy : B) :
  (bi < length x)%nat -> (bi < length y)%nat ->
  zip_with h (select_batch bi x) [nth bi y dy]
  = select_batch bi (zip_with h x y).
Proof.
  intros Hx Hy. unfold select_batch. rewrite zip_with_cons.
  change (zip_with h [] []) with (@nil (list C)). f_equal. symmetry.
  apply (nth_zip_with h bi x y [] dy []); assumption.
Qed.

Lemma select_batch_shape (b n s bi : nat) (x : tensor3) :
  (bi < b)%nat -> shape3 b n s x -> shape3 1 n s (select_batch bi x).
Proof.
  intros Hbi Hx. unfold select_batch. split; [reflexivity|].
  constructor; [|constructor].
  apply (shape3_In b n s x). { exact Hx. }
  apply nth_In. pose proof (shape3_length _ _ _ _ Hx). unalias. lia.
Qed.

Lemma select_batch_shape2 {A} (b s bi : nat) (x : list (list A)) :
  (bi < b)%nat -> shape2 b s x -> shape2 1 s (select_batch bi x).
Proof.
  intros Hbi [Hl Hx]. unfold select_batch. split; [reflexivity|].
  constructor; [|constructor].
  rewrite Forall_forall in Hx. apply Hx. apply nth_In. lia.
Qed.

Lemma scores_by_batch (g : vec -> vec -> fval) (L : vec -> vec)
  (bi : nat) (source h_s : tensor3) :
  (bi < length source)%nat -> (bi < length h_s)%nat ->
  scores_by g (map (map L) (select_batch bi source)) (select_batch bi h_s)
  = select_batch bi (scores_by g (map (map L) source) h_s).
Proof.
  intros Hq Hm. unfold scores_by.
  etransitivity;
    [|apply (select_batch_zip
               (fun ab mb => map (fun q => map (g q) mb) ab) bi
               (map (map L) source) h_s []);
      [rewrite length_map; exact Hq | exact Hm]].
  f_equal. apply (select_batch_map (map L) bi source). exact Hq.
Qed.

Lemma masked_softmax_batch (s bi : nat) (lens : list Z) (w : tensor3) :
  (bi < length w)%nat -> (bi < length lens)%nat ->
  masked_softmax s [nth bi lens 0%Z] (select_batch bi w)
  = select_batch bi (masked_softmax s lens w).
Proof.
  intros Hw Hl. unfold masked_softmax.
  etransitivity;
    [|apply (select_batch_map (map softmax));
      rewrite length_zip_with; unalias; lia].
  f_equal.
  apply (select_batch_zip
           (fun m len =>
              map (fun r =>
                     fill_row r (map (fun i => (Z.of_nat i <? len)%Z)
                                     (seq 0 s)))
                  m));
    assumption.
Qed.

Lemma expanded_batch (bi : nat) (utr : tensor3) (ids : list (list Z)) :
  (bi < length utr)%nat -> (bi < length ids)%nat ->
  expanded (select_batch bi utr) (select_batch bi ids)
  = select_batch bi (expanded utr ids).
Proof.
  intros Hu Hi. unfold expanded.
  apply (select_batch_zip
           (fun u idb =>
              map (fun ut => map (fun i => nth (Z.to_nat i) ut NaN) idb) u)
           bi utr ids []);
    assumption.
Qed.

Lemma rescaled_batch (bi : nat) (align expand : tensor3) :
  (bi < length align)%nat -> (bi < length expand)%nat ->
  rescaled (select_batch bi align) (select_batch bi expand)
  = select_batch bi (rescaled align expand).
Proof.
  intros Ha He. unfold rescaled.
  etransitivity;
    [|apply (select_batch_map (map renormalize));
      rewrite length_zip_with; unalias; lia].
  f_equal.
  apply (select_batch_zip (zip_with (zip_with fmul)) bi align expand []);
    assumption.
Qed.

Lemma bmm_batch (d bi : nat) (a bank : tensor3) :
  (bi < length a)%nat -> (bi < length bank)%nat ->
  bmm d (select_batch bi a) (select_batch bi bank)
  = select_batch bi (bmm d a bank).
Proof.
  intros Ha Hm. unfold bmm.
  apply (select_batch_zip
           (fun ab bb => map (fun w => weighted_row d w bb) ab) bi a bank []);
    assumption.
Qed.

Lemma attn_output_batch (self : SeqHREWordGlobalAttention) (bi : nat)
  (c source : tensor3) :
  (bi < length c)%nat -> (bi < length source)%nat ->
  attn_output self (select_batch bi c) (select_batch bi source)
  = option_map (select_batch bi) (attn_output self c source).
Proof.
  intros Hc Hq. unfold attn_output.
  destruct (linear_out self) as [layer|]; [|reflexivity].
  cbn [option_map]. f_equal.
  assert (E : map (map (linear layer))
                  (zip_with (zip_with (@app fval)) (select_batch bi c)
                            (select_batch bi source))
              = select_batch bi
                  (map (map (linear layer))
                       (zip_with (zip_with (@app fval)) c source))).
  { etransitivity;
      [|apply (select_batch_map (map (linear layer)));
        rewrite length_zip_with; unalias; lia].
    f_equal.
    apply (select_batch_zip (zip_with (@app fval)) bi c source []);
      assumption. }
  rewrite E.
  destruct (is_luong (attn_type_of self)); [|reflexivity].
  apply (select_batch_map (map (map ftanh))).
  rewrite length_map, length_zip_with. unalias. lia.
Qed.

Lemma squeeze1_batch {A} (bi : nat) (x : list (list (list A))) :
  (bi < length x)%nat ->
  squeeze1 (select_batch bi x) = select_batch bi (squeeze1 x).
Proof.
  intros H. unfold squeeze1.
  apply (select_batch_map (fun m : list (list A) => hd [] m) bi x H).
Qed.

Lemma transpose01_batch {A} (n bi : nat) (x : list (list (list A))) :
  (bi < length x)%nat ->
  transpose01 n (select_batch bi x)
  = map (select_batch bi) (transpose01 n x).
Proof.
  intros H. unfold transpose01, select_batch. rewrite map_map.
  apply map_ext. intros j. cbn [map]. f_equal. symmetry.
  apply (nth_map_in (fun m : list (list A) => nth j m []) bi x [] []).
  exact H.
Qed.

Lemma promote_batch (bi : nat) (x : tensor23) :
  (bi < length (promote x))%nat ->
  promote (input_of_batch bi x) = select_batch bi (promote x).
Proof.
  destruct x as [m|t]; cbn [promote input_of_batch]; [|reflexivity].
  unfold unsqueeze1. rewrite length_map. intros H.
  apply (select_batch_map (fun v : vec => [v]) bi m H).
Qed.

Lemma inject_coverage_batch (self : SeqHREWordGlobalAttention) (bi : nat)
  (bank : tensor3) (cov : option mat) (buffer bank' : tensor3) :
  (bi < length bank)%nat ->
  (forall c, cov = Some c -> (bi < length c)%nat) ->
  inject_coverage self bank cov = Ok (buffer, bank') ->
  inject_coverage self (select_batch bi bank)
                  (option_map (select_batch bi) cov)
  = Ok (select_batch bi buffer, select_batch bi bank').
Proof.
  intros Hm Hc H. unfold inject_coverage in *.
  destruct cov as [c|]; cbn [option_map].
  - destruct (linear_cover self) as [layer|]; [|discriminate].
    injection H as <- <-. specialize (Hc c eq_refl).
    assert (E : tensor_add (select_batch bi bank)
                           (project_coverage layer (select_batch bi c))
                = select_batch bi
                    (tensor_add bank (project_coverage layer c))).
    { unfold tensor_add, project_coverage.
      etransitivity;
        [|apply (select_batch_zip (zip_with vadd) bi bank _ []);
          [exact Hm | rewrite !length_map; exact Hc]].
      f_equal.
      etransitivity;
        [|apply (select_batch_map (map (linear layer)));
          rewrite length_map; exact Hc].
      f_equal.
      apply (select_batch_map (map (fun x : fval => [x])) bi c Hc). }
    rewrite E. do 2 f_equal. unfold tensor_tanh.
    apply (select_batch_map (map (map ftanh))).
    unfold tensor_add. rewrite length_zip_with.
    unfold project_coverage. rewrite !length_map. unalias. lia.
  - injection H as <- <-. reflexivity.
Qed.

Section Batches.

Variable self : SeqHREWordGlobalAttention.
Variables (b n s k bi : nat).
Variables (source bank : tensor3) (lens : list Z) (utr : tensor3)
          (ids : option word_utr).

Hypothesis Hfit : layers_fit self.
Hypothesis Hf : attn_func_of self = Softmax.
Hypothesis Hbi : (bi < b)%nat.
Hypothesis Hn : (1 <= n)%nat.
Hypothesis Hs : (1 <= s)%nat.
Hypothesis Hq : shape3 b n (dim self) source.
Hypothesis Hm : shape3 b s (dim self) bank.
Hypothesis Hl : length lens = b.
Hypothesis Hu : shape3 b n k utr.
Hypothesis Hres :
  seqHRE_attn_rescale self = true ->
  exists word_utr_ids,
    ids = Some (word_utr_ids, lens) /\ ids_in_range b s k word_utr_ids.

(** The attention distribution of one batch element alone is its part of
    the attention distribution of the batch. *)
Lemma attention_batch :
  exists a,
    attention self source bank lens utr ids = Ok a
    /\ shape3 b n s a
    /\ attention self (select_batch bi source) (select_batch bi bank)
                 [nth bi lens 0%Z] (select_batch bi utr)
                 (option_map (ids_of_batch bi) ids)
       = Ok (select_batch bi a).
Proof.
  assert (Hb : (1 <= b)%nat) by lia.
  destruct (score_closed self Hfit) as (g & L & Hscore).
  pose proof (select_batch_shape b n (dim self) bi source Hbi Hq) as Hq1.
  pose proof (select_batch_shape b s (dim self) bi bank Hbi Hm) as Hm1.
  pose proof (select_batch_shape b n k bi utr Hbi Hu) as Hu1.
  pose proof (shape3_length _ _ _ _ Hq) as Lq.
  pose proof (shape3_length _ _ _ _ Hm) as Lm.
  pose proof (shape3_length _ _ _ _ Hu) as Lu.
  set (w := scores_by g (map (map L) source) bank).
  assert (Hw : shape3 b n s w)
    by exact (scores_by_shape g L b n s _ _ source bank Hq Hm).
  pose proof (shape3_length _ _ _ _ Hw) as Lw.
  destruct (masked_softmax_closed b n s lens w Hb Hn Hl Hw) as [Hn1 Ha0].
  pose proof (select_batch_shape b n s bi w Hbi Hw) as Hw1.
  destruct (masked_softmax_closed 1 n s [nth bi lens 0%Z]
              (select_batch bi w) (le_n 1) Hn eq_refl Hw1) as [Hn2 _].
  unfold attention.
  rewrite (Hscore b n s source bank Hb Hn Hs Hq Hm).
  rewrite (Hscore 1%nat n s (select_batch bi source) (select_batch bi bank)
             (le_n 1) Hn Hs Hq1 Hm1).
  cbn [bind]. rewrite Hf.
  rewrite (scores_by_batch g L bi source bank) by (unalias; lia).
  fold w. rewrite Hn1, Hn2. cbn [bind].
  rewrite (masked_softmax_batch s bi lens w) by (unalias; lia).
  set (a0 := masked_softmax s lens w) in *.
  pose proof (shape3_length _ _ _ _ Ha0) as La.
  destruct (seqHRE_attn_rescale self).
  - destruct (Hres eq_refl) as (wids & -> & Hids).
    cbn [option_map]. unfold ids_of_batch. cbn [fst snd].
    assert (Hids1 : ids_in_range 1 s k (select_batch bi wids)).
    { destruct Hids as [Hil Hi]. split; [reflexivity|].
      constructor; [|constructor].
      rewrite Forall_forall in Hi. apply Hi. apply nth_In. lia. }
    rewrite (hre_rescale_closed b n s k utr wids a0 Hu Hids Ha0 lens).
    pose proof (hre_rescale_closed 1 n s k (select_batch bi utr)
                  (select_batch bi wids) (select_batch bi a0) Hu1 Hids1
                  (select_batch_shape b n s bi a0 Hbi Ha0)
                  [nth bi lens 0%Z]) as E.
    pose proof (expanded_shape b n s k utr wids Hu Hids) as He.
    eexists. split; [reflexivity|].
    split; [exact (rescaled_shape b n s a0 _ Ha0 He)|].
    etransitivity; [exact E|]. f_equal.
    rewrite (expanded_batch bi utr wids)
      by (destruct Hids as [Hil _]; unalias; lia).
    apply (rescaled_batch bi a0 (expanded utr wids));
      pose proof (shape3_length _ _ _ _ He); unalias; lia.
  - exists a0. split; [reflexivity|]. split; [exact Ha0 | reflexivity].
Qed.

End Batches.

(** X23: the batch elements do not interact.  For a module built by [__init__]
    with softmax and inputs of agreeing shapes, the call on batch element bi
    alone (its queries, its source vectors, its length, its coverage, its
    utterance alignment and its unit ids) returns the part of the outputs of
    the whole batch which belongs to that element. *)
Theorem batch_elements_are_independent :
  forall draw d coverage attn_type output_attn_h rescale self
         (b n s k bi : nat) source (bank : tensor3) lens cov utr pos ids,
    __init__ draw d coverage attn_type "softmax" output_attn_h rescale
    = Ok self ->
    (1 <= n)%nat -> (1 <= s)%nat -> (bi < b)%nat ->
    shape3 b n d (promote source) ->
    shape3 b s d bank ->
    length lens = b ->
    shape3 b n k (promote utr) ->
    (forall c, cov = Some c -> coverage = true /\ shape2 b s c) ->
    (rescale = true ->
     exists word_utr_ids,
       ids = Some (word_utr_ids, lens) /\ ids_in_range b s k word_utr_ids) ->
    exists out,
      snd (forward self source bank (Some lens) cov (Some utr) pos ids)
      = Ok out
      /\ snd (forward self (input_of_batch bi source) (select_batch bi bank)
                      (Some [nth bi lens 0%Z])
                      (option_map (select_batch bi) cov)
                      (Some (input_of_batch bi utr)) pos
                      (option_map (ids_of_batch bi) ids))
         = Ok (outputs_of_batch bi out).
Proof.
  intros draw d coverage attn_type output_attn_h rescale self b n s k bi
         source bank lens cov utr pos ids Hinit Hn Hs Hbi Hq Hm Hl Hu Hcov
         Hres.
  destruct (init_returns _ _ _ _ _ _ _ _ Hinit)
    as (Hd & Hr & Hfit & Hf & _ & Hcover).
  specialize (Hf eq_refl). subst d.
  assert (Hb : (1 <= b)%nat) by lia.
  pose proof (shape3_length _ _ _ _ Hq) as Lq.
  pose proof (shape3_length _ _ _ _ Hm) as Lm.
  pose proof (shape3_length _ _ _ _ Hu) as Lu.
  pose proof (select_batch_shape b n (dim self) bi _ Hbi Hq) as Hq1.
  pose proof (select_batch_shape b s (dim self) bi _ Hbi Hm) as Hm1.
  pose proof (select_batch_shape b n k bi _ Hbi Hu) as Hu1.
  assert (Hcov' : forall c, cov = Some c ->
                            linear_cover self <> None /\ shape2 b s c).
  { intros c E. destruct (Hcov c E) as [Hc Hsc]. split; [|exact Hsc].
    intros Hnone. apply Hcover in Hnone. congruence. }
  destruct (inject_coverage_shape self b s bank cov Hfit Hm Hcov')
    as (buffer & bank' & Hinj & Hm').
  pose proof (shape3_length _ _ _ _ Hm') as Lm'.
  assert (Hinj1 : inject_coverage self (select_batch bi bank)
                                  (option_map (select_batch bi) cov)
                  = Ok (select_batch bi buffer, select_batch bi bank')).
  { apply inject_coverage_batch; [unalias; lia| |exact Hinj].
    intros c E. destruct (Hcov c E) as [_ [Hlc _]]. unalias. lia. }
  assert (Hres' : seqHRE_attn_rescale self = true ->
                  exists word_utr_ids,
                    ids = Some (word_utr_ids, lens)
                    /\ ids_in_range b s k word_utr_ids).
  { intros E. apply Hres. congruence. }
  destruct (attention_batch self b n s k bi (promote source) bank' lens
              (promote utr) ids Hfit Hf Hbi Hn Hs Hq Hm' Hl Hu Hres')
    as (a & Hatt & Ha & Hatt1).
  pose proof (shape3_length _ _ _ _ Ha) as La.
  pose proof (one_step_target_length b n (dim self) source Hb Hq) as Hone.
  rewrite !forward_unfold.
  rewrite !promote_batch by (unalias; lia).
  replace (is_one_step (input_of_batch bi source)) with (is_one_step source)
    by (destruct source; reflexivity).
  rewrite (check_inputs_passes self b n s k (promote source) bank lens cov
             (promote utr) Hb Hn Hs Hq Hm Hu (fun c E => proj2 (Hcov c E))).
  assert (Hcov1 : forall c, option_map (select_batch bi) cov = Some c ->
                            shape2 1 s c).
  { intros c E. destruct cov as [c0|]; [|discriminate].
    injection E as <-.
    exact (select_batch_shape2 b s bi c0 Hbi (proj2 (Hcov c0 eq_refl))). }
  rewrite (check_inputs_passes self 1 n s k (select_batch bi (promote source))
             (select_batch bi bank) [nth bi lens 0%Z]
             (option_map (select_batch bi) cov)
             (select_batch bi (promote utr)) (le_n 1) Hn Hs Hq1 Hm1 Hu1
             Hcov1).
  rewrite Hinj, Hinj1. cbn [snd].
  rewrite (sizes_of_shapes b n s (dim self) (dim self) _ _ Hb Hn Hs Hq Hm).
  rewrite (sizes_of_shapes 1 n s (dim self) (dim self) _ _ (le_n 1) Hn Hs
             Hq1 Hm1).
  rewrite (attend_closed self (is_one_step source) b n s (promote source)
             bank' lens (promote utr) ids a Hb Hn Hone Hfit Hq Lm' Hatt Ha).
  rewrite (attend_closed self (is_one_step source) 1 n s
             (select_batch bi (promote source)) (select_batch bi bank')
             [nth bi lens 0%Z] (select_batch bi (promote utr))
             (option_map (ids_of_batch bi) ids) (select_batch bi a)
             (le_n 1) Hn Hone Hfit Hq1 eq_refl Hatt1
             (select_batch_shape b n s bi a Hbi Ha)).
  eexists. split; [reflexivity|].
  unfold outputs_of_batch. cbv beta zeta.
  rewrite (bmm_batch (dim self) bi a bank') by (unalias; lia).
  pose proof (bmm_shape b n s (dim self) a bank' Ha Lm') as Hc.
  pose proof (shape3_length _ _ _ _ Hc) as Lc.
  rewrite (attn_output_batch self bi (bmm (dim self) a bank')
             (promote source)) by (unalias; lia).
  set (c := bmm (dim self) a bank') in *.
  pose proof (attn_output_shape self b n (dim self) (dim self) c
                (promote source) Hfit Hc Hq) as Hh.
  f_equal.
  destruct (is_one_step source); cbv iota; cbn [batch_of]; unalias.
  - rewrite !squeeze1_batch by lia. do 2 f_equal.
    destruct (attn_output self c (promote source)) as [h|]; [|reflexivity].
    cbn [option_map batch_of]. do 2 f_equal.
    apply squeeze1_batch.
    pose proof (shape3_length _ _ _ _ (proj2 Hh)). unalias. lia.
  - rewrite !transpose01_batch by lia. do 2 f_equal.
    destruct (attn_output self c (promote source)) as [h|]; [|reflexivity].
    cbn [option_map batch_of]. do 2 f_equal.
    apply transpose01_batch.
    pose proof (shape3_length _ _ _ _ (proj2 Hh)). unalias. lia.
Qed.

Lemma batch_elements_are_independent_witness :
  exists out,
    snd (forward (dot_softmax 1) (T2 [[Fin 1]; [Fin 2]])
                 [[[Fin 1]]; [[Fin 3]]] (Some [1%Z; 1%Z]) None
                 (Some (T2 [[Fin 1]; [Fin 1]])) None None)
    = Ok out
    /\ snd (forward (dot_softmax 1)
                    (input_of_batch 1 (T2 [[Fin 1]; [Fin 2]]))
                    (select_batch 1 [[[Fin 1]]; [[Fin 3]]])
                    (Some [nth 1 [1%Z; 1%Z] 0%Z])
                    (option_map (select_batch 1) None)
                    (Some (input_of_batch 1 (T2 [[Fin 1]; [Fin 1]]))) None
                    (option_map (ids_of_batch 1) None))
       = Ok (outputs_of_batch 1 out).
Proof.
  apply (batch_elements_are_independent ones 1 false "dot" false false
           (dot_softmax 1) 2 1 1 1 1 (T2 [[Fin 1]; [Fin 2]])
           [[[Fin 1]]; [[Fin 3]]] [1%Z; 1%Z] None (T2 [[Fin 1]; [Fin 1]])
           None None).
  - reflexivity.
  - lia.
  - lia.
  - lia.
  - split; [reflexivity | repeat constructor].
  - split; [reflexivity | repeat constructor].
  - reflexivity.
  - split; [reflexivity | repeat constructor].
  - discriminate.
  - discriminate.
Defined.

(* ================================================================= *)
(** * The order of the weights *)

Section WeightOrder.

Open Scope R_scope.

Lemma exp_monotone (x y : R) : x <= y -> exp x <= exp y.
Proof.
  intros [H | ->]; [|lra]. left. apply exp_increasing. exact H.
Qed.

Lemma nth_error_Rsoftmax (m : R) (xs : list R) (i : nat) :
  nth_error (Rsoftmax m xs) i
  = option_map
      (fun x => exp (x + - m) / Rsum (map (fun x => exp (x + - m)) xs))
      (nth_error xs i).
Proof.
  unfold Rsoftmax. cbv zeta. rewrite !nth_error_map.
  destruct (nth_error xs i); reflexivity.
Qed.

(** Line 208 on a masked row, with the finite scores it normalizes. *)
Lemma masked_softmax_row_scores (len : Z) (r : vec) :
  (1 <= len)%Z -> r <> [] -> finite_prefix len r ->
  exists m xs,
    firstn (Z.to_nat len) r = map Fin xs
    /\ xs <> []
    /\ softmax (fill_row r (map (fun i => (Z.of_nat i <? len)%Z)
                                (seq 0 (length r))))
       = padded (Rsoftmax m xs) (length r - Z.to_nat len).
Proof.
  intros Hlen Hrow Hfin.
  rewrite fill_row_seq, Nat.sub_0_r.
  destruct (finite_as_map _ (finite_prefix_firstn len r Hfin)) as [xs Hxs].
  rewrite Hxs. fold (masked xs (length r - Z.to_nat len)).
  assert (Hlx : length xs = Nat.min (Z.to_nat len) (length r)).
  { rewrite <- (length_map Fin xs), <- Hxs. apply length_firstn. }
  assert (Hne : xs <> []).
  { intros ->. destruct r; [contradiction|]. simpl in Hlx. lia. }
  destruct (softmax_masked xs (length r - Z.to_nat len) Hne) as [m Hm].
  exists m, xs. split; [reflexivity|]. split; [exact Hne | exact Hm].
Qed.

Lemma softmax_row_monotone (len : Z) (r : vec) (i j : nat) (xi xj : R) :
  (1 <= len)%Z -> finite_prefix len r ->
  (i < Z.to_nat len)%nat -> (j < Z.to_nat len)%nat ->
  nth_error r i = Some (Fin xi) -> nth_error r j = Some (Fin xj) ->
  xi <= xj ->
  exists pi pj,
    nth_error (softmax (fill_row r (map (fun i => (Z.of_nat i <? len)%Z)
                                        (seq 0 (length r))))) i
    = Some (Fin pi)
    /\ nth_error (softmax (fill_row r (map (fun i => (Z.of_nat i <? len)%Z)
                                           (seq 0 (length r))))) j
       = Some (Fin pj)
    /\ pi <= pj.
Proof.
  intros Hlen Hfin Hi Hj Hxi Hxj Hle.
  assert (Hrow : r <> []) by (intros ->; destruct i; discriminate).
  destruct (masked_softmax_row_scores len r Hlen Hrow Hfin)
    as (m & xs & Hxs & Hne & ->).
  assert (Hnth : forall i0 x, (i0 < Z.to_nat len)%nat ->
                              nth_error r i0 = Some (Fin x) ->
                              nth_error xs i0 = Some x).
  { intros i0 x Hi0 Hx.
    assert (E : nth_error (map Fin xs) i0 = Some (Fin x)).
    { rewrite <- Hxs, nth_error_firstn.
      destruct (Nat.ltb_spec i0 (Z.to_nat len)); [exact Hx | lia]. }
    rewrite nth_error_map in E.
    destruct (nth_error xs i0) as [y|]; [|discriminate].
    injection E as ->. reflexivity. }
  pose proof (Hnth i xi Hi Hxi) as Ei. pose proof (Hnth j xj Hj Hxj) as Ej.
  assert (Hlen_i : (i < length xs)%nat)
    by (apply nth_error_Some; congruence).
  assert (Hlen_j : (j < length xs)%nat)
    by (apply nth_error_Some; congruence).
  set (S := Rsum (map (fun x => exp (x + - m)) xs)).
  pose proof (Rsum_exp_pos m xs Hne) as HS. fold S in HS.
  exists (exp (xi + - m) / S), (exp (xj + - m) / S).
  unfold padded.
  rewrite !nth_error_app1
    by (rewrite length_map, length_Rsoftmax; assumption).
  rewrite !nth_error_map, !nth_error_Rsoftmax, Ei, Ej. cbn [option_map].
  fold S. split; [reflexivity|]. split; [reflexivity|].
  pose proof (exp_monotone (xi + - m) (xj + - m) ltac:(lra)) as He.
  pose proof (Rinv_0_lt_compat _ HS) as Hinv.
  unfold Rdiv. nra.
Qed.

End WeightOrder.

(** X24: softmax keeps the order of the scores: of two source positions before
    the length whose raw scores are finite, the one with the higher score
    never gets the lower weight (and equal scores get equal weights). *)
Theorem softmax_preserves_score_order :
  forall (lens : list Z) (word_align : tensor3),
    length lens = length word_align ->
    exists a,
      masked_normalize Softmax lens word_align = Ok a
      /\ forall bi ti len r i j xi xj,
          nth_error lens bi = Some len ->
          row_at word_align bi ti = Some r ->
          (1 <= len)%Z ->
          length r = size_last word_align ->
          finite_prefix len r ->
          (i < Z.to_nat len)%nat -> (j < Z.to_nat len)%nat ->
          nth_error r i = Some (Fin xi) -> nth_error r j = Some (Fin xj) ->
          (xi <= xj)%R ->
          exists row pi pj,
            row_at a bi ti = Some row
            /\ nth_error row i = Some (Fin pi)
            /\ nth_error row j = Some (Fin pj)
            /\ (pi <= pj)%R.
Proof.
  intros lens word_align Hl.
  rewrite (masked_normalize_softmax_closed lens word_align Hl).
  eexists. split; [reflexivity|].
  intros bi ti len r i j xi xj Hlen Hr Hpos Hs Hfin Hi Hj Hxi Hxj Hle.
  rewrite (row_at_masked_softmax lens word_align bi ti len r Hlen Hr).
  rewrite <- Hs.
  destruct (softmax_row_monotone len r i j xi xj Hpos Hfin Hi Hj Hxi Hxj
              Hle) as (pi & pj & Hpi & Hpj & Hp).
  eexists. exists pi, pj. split; [reflexivity|].
  split; [exact Hpi|]. split; [exact Hpj | exact Hp].
Qed.

Lemma softmax_preserves_score_order_witness :
  exists a,
    masked_normalize Softmax [2%Z] [[[Fin 1; Fin 2]]] = Ok a
    /\ forall bi ti len r i j xi xj,
        nth_error [2%Z] bi = Some len ->
        row_at [[[Fin 1; Fin 2]]] bi ti = Some r ->
        (1 <= len)%Z ->
        length r = size_last [[[Fin 1; Fin 2]]] ->
        finite_prefix len r ->
        (i < Z.to_nat len)%nat -> (j < Z.to_nat len)%nat ->
        nth_error r i = Some (Fin xi) -> nth_error r j = Some (Fin xj) ->
        (xi <= xj)%R ->
        exists row pi pj,
          row_at a bi ti = Some row
          /\ nth_error row i = Some (Fin pi)
          /\ nth_error row j = Some (Fin pj)
          /\ (pi <= pj)%R.
Proof.
  apply (softmax_preserves_score_order [2%Z] [[[Fin 1; Fin 2]]]).
  reflexivity.
Defined.

(** X25: rescaling switches off the words of an utterance which the coarse
    alignment gives the weight zero: in a row whose renormalization term is
    a finite number other than zero, every source position assigned to such
    a unit gets exactly the weight zero. *)
Theorem rescale_suppresses_unattended_units :
  forall (b t s n : nat) (lens : list Z) (utr : tensor3)
         (ids : list (list Z)) (align : tensor3),
    shape3 b t n utr ->
    ids_in_range b s n ids ->
    shape3 b t s align ->
    exists out,
      hre_rescale lens utr (Some (ids, lens)) align = Ok out
      /\ forall bi ti a u idb i id ai nt,
          row_at align bi ti = Some a ->
          row_at utr bi ti = Some u ->
          nth_error ids bi = Some idb ->
          nth_error idb i = Some id ->
          nth (Z.to_nat id) u NaN = Fin 0%R ->
          nth_error a i = Some (Fin ai) ->
          norm_term
            (zip_with fmul a (map (fun i => nth (Z.to_nat i) u NaN) idb))
          = Fin nt ->
          nt <> 0%R ->
          exists row,
            row_at out bi ti = Some row
            /\ nth_error row i = Some (Fin 0%R).
Proof.
  intros b t s n lens utr ids align Hutr Hids Halign.
  exists (rescaled align (expanded utr ids)).
  split; [exact (hre_rescale_closed b t s n utr ids align Hutr Hids Halign
                   lens)|].
  intros bi ti a u idb i id ai nt Ha Hu Hidb Hi Hzero Hai Hn Hnt.
  assert (He : row_at (expanded utr ids) bi ti
               = Some (map (fun i => nth (Z.to_nat i) u NaN) idb)).
  { unfold row_at, expanded in *. unalias. rewrite nth_error_zip_with.
    destruct (nth_error utr bi) as [m|]; [|discriminate].
    rewrite Hidb, nth_error_map, Hu. reflexivity. }
  eexists. split; [exact (row_at_rescaled _ _ _ _ _ _ Ha He)|].
  unfold renormalize. rewrite Hn.
  rewrite nth_error_map, nth_error_zip_with, Hai, nth_error_map, Hi.
  cbn [option_map]. rewrite Hzero. cbn [fmul].
  rewrite fdiv_fin by exact Hnt. do 2 f_equal. unfold Rdiv. lra.
Qed.

Lemma rescale_suppresses_unattended_units_witness :
  exists out,
    hre_rescale [2%Z] [[[Fin 1; Fin 0]]] (Some ([[0%Z; 1%Z]], [2%Z]))
                [[[Fin 1; Fin 3]]] = Ok out
    /\ forall bi ti a u idb i id ai nt,
        row_at [[[Fin 1; Fin 3]]] bi ti = Some a ->
        row_at [[[Fin 1; Fin 0]]] bi ti = Some u ->
        nth_error [[0%Z; 1%Z]] bi = Some idb ->
        nth_error idb i = Some id ->
        nth (Z.to_nat id) u NaN = Fin 0%R ->
        nth_error a i = Some (Fin ai) ->
        norm_term
          (zip_with fmul a (map (fun i => nth (Z.to_nat i) u NaN) idb))
        = Fin nt ->
        nt <> 0%R ->
        exists row,
          row_at out bi ti = Some row
          /\ nth_error row i = Some (Fin 0%R).
Proof.
  apply (rescale_suppresses_unattended_units 1 1 2 2 [2%Z]
           [[[Fin 1; Fin 0]]] [[0%Z; 1%Z]] [[[Fin 1; Fin 3]]]).
  - split; [reflexivity | repeat constructor].
  - split; [reflexivity|]. repeat constructor; lia.
  - split; [reflexivity | repeat constructor].
Defined.

(* ================================================================= *)
(** * The context vector as a weighted average *)

Section WeightedAverage.

Open Scope R_scope.

Lemma weighted_sum_bounds (k0 : nat) (lo hi : R) (ps : list R) :
  forall (M : list (list R)),
    Forall (fun p => 0 <= p) ps ->
    (forall j p row,
        nth_error ps j = Some p -> nth_error M j = Some row -> 0 < p ->
        lo <= nth k0 row 0 <= hi) ->
    let total := Rsum (zip_with (fun p row => p * nth k0 row 0) ps M) in
    let mass := Rsum (firstn (length M) ps) in
    lo * mass <= total <= hi * mass.
Proof.
  induction ps as [|p ps IH]; intros M Hnn Hrows.
  - cbv zeta. rewrite firstn_nil. simpl. lra.
  - destruct M as [|row M].
    + cbv zeta. simpl. lra.
    + inversion Hnn as [|? ? Hp Hps]; subst.
      specialize (IH M Hps
                    (fun j q r Hq Hr Hpos => Hrows (S j) q r Hq Hr Hpos)).
      cbv zeta in *. rewrite zip_with_cons.
      cbn [length firstn Rsum fold_right].
      fold (Rsum (zip_with (fun p row => p * nth k0 row 0) ps M)).
      fold (Rsum (firstn (length M) ps)).
      destruct Hp as [Hpos|<-]; [|lra].
      pose proof (Hrows 0%nat p row eq_refl eq_refl Hpos). nra.
Qed.

Lemma weighted_row_fin (d k0 : nat) (ps : list R) (M : list (list R)) :
  (k0 < d)%nat ->
  nth_error (weighted_row d (map Fin ps) (map (map Fin) M)) k0
  = Some (Fin (Rsum (zip_with (fun p row => p * nth k0 row 0) ps M))).
Proof.
  intros Hk. unfold weighted_row. rewrite nth_error_map, nth_error_seq.
  destruct (Nat.ltb_spec k0 d); [|lia]. cbn [option_map Nat.add]. f_equal.
  rewrite <- fsum_map_Fin. f_equal.
  revert M. induction ps as [|p ps IH]; intros [|row M]; try reflexivity.
  cbn [map]. rewrite !zip_with_cons. cbn [map]. rewrite IH. f_equal.
  change (Fin 0) with (Fin 0%R).
  rewrite (map_nth Fin row 0 k0). reflexivity.
Qed.

End WeightedAverage.

(** X26: line 234 computes a weighted average.  Under a row of non-negative
    finite weights of sum 1, each feature of the context vector of a finite
    source bank lies between the smallest and the largest value which that
    feature takes among the source vectors of positive weight. *)
Theorem context_is_weighted_average :
  forall (d k0 : nat) (lo hi : R) (ps : list R) (M : list (list R)),
    (k0 < d)%nat ->
    length M = length ps ->
    Forall (fun p => (0 <= p)%R) ps ->
    Rsum ps = 1%R ->
    (forall j p row,
        nth_error ps j = Some p -> nth_error M j = Some row -> (0 < p)%R ->
        (lo <= nth k0 row 0 <= hi)%R) ->
    exists y,
      nth_error (weighted_row d (map Fin ps) (map (map Fin) M)) k0
      = Some (Fin y)
      /\ (lo <= y <= hi)%R.
Proof.
  intros d k0 lo hi ps M Hk Hlen Hnn Hsum Hrows.
  eexists. split; [exact (weighted_row_fin d k0 ps M Hk)|].
  pose proof (weighted_sum_bounds k0 lo hi ps M Hnn Hrows) as H.
  cbv zeta in H. rewrite Hlen, firstn_all, Hsum in H. lra.
Qed.

Lemma context_is_weighted_average_witness :
  exists y,
    nth_error (weighted_row 1 (map Fin [1; 0]%R)
                            (map (map Fin) [[2]; [9]]%R)) 0
    = Some (Fin y)
    /\ (2 <= y <= 2)%R.
Proof.
  apply (context_is_weighted_average 1 0 2 2 [1; 0]%R [[2]; [9]]%R).
  - lia.
  - reflexivity.
  - repeat constructor; lra.
  - simpl. lra.
  - intros [|[|j]] p row Hp Hrow Hpos.
    + injection Hrow as <-. simpl. lra.
    + injection Hp as <-. lra.
    + destruct j; discriminate.
Defined.

(* ================================================================= *)
(** ** The rows of the returned attention distribution *)








(* ================================================================= *)
(** ** What the size checks compare *)

(** C8 fails for the source lengths: their number is not among the
    compared sizes.  For a batch of two, a single length passes every check
    and the call returns: the mask is broadcast over the batch.  Three
    lengths pass the checks of lines 175-181 as well; [score] computes the
    scores, and only then [masked_fill_] raises a RuntimeError, which is not
    the error of [aeq]. *)
Lemma lengths_batch_mismatch_is_not_reported :
  let self := dot_softmax 1 in
  let source := T2 [[Fin 1]; [Fin 2]] in
  let memory_bank := [[[Fin 1]]; [[Fin 3]]] in
  let u := Some (T2 [[Fin 1]; [Fin 1]]) in
  is_ok (snd (forward self source memory_bank (Some [1%Z]) None u None None))
  = true
  /\ check_inputs self (promote source) memory_bank (Some [1; 1; 1]%Z) None
                  (promote (T2 [[Fin 1]; [Fin 1]]))
     = Ok [1; 1; 1]%Z
  /\ is_ok (score self (promote source) memory_bank) = true
  /\ forward self source memory_bank (Some [1; 1; 1]%Z) None u None None
     = (memory_bank, Err shape_error)
  /\ forall args, shape_error <> AeqError args.
Proof.
  cbv zeta.
  split; [reflexivity|]. split; [reflexivity|]. split; [reflexivity|].
  split; [reflexivity|]. intros args. discriminate.
Qed.

(** C8, as the code has it: for a source bank, a query and an utterance
    alignment without an empty batch, step or position axis, when the query
    and the source bank disagree on the feature dimension (or the three
    disagree on the batch size, or the query and the utterance alignment on
    the target length), the call raises the AssertionError of [aeq], which
    carries the compared, differing values; it is raised by the size checks
    of lines 175-181, before the coverage injection and before [score], and
    the caller's buffer is untouched. *)
Theorem shape_mismatch_raises :
  forall self source memory_bank memory_lengths coverage u
         utr_position_tuple src_word_utr_ids
         batch source_l d batch_ target_l d_ batch__ target_l_ s_sum,
    (1 <= batch)%nat -> (1 <= source_l)%nat ->
    (1 <= batch_)%nat -> (1 <= target_l)%nat ->
    (1 <= batch__)%nat -> (1 <= target_l_)%nat ->
    shape3 batch source_l d memory_bank ->
    shape3 batch_ target_l d_ (promote source) ->
    shape3 batch__ target_l_ s_sum (promote u) ->
    d <> d_ \/ ~ (batch = batch_ /\ batch = batch__) \/ target_l <> target_l_ ->
    exists args,
      In args [[batch; batch_; batch__]; [d; d_]; [dim self; d];
               [target_l; target_l_]]
      /\ aeq args = Err (AeqError args)
      /\ check_inputs self (promote source) memory_bank memory_lengths
                      coverage (promote u) = Err (AeqError args)
      /\ forward self source memory_bank memory_lengths coverage (Some u)
                 utr_position_tuple src_word_utr_ids
         = (memory_bank, Err (AeqError args)).
Proof.
  intros self source memory_bank memory_lengths coverage u pos ids
         batch source_l d batch_ target_l d_ batch__ target_l_ s_sum
         Hb Hsl Hb_ Htl Hb__ Htl_ Hm Hs Hu Hdis.
  apply (size3_shape3 _ _ _ _ Hb Hsl) in Hm.
  apply (size3_shape3 _ _ _ _ Hb_ Htl) in Hs.
  apply (size3_shape3 _ _ _ _ Hb__ Htl_) in Hu.
  assert (Hchk : exists args,
             In args [[batch; batch_; batch__]; [d; d_]; [dim self; d];
                      [target_l; target_l_]]
             /\ aeq args = Err (AeqError args)
             /\ check_inputs self (promote source) memory_bank memory_lengths
                             coverage (promote u) = Err (AeqError args)).
  { unfold check_inputs. rewrite Hm, Hs, Hu.
    destruct (aeq_cases [batch; batch_; batch__]) as [H1|H1].
    2:{ exists [batch; batch_; batch__]. rewrite H1. simpl. auto. }
    destruct (aeq_cases [d; d_]) as [H2|H2].
    2:{ exists [d; d_]. rewrite H1, H2. simpl. auto. }
    destruct (aeq_cases [dim self; d]) as [H3|H3].
    2:{ exists [dim self; d]. rewrite H1, H2, H3. simpl. auto 6. }
    destruct (aeq_cases [target_l; target_l_]) as [H4|H4].
    2:{ exists [target_l; target_l_]. rewrite H1, H2, H3, H4. simpl. auto 6. }
    exfalso.
    apply aeq_triple_ok in H1. apply aeq_pair_ok in H2.
    apply aeq_pair_ok in H4. tauto. }
  destruct Hchk as (args & Hin & Hargs & Hchk).
  exists args. repeat split; try assumption.
  apply forward_check_error. exact Hchk.
Qed.

Lemma shape_mismatch_raises_witness :
  exists args,
    In args [[1; 1; 1]; [5; 4]; [4; 5]; [1; 1]]%nat
    /\ aeq args = Err (AeqError args)
    /\ check_inputs (dot_softmax 4) (promote (T2 query4)) bank5 (Some [1%Z])
                    None (promote (T2 [[Fin 1]])) = Err (AeqError args)
    /\ forward (dot_softmax 4) (T2 query4) bank5 (Some [1%Z]) None
               (Some (T2 [[Fin 1]])) None None
       = (bank5, Err (AeqError args)).
Proof.
  apply (shape_mismatch_raises (dot_softmax 4) (T2 query4) bank5
           (Some [1%Z]) None (T2 [[Fin 1]]) None None
           1 1 5 1 1 4 1 1 1);
    try lia;
    unfold bank5, query4;
    (split; [reflexivity | repeat constructor]).
Defined.

(* ================================================================= *)
(** ** The coverage injection, entry by entry: lines 192-195 *)

Lemma fadd_0_r (a : fval) : fadd a (Fin 0) = a.
Proof. destruct a; simpl; try reflexivity. f_equal. lra. Qed.

(** [linear_cover] has one input feature and no bias: the entry it adds at
    [[b][j][k]] is the coverage of the position times the weight of
    feature [k]. *)
Lemma injected_entry (layer : Linear) (bank : tensor3) (cov : mat)
  (bi j k : nat) (x c w : fval) :
  bias layer = None ->
  entry3 bank bi j k = Some x ->
  row_at cov bi j = Some c ->
  row_at (weight layer) k 0 = Some w ->
  entry3 (tensor_add bank (project_coverage layer cov)) bi j k
  = Some (fadd x (fmul c w)).
Proof.
  intros Hb Hx Hc Hw.
  unfold entry3, row_at in *. unfold tensor_add, project_coverage. unalias.
  rewrite nth_error_zip_with, !nth_error_map. unalias.
  destruct (nth_error bank bi) as [m|]; [|cbn in Hx; discriminate Hx].
  destruct (nth_error cov bi) as [cm|]; [|cbn in Hc; discriminate Hc].
  cbn [option_map]. rewrite nth_error_zip_with, !nth_error_map, Hc.
  unalias.
  destruct (nth_error m j) as [r|]; [|cbn in Hx; discriminate Hx].
  cbn [option_map]. unfold vadd, linear. rewrite Hb.
  rewrite nth_error_zip_with, nth_error_map, Hx. unalias.
  destruct (@nth_error (list fval) (weight layer) k) as [wr|];
    [|cbn in Hw; discriminate Hw].
  cbn [option_map]. destruct wr as [|w0 wr]; [cbn in Hw; discriminate Hw|].
  injection Hw as ->.
  unfold fdot. rewrite zip_with_cons, zip_with_nil_l.
  cbn [fsum fold_right]. rewrite fadd_0_r. reflexivity.
Qed.

Lemma tanh_entry (x : tensor3) (bi j k : nat) :
  entry3 (tensor_tanh x) bi j k = option_map ftanh (entry3 x bi j k).
Proof.
  unfold entry3, row_at, tensor_tanh. unalias. rewrite nth_error_map.
  destruct (nth_error x bi) as [m|]; [|reflexivity].
  cbn [option_map]. rewrite nth_error_map.
  destruct (nth_error m j) as [r|]; [|reflexivity].
  cbn [option_map]. apply nth_error_map.
Qed.

(** C10: without a coverage argument [forward] leaves the caller's
    [memory_bank] buffer as it found it.  With a coverage accumulator (and
    the bias-free layer [__init__] builds for it), once the size checks
    pass, the buffer ends up holding memory_bank + linear_cover(coverage):
    its entry [[b][j][k]] is memory_bank[b][j][k] + coverage[b][j] *
    weight[k][0], in a tensor of the sizes of memory_bank.  What the call
    returns is what a call without coverage returns on the tensor whose
    entry [[b][j][k]] is the tanh of that sum: that tensor is the one
    scored and averaged. *)
Theorem coverage_injection_effect :
  forall self source memory_bank memory_lengths utr_align_vectors
         utr_position_tuple src_word_utr_ids,
    fst (forward self source memory_bank memory_lengths None
                 utr_align_vectors utr_position_tuple src_word_utr_ids)
    = memory_bank
    /\
    forall cov layer u lengths,
      utr_align_vectors = Some u ->
      linear_cover self = Some layer ->
      bias layer = None ->
      out_features layer = dim self ->
      check_inputs self (promote source) memory_bank memory_lengths
                   (Some cov) (promote u) = Ok lengths ->
      exists buffer scored,
        forward self source memory_bank memory_lengths (Some cov)
                utr_align_vectors utr_position_tuple src_word_utr_ids
        = (buffer,
           snd (forward self source scored memory_lengths None
                        utr_align_vectors utr_position_tuple
                        src_word_utr_ids))
        /\ size3 buffer = size3 memory_bank
        /\ size3 scored = size3 memory_bank
        /\ forall bi j k x c w,
            entry3 memory_bank bi j k = Some x ->
            row_at cov bi j = Some c ->
            row_at (weight layer) k 0 = Some w ->
            entry3 buffer bi j k = Some (fadd x (fmul c w))
            /\ entry3 scored bi j k = Some (ftanh (fadd x (fmul c w))).
Proof.
  intros self source memory_bank memory_lengths utr pos ids. split.
  - destruct utr as [u|]; [|reflexivity].
    rewrite forward_unfold.
    destruct (check_inputs _ _ _ _ _ _); reflexivity.
  - intros cov layer u lengths -> Hlayer Hbias Hout Hchk.
    set (injected := tensor_add memory_bank (project_coverage layer cov)).
    exists injected, (tensor_tanh injected).
    pose proof (check_inputs_ok _ _ _ _ _ _ _ Hchk)
      as (_ & _ & _ & _ & Hd & _ & Hcov).
    destruct (Hcov cov eq_refl) as [Hb Hs].
    assert (Hsz0 : size3 injected = size3 memory_bank).
    { apply size3_injected; try assumption. congruence. }
    assert (Hsz : size3 (tensor_tanh injected) = size3 memory_bank).
    { rewrite size3_tensor_tanh. exact Hsz0. }
    split; [|split; [exact Hsz0 | split; [exact Hsz|]]].
    + rewrite !forward_unfold, Hchk.
      rewrite (check_inputs_resized _ _ _ _ _ _ _ _ Hchk Hsz).
      unfold inject_coverage. rewrite Hlayer.
      cbn [snd]. rewrite (sizes_of_resized _ _ _ Hsz). reflexivity.
    + intros bi j k x c w Hx Hc Hw.
      pose proof (injected_entry layer memory_bank cov bi j k x c w
                    Hbias Hx Hc Hw) as E.
      fold injected in E. split; [exact E|].
      rewrite tanh_entry, E. reflexivity.
Qed.

Lemma coverage_injection_effect_witness :
  exists buffer scored,
    forward with_coverage1 (T2 [[Fin 1]]) [[[Fin 1]]] (Some [1%Z])
            (Some [[Fin 2]]) (Some (T2 [[Fin 1]])) None None
    = (buffer,
       snd (forward with_coverage1 (T2 [[Fin 1]]) scored (Some [1%Z]) None
                    (Some (T2 [[Fin 1]])) None None))
    /\ size3 buffer = (1, 1, 1)%nat
    /\ size3 scored = (1, 1, 1)%nat
    /\ entry3 buffer 0 0 0 = Some (Fin (1 + 2 * 1))
    /\ entry3 scored 0 0 0 = Some (Fin (tanh (1 + 2 * 1))).
Proof.
  destruct (proj2 (coverage_injection_effect with_coverage1 (T2 [[Fin 1]])
                     [[[Fin 1]]] (Some [1%Z]) (Some (T2 [[Fin 1]])) None
                     None)
              [[Fin 2]] cover_layer1 (T2 [[Fin 1]]) [1%Z]
              eq_refl eq_refl eq_refl eq_refl eq_refl)
    as (buffer & scored & H1 & H2 & H3 & H4).
  exists buffer, scored.
  split; [exact H1|]. split; [exact H2|]. split; [exact H3|].
  exact (H4 0%nat 0%nat 0%nat (Fin 1) (Fin 2) (Fin 1)
            eq_refl eq_refl eq_refl).
Defined.

(** X18: the coverage injection accumulates in the caller's source bank.  Two
    successive calls on the same buffer, each with a coverage tensor, leave
    the buffer holding memory_bank + linear_cover(coverage1) +
    linear_cover(coverage2), entry [[b][j][k]] being memory_bank[b][j][k]
    + coverage1[b][j] * weight[k][0] + coverage2[b][j] * weight[k][0]: the
    second call starts from what the first one left, not from the original
    source vectors. *)
Theorem coverage_accumulates_in_buffer :
  forall self source memory_bank lens cov1 cov2 u pos ids layer lengths,
    linear_cover self = Some layer ->
    bias layer = None ->
    out_features layer = dim self ->
    check_inputs self (promote source) memory_bank lens (Some cov1)
                 (promote u) = Ok lengths ->
    size2 cov2 = size2 cov1 ->
    exists buffer1 buffer2,
      fst (forward self source memory_bank lens (Some cov1) (Some u) pos
                   ids) = buffer1
      /\ fst (forward self source buffer1 lens (Some cov2) (Some u) pos ids)
         = buffer2
      /\ size3 buffer2 = size3 memory_bank
      /\ forall bi j k x c1 c2 w,
          entry3 memory_bank bi j k = Some x ->
          row_at cov1 bi j = Some c1 ->
          row_at cov2 bi j = Some c2 ->
          row_at (weight layer) k 0 = Some w ->
          entry3 buffer1 bi j k = Some (fadd x (fmul c1 w))
          /\ entry3 buffer2 bi j k
             = Some (fadd (fadd x (fmul c1 w)) (fmul c2 w)).
Proof.
  intros self source memory_bank lens cov1 cov2 u pos ids layer lengths
         Hlayer Hbias Hout Hchk Hsz.
  set (b1 := tensor_add memory_bank (project_coverage layer cov1)).
  exists b1, (tensor_add b1 (project_coverage layer cov2)).
  pose proof (check_inputs_ok _ _ _ _ _ _ _ Hchk)
    as (_ & _ & _ & _ & Hd & _ & Hcov).
  destruct (Hcov cov1 eq_refl) as [Hb Hs].
  assert (Hsz3 : size3 b1 = size3 memory_bank).
  { apply size3_injected; try assumption. congruence. }
  assert (H1 : fst (forward self source memory_bank lens (Some cov1)
                            (Some u) pos ids) = b1).
  { rewrite forward_unfold, Hchk.
    unfold inject_coverage. rewrite Hlayer. reflexivity. }
  split; [exact H1|]. split; [|split].
  - rewrite forward_unfold.
    rewrite (check_inputs_sizes_only self (promote source) memory_bank _ lens
               cov1 cov2 (promote u) Hsz3 Hsz). unalias. rewrite Hchk.
    unfold inject_coverage. rewrite Hlayer. reflexivity.
  - transitivity (size3 b1); [|exact Hsz3].
    apply size3_injected;
      unfold size3 in Hsz3; unfold size2 in Hsz;
      injection Hsz3 as E1 E2 E3; injection Hsz as F1 F2;
      unalias; congruence.
  - intros bi j k x c1 c2 w Hx Hc1 Hc2 Hw.
    pose proof (injected_entry layer memory_bank cov1 bi j k x c1 w
                  Hbias Hx Hc1 Hw) as E1.
    fold b1 in E1. split; [exact E1|].
    exact (injected_entry layer b1 cov2 bi j k _ c2 w Hbias E1 Hc2 Hw).
Qed.

Lemma coverage_accumulates_in_buffer_witness :
  exists buffer1 buffer2,
    fst (forward with_coverage1 (T2 [[Fin 1]]) [[[Fin 1]]] (Some [1%Z])
                 (Some [[Fin 2]]) (Some (T2 [[Fin 1]])) None None) = buffer1
    /\ fst (forward with_coverage1 (T2 [[Fin 1]]) buffer1 (Some [1%Z])
                    (Some [[Fin 3]]) (Some (T2 [[Fin 1]])) None None)
       = buffer2
    /\ size3 buffer2 = (1, 1, 1)%nat
    /\ entry3 buffer1 0 0 0 = Some (Fin (1 + 2 * 1))
    /\ entry3 buffer2 0 0 0 = Some (Fin (1 + 2 * 1 + 3 * 1)).
Proof.
  destruct (coverage_accumulates_in_buffer with_coverage1 (T2 [[Fin 1]])
              [[[Fin 1]]] (Some [1%Z]) [[Fin 2]] [[Fin 3]] (T2 [[Fin 1]])
              None None cover_layer1 [1%Z]
              eq_refl eq_refl eq_refl eq_refl eq_refl)
    as (buffer1 & buffer2 & H1 & H2 & H3 & H4).
  exists buffer1, buffer2.
  split; [exact H1|]. split; [exact H2|]. split; [exact H3|].
  exact (H4 0%nat 0%nat 0%nat (Fin 1) (Fin 2) (Fin 3) (Fin 1)
            eq_refl eq_refl eq_refl eq_refl).
Defined.

(* ================================================================= *)
(** ** The range of the softmax weights: line 208 *)

(** X10: with softmax, every raw score before the length which is a finite
    number becomes a weight between 0 and 1, and a position whose score is
    the largest among those before the length gets a weight above 0 which
    no other weight before the length exceeds: the normalization never
    removes the best-scoring source position. *)
Theorem softmax_weights_are_bounded :
  forall (lens : list Z) (word_align : tensor3),
    length lens = length word_align ->
    exists a,
      masked_normalize Softmax lens word_align = Ok a
      /\ forall bi ti len r,
          nth_error lens bi = Some len ->
          row_at word_align bi ti = Some r ->
          (1 <= len)%Z ->
          length r = size_last word_align ->
          finite_prefix len r ->
          exists row,
            row_at a bi ti = Some row
            /\ (forall i,
                  (i < Z.to_nat len)%nat -> (i < length r)%nat ->
                  exists p,
                    nth_error row i = Some (Fin p) /\ (0 <= p <= 1)%R)
            /\ (forall i x,
                  (i < Z.to_nat len)%nat ->
                  nth_error r i = Some (Fin x) ->
                  (forall j y, (j < Z.to_nat len)%nat ->
                               nth_error r j = Some (Fin y) -> (y <= x)%R) ->
                  exists p,
                    nth_error row i = Some (Fin p) /\ (0 < p <= 1)%R
                    /\ forall j q,
                        (j < Z.to_nat len)%nat ->
                        nth_error row j = Some (Fin q) -> (q <= p)%R).
Proof.
  intros lens word_align Hl.
  rewrite (masked_normalize_softmax_closed lens word_align Hl).
  eexists. split; [reflexivity|].
  intros bi ti len r Hlen Hr Hpos Hs Hfin.
  rewrite (row_at_masked_softmax lens word_align bi ti len r Hlen Hr).
  eexists. split; [reflexivity|]. rewrite <- Hs. split.
  - intros i Hi Hir.
    destruct (softmax_row_positive len r i Hpos Hfin Hi Hir)
      as (p & Hp & Hrange).
    exists p. split; [exact Hp | lra].
  - intros i x Hi Hx Hmax.
    assert (Hir : (i < length r)%nat) by (apply nth_error_Some; congruence).
    destruct (softmax_row_positive len r i Hpos Hfin Hi Hir)
      as (p & Hp & Hrange).
    exists p. split; [exact Hp|]. split; [exact Hrange|].
    intros j q Hj Hq.
    assert (Hjr : (j < length r)%nat).
    { pose proof (proj1 (nth_error_Some _ j) ltac:(rewrite Hq; discriminate))
        as H.
      rewrite length_softmax, length_fill_row in H. lia. }
    destruct (nth_error r j) as [v|] eqn:Ev;
      [|apply nth_error_None in Ev; lia].
    pose proof (Hfin j v Hj Ev) as Hv.
    destruct v as [y| | |]; try discriminate.
    destruct (softmax_row_monotone len r j i y x Hpos Hfin Hj Hi Ev Hx
                (Hmax j y Hj Ev)) as (pj & pi & Ej & Ei & Hle).
    rewrite Ej in Hq. injection Hq as <-.
    rewrite Ei in Hp. injection Hp as <-. exact Hle.
Qed.

Lemma softmax_weights_are_bounded_witness :
  exists a,
    masked_normalize Softmax [2%Z] [[[Fin 1; Fin 2]]] = Ok a
    /\ forall bi ti len r,
        nth_error [2%Z] bi = Some len ->
        row_at [[[Fin 1; Fin 2]]] bi ti = Some r ->
        (1 <= len)%Z ->
        length r = size_last [[[Fin 1; Fin 2]]] ->
        finite_prefix len r ->
        exists row,
          row_at a bi ti = Some row
          /\ (forall i,
                (i < Z.to_nat len)%nat -> (i < length r)%nat ->
                exists p,
                  nth_error row i = Some (Fin p) /\ (0 <= p <= 1)%R)
          /\ (forall i x,
                (i < Z.to_nat len)%nat ->
                nth_error r i = Some (Fin x) ->
                (forall j y, (j < Z.to_nat len)%nat ->
                             nth_error r j = Some (Fin y) -> (y <= x)%R) ->
                exists p,
                  nth_error row i = Some (Fin p) /\ (0 < p <= 1)%R
                  /\ forall j q,
                      (j < Z.to_nat len)%nat ->
                      nth_error row j = Some (Fin q) -> (q <= p)%R).
Proof.
  apply (softmax_weights_are_bounded [2%Z] [[[Fin 1; Fin 2]]]).
  reflexivity.
Defined.
